(** * The K&R free-list allocator of user/umalloc.c

    A shallow embedding of [free], [morecore] and [malloc] together with
    the free-list invariants they maintain.

    Addresses are byte addresses in [Z]; a [Header*] advanced by [k]
    moves [k * sizeof(Header)] bytes.  The [uint] fields and locals are
    integers reduced modulo [2^32]; arithmetic that C performs in
    [size_t] is reduced modulo [2^SZB].  Loops that C leaves unbounded
    take a fuel argument and answer [None] when it runs out.

    Memory is read and written one header at a time, at the address of
    the header; the bytes of a block after its header belong to the
    client and are not modelled.  [sizeof(Header)], the width of
    [size_t] and the address of [base] are fixed by headers and by the
    linker, not by umalloc.c, and are parameters here. *)

From Stdlib Require Import ZArith List Lia Bool.
Import ListNotations.
Open Scope Z_scope.

(** ** Machine integers *)

Definition u32 (x : Z) : Z := x mod 2 ^ 32.
Definition wrap (bits x : Z) : Z := x mod 2 ^ bits.

(** ** Block headers and memory *)

(** [union header]: the [s.ptr] and [s.size] fields. *)
Record header := mkHeader { h_ptr : Z; h_size : Z }.

(** Memory seen through [Header*]: the header stored at each address. *)
Definition memory := Z -> header.

Definition set_ptr (m : memory) (a v : Z) : memory :=
  fun x => if x =? a then mkHeader v (h_size (m a)) else m x.

Definition set_size (m : memory) (a v : Z) : memory :=
  fun x => if x =? a then mkHeader (h_ptr (m a)) v else m x.

(** The allocator's globals ([freep], and [base] inside [mem]) and the
    state of the growth primitive. *)
Record state := mkState {
  mem : memory;
  freep : Z;
  brk : Z;      (* current end of the managed region *)
  lim : Z       (* the growth primitive fails beyond this address *)
}.

Definition with_mem (st : state) (m : memory) : state :=
  mkState m (freep st) (brk st) (lim st).

Definition NULL : Z := 0.

(** Modelled from the spec: the growth primitive [sbrk] (a system call,
    declared in user/user.h and implemented by the kernel).  It extends
    the managed region contiguously at its current end and returns the
    start of the new span, or fails cleanly ([None] stands for the
    [(char* )-1] result). *)
Definition sbrk (st : state) (n : Z) : option (Z * state) :=
  if brk st + n <=? lim st
  then Some (brk st, mkState (mem st) (freep st) (brk st + n) (lim st))
  else None.

Section Allocator.

  (** [sizeof(Header)], the bit width of [size_t], and [&base]: fixed by
      the platform headers and the linker. *)
Variable HSZ : Z.
Variable SZB : Z.
Variable base : Z.

  (** [nunits = (nbytes + sizeof(Header) - 1)/sizeof(Header) + 1],
      evaluated in [size_t] and stored in a [uint]. *)
Definition nunits_of (nbytes : Z) : Z :=
    u32 (wrap SZB (wrap SZB (wrap SZB (nbytes + HSZ) - 1) / HSZ + 1)).

  (** *** free *)

  (** The [for] loop of [free]: the node at which the scan stops. *)
Fixpoint free_scan (fuel : nat) (m : memory) (bp p : Z) : option Z :=
    match fuel with
    | O => None
    | S f =>
        if (p <? bp) && (bp <? h_ptr (m p)) then Some p
        else if (h_ptr (m p) <=? p) && ((p <? bp) || (bp <? h_ptr (m p)))
             then Some p
             else free_scan f m bp (h_ptr (m p))
    end.

  (** The two merge tests and the final [freep = p]. *)
Definition free_link (st : state) (bp p : Z) : state :=
    let m := mem st in
    let m1 :=
      if bp + h_size (m bp) * HSZ =? h_ptr (m p) then
        let ma := set_size m bp (u32 (h_size (m bp) + h_size (m (h_ptr (m p))))) in
        set_ptr ma bp (h_ptr (ma (h_ptr (ma p))))
      else set_ptr m bp (h_ptr (m p)) in
    let m2 :=
      if p + h_size (m1 p) * HSZ =? bp then
        let mb := set_size m1 p (u32 (h_size (m1 p) + h_size (m1 bp))) in
        set_ptr mb p (h_ptr (mb bp))
      else set_ptr m1 p bp in
    mkState m2 p (brk st) (lim st).

Definition free (fuel : nat) (st : state) (ap : Z) : option state :=
    let bp := ap - HSZ in
    match free_scan fuel (mem st) bp (freep st) with
    | None => None
    | Some p => Some (free_link st bp p)
    end.

  (** *** morecore *)

Definition morecore (fuel : nat) (st : state) (nu : Z) : option (Z * state) :=
    let nu := if nu <? 4096 then 4096 else nu in
    match sbrk st (wrap SZB (nu * HSZ)) with
    | None => Some (NULL, st)
    | Some (hp, st1) =>
        let st2 := with_mem st1 (set_size (mem st1) hp nu) in
        match free fuel st2 (hp + HSZ) with
        | None => None
        | Some st3 => Some (freep st3, st3)
        end
    end.

  (** *** malloc *)

  (** What [malloc] does at a block [p] with [p->s.size >= nunits]:
      the new memory and the header of the block handed out. *)
Definition take (m : memory) (prevp p nunits : Z) : memory * Z :=
    if h_size (m p) =? nunits then (set_ptr m prevp (h_ptr (m p)), p)
    else
      let m1 := set_size m p (u32 (h_size (m p) - nunits)) in
      let p1 := p + h_size (m1 p) * HSZ in
      (set_size m1 p1 nunits, p1).

Fixpoint malloc_loop (fuel : nat) (st : state) (prevp p nunits : Z)
    : option (Z * state) :=
    match fuel with
    | O => None
    | S f =>
        if nunits <=? h_size (mem st p) then
          let '(m', q) := take (mem st) prevp p nunits in
          Some (q + HSZ, mkState m' prevp (brk st) (lim st))
        else if p =? freep st then
          match morecore f st nunits with
          | None => None
          | Some (p', st') =>
              if p' =? NULL then Some (NULL, st')
              else malloc_loop f st' p' (h_ptr (mem st' p')) nunits
          end
        else malloc_loop f st p (h_ptr (mem st p)) nunits
    end.

  (** The lazy initialisation [base.s.ptr = freep = prevp = &base;
      base.s.size = 0]. *)
Definition init (st : state) : state :=
    if freep st =? NULL
    then mkState (set_size (set_ptr (mem st) base base) base 0) base (brk st) (lim st)
    else st.

Definition malloc (fuel : nat) (st : state) (nbytes : Z) : option (Z * state) :=
    let nunits := nunits_of nbytes in
    let st0 := init st in
    let prevp := freep st0 in
    malloc_loop fuel st0 prevp (h_ptr (mem st0 prevp)) nunits.

End Allocator.

(** A process that has not yet called the allocator: zeroed [.bss]. *)
Definition fresh (brk0 lim0 : Z) : state :=
  mkState (fun _ => mkHeader 0 0) 0 brk0 lim0.

(** [ceil(a / b)] for positive [b]. *)
Definition ceil_div (a b : Z) : Z := a / b + (if a mod b =? 0 then 0 else 1).

(** Running a list of requests through [malloc], collecting the
    returned pointers. *)
Fixpoint malloc_seq (HSZ SZB base : Z) (fuel : nat) (st : state) (reqs : list Z)
  : option (list Z * state) :=
  match reqs with
  | [] => Some ([], st)
  | n :: rest =>
      match malloc HSZ SZB base fuel st n with
      | None => None
      | Some (p, st1) =>
          match malloc_seq HSZ SZB base fuel st1 rest with
          | None => None
          | Some (ps, st2) => Some (p :: ps, st2)
          end
      end
  end.

(** ** The free list as a chain in memory *)

(** The node reached from [p] after following [s.ptr] [k] times. *)
Fixpoint nth_node (m : memory) (k : nat) (p : Z) : Z :=
  match k with
  | O => p
  | S k' => nth_node m k' (h_ptr (m p))
  end.

(** The exit test of the scan in [free] at node [p]. *)
Definition scan_stop (m : memory) (bp p : Z) : bool :=
  ((p <? bp) && (bp <? h_ptr (m p)))
  || ((h_ptr (m p) <=? p) && ((p <? bp) || (bp <? h_ptr (m p)))).

(** [x] is on the free list: reachable from the cursor. *)
Definition on_chain (st : state) (x : Z) : Prop :=
  exists k, nth_node (mem st) k (freep st) = x.

(** Invariant 3: no free block ends where another one starts. *)
Definition no_adjacent (HSZ : Z) (st : state) : Prop :=
  forall x y, on_chain st x -> on_chain st y -> x <> y ->
              x + h_size (mem st x) * HSZ <> y.

(** ** Abstract view of an allocator state *)

(** A block: the address of its header and its size in units. *)
Abbreviation block := (Z * Z)%type.

Section Invariants.

Variable HSZ : Z.
Variable base : Z.

Definition blk_end (b : block) : Z := fst b + snd b * HSZ.

  (** The chain from [x] runs through the headers of [L], in order, and
      arrives at [y]; each header records its block's size. *)
Fixpoint lseg (m : memory) (x : Z) (L : list block) (y : Z) : Prop :=
    match L with
    | [] => x = y
    | b :: L' => x = fst b /\ h_size (m x) = snd b /\ lseg m (h_ptr (m x)) L' y
    end.

  (** Each block starts strictly above the end of the one before it
      ([x] is the end of the block preceding [L]). *)
Fixpoint gaps (x : Z) (L : list block) : Prop :=
    match L with
    | [] => True
    | b :: L' => x < fst b /\ gaps (blk_end b) L'
    end.

  (** The end of the last block of [L], or [x] when [L] is empty. *)
Fixpoint last_end (x : Z) (L : list block) : Z :=
    match L with
    | [] => x
    | b :: L' => last_end (blk_end b) L'
    end.

  (** A block inside the managed region [lo, hi). *)
Definition in_heap (lo hi : Z) (b : block) : Prop :=
    lo <= fst b /\ 0 < snd b /\ fst b mod HSZ = 0 /\ blk_end b <= hi.

Definition disj (b c : block) : Prop :=
    blk_end b <= fst c \/ blk_end c <= fst b.

Fixpoint pairwise_disj (A : list block) : Prop :=
    match A with
    | [] => True
    | b :: A' => Forall (disj b) A' /\ pairwise_disj A'
    end.

  (** The state [st] manages the region starting at [lo]; its free
      blocks are [L] in address order and its live allocations are [A].
      The sentinel lies below the region, the region's end is
      Header-aligned, and the region can never exceed [2^32] units, so
      that every block size fits a [uint]. *)
Record Inv (lo : Z) (st : state) (L A : list block) : Prop := mkInv {
    inv_base_pos : 0 < base;
    inv_base_lo : base + HSZ <= lo;
    inv_lo_brk : lo <= brk st;
    inv_brk_lim : brk st <= lim st;
    inv_brk_al : brk st mod HSZ = 0;
    inv_cap : lim st - lo < 2 ^ 32 * HSZ;
    inv_freep : In (freep st) (base :: map fst L);
    inv_chain : lseg (mem st) base ((base, 0) :: L) base;
    inv_gaps : gaps base L;
    inv_free : Forall (in_heap lo (brk st)) L;
    inv_alloc : Forall (in_heap lo (brk st)) A;
    inv_asize : Forall (fun b => h_size (mem st (fst b)) = snd b) A;
    inv_adisj : pairwise_disj A;
    inv_fdisj : Forall (fun a => Forall (disj a) L) A
  }.

  (** Before the first [malloc]: no list, nothing allocated. *)
Record Inv0 (lo : Z) (st : state) : Prop := mkInv0 {
    inv0_base_pos : 0 < base;
    inv0_base_lo : base + HSZ <= lo;
    inv0_freep : freep st = NULL;
    inv0_brk : brk st = lo;
    inv0_brk_lim : brk st <= lim st;
    inv0_brk_al : brk st mod HSZ = 0;
    inv0_cap : lim st - lo < 2 ^ 32 * HSZ
  }.

End Invariants.

(** ** The situation in which [free] links a block

    The list, starting at [base], is [Fp ++ (pa, ps) :: L2]; the block
    [(bp, s)] being freed lies above [pa] and below the blocks of [L2],
    inside the region [lo, hi). *)
Record free_ctx (HSZ base : Z) (m : memory) (Fp : list block) (pa ps : Z)
       (L2 : list block) (bp s lo hi : Z) : Prop := mkFreeCtx {
  fc_seg : lseg m base (Fp ++ (pa, ps) :: L2) base;
  fc_sz : Forall (fun b => 0 <= snd b) (Fp ++ (pa, ps) :: L2);
  fc_gap : gaps HSZ (base - 1) (Fp ++ (pa, ps) :: L2);
  fc_pa : pa < bp;
  fc_L2 : Forall (fun b => bp < fst b) L2;
  fc_s : 0 < s;
  fc_bs : h_size (m bp) = s;
  fc_pa_end : pa + ps * HSZ <= bp;
  fc_L2_dis : Forall (fun c => bp + s * HSZ <= fst c) L2;
  fc_lo : lo <= bp;
  fc_pa_lo : ps = 0 \/ lo <= pa;
  fc_hi : bp + s * HSZ <= hi;
  fc_L2_hi : Forall (fun c => blk_end HSZ c <= hi) L2;
  fc_cap : hi - lo < 2 ^ 32 * HSZ
}.

(** The memory after the forward merge test of [free]. *)
Definition fwd_mem (HSZ : Z) (m : memory) (bp p : Z) : memory :=
  if bp + h_size (m bp) * HSZ =? h_ptr (m p) then
    let ma := set_size m bp (u32 (h_size (m bp) + h_size (m (h_ptr (m p))))) in
    set_ptr ma bp (h_ptr (ma (h_ptr (ma p))))
  else set_ptr m bp (h_ptr (m p)).

(** The memory after the backward merge test of [free]. *)
Definition bwd_mem (HSZ : Z) (m1 : memory) (bp p : Z) : memory :=
  if p + h_size (m1 p) * HSZ =? bp then
    let mb := set_size m1 p (u32 (h_size (m1 p) + h_size (m1 bp))) in
    set_ptr mb p (h_ptr (mb bp))
  else set_ptr m1 p bp.

(** The two possible outcomes of each merge test, on the abstract list:
    the freed block [(bp, s)] becomes [(bp, s1)] followed by [L2'], and
    then [X] stands where [(pa, ps)] stood. *)
Definition fwd_shape (HSZ : Z) (L2 : list block) (bp s s1 : Z) (L2' : list block) : Prop :=
  (s1 = s /\ L2' = L2 /\ Forall (fun c => bp + s * HSZ < fst c) L2) \/
  (exists sc, L2 = (bp + s * HSZ, sc) :: L2' /\ s1 = s + sc /\ 0 <= sc).

Definition bwd_shape (HSZ : Z) (pa ps bp s1 lo : Z) (X : list block) : Prop :=
  (X = [(pa, ps); (bp, s1)] /\ pa + ps * HSZ < bp) \/
  (X = [(pa, ps + s1)] /\ pa + ps * HSZ = bp /\ lo <= pa).

(** A property of blocks that survives merging two adjacent blocks. *)
Definition merge_stable (HSZ : Z) (P : block -> Prop) : Prop :=
  forall a s1 s2, 0 <= s1 -> 0 <= s2 ->
    P (a, s1) -> P (a + s1 * HSZ, s2) -> P (a, s1 + s2).

(** A well-formed allocator state: initialised with free blocks [L] and
    live blocks [A], or not yet initialised. *)
Definition Wf (HSZ base lo : Z) (st : state) (L A : list block) : Prop :=
  Inv HSZ base lo st L A \/ (Inv0 HSZ base lo st /\ L = [] /\ A = []).

(** The number of units [morecore] asks for. *)
Definition grow_units (nunits : Z) : Z := if nunits <? 4096 then 4096 else nunits.

(** No step of the unit computation wraps: the two [size_t] additions,
    the [size_t] subtraction and the conversion to [uint] all yield
    their mathematical values. *)
Definition nunits_no_wrap (HSZ SZB nbytes : Z) : Prop :=
  let a := nbytes + HSZ in
  let b := wrap SZB a - 1 in
  let c := wrap SZB b / HSZ + 1 in
  wrap SZB a = a /\ wrap SZB b = b /\ wrap SZB c = c /\ u32 (wrap SZB c) = c.

(** ** Client programs

    A client issues [malloc] and [free] calls; it only frees pointers
    that [malloc] returned and that it has not freed yet, so a run
    carries the list of live pointers.  A [free] of anything else has
    no defined behaviour and ends the run with [None]. *)
Inductive op : Type :=
| Omalloc (nbytes : Z)
| Ofree (ap : Z).

Fixpoint remove_first (x : Z) (l : list Z) : list Z :=
  match l with
  | [] => []
  | y :: l' => if x =? y then l' else y :: remove_first x l'
  end.

Fixpoint run (HSZ SZB base : Z) (fuel : nat) (st : state) (live : list Z)
         (ops : list op) : option (state * list Z) :=
  match ops with
  | [] => Some (st, live)
  | Omalloc n :: rest =>
      match malloc HSZ SZB base fuel st n with
      | None => None
      | Some (r, st') =>
          run HSZ SZB base fuel st' (if r =? NULL then live else r :: live) rest
      end
  | Ofree ap :: rest =>
      if existsb (Z.eqb ap) live then
        match free HSZ fuel st ap with
        | None => None
        | Some st' => run HSZ SZB base fuel st' (remove_first ap live) rest
        end
      else None
  end.

(** The pointer handed to the client for a block. *)
Definition ptr_of (HSZ : Z) (b : block) : Z := fst b + HSZ.

(** The requests a client can make: [nbytes] is a [uint]. *)
Definition uint_range (n : Z) : Prop := 0 <= n < 2 ^ 32.

Definition op_ok (o : op) : Prop :=
  match o with
  | Omalloc n => uint_range n
  | Ofree _ => True
  end.

(** [R] holds between any two elements at different positions. *)
Fixpoint pairwise {X : Type} (R : X -> X -> Prop) (l : list X) : Prop :=
  match l with
  | [] => True
  | x :: l' => Forall (R x) l' /\ pairwise R l'
  end.

(** The usable regions of two blocks (from the returned pointer to the
    end of the block) do not overlap. *)
Definition usable_disj (HSZ : Z) (b c : block) : Prop :=
  fst b + snd b * HSZ <= fst c + HSZ \/ fst c + snd c * HSZ <= fst b + HSZ.

(** The blocks behind the pointers [ps] returned for the requests [reqs]. *)
Definition blocks_of (HSZ SZB : Z) (ps reqs : list Z) : list block :=
  combine (map (fun p => p - HSZ) ps) (map (nunits_of HSZ SZB) reqs).

(** At most one block of [L] can hold [n] units. *)
Definition unique_fit (n : Z) (L : list block) : Prop :=
  forall b1 b2, In b1 L -> In b2 L -> n <= snd b1 -> n <= snd b2 -> b1 = b2.

(** The search of [malloc] takes a block whole: going round the list
    from the node after the cursor, the nodes before the first one with
    at least [n] units are smaller, and that one has exactly [n]. *)
Definition first_fit_exact (st : state) (n : Z) : Prop :=
  exists k,
    (forall j, (j < k)%nat -> h_size (mem st (nth_node (mem st) (S j) (freep st))) < n) /\
    h_size (mem st (nth_node (mem st) (S k) (freep st))) = n.

(** What is left on the list of a block [(c, sp)] after [n] units were
    taken from it. *)
Definition remainder (c sp n : Z) : list block :=
  if sp =? n then [] else [(c, sp - n)].

(** ** Measures of a state

    The number of units on the free list and in the client's hands,
    read from the headers in memory. *)

(** The units of a list of blocks. *)
Definition units (L : list block) : Z :=
  fold_right (fun b acc => snd b + acc) 0 L.

(** The sizes of the nodes met from [p] along [s.ptr] until the chain
    arrives at [base]. *)
Fixpoint chain_units (fuel : nat) (m : memory) (base p : Z) : option Z :=
  match fuel with
  | O => None
  | S f =>
      if p =? base then Some 0
      else match chain_units f m base (h_ptr (m p)) with
           | None => None
           | Some u => Some (h_size (m p) + u)
           end
  end.

(** The units on the free list of [st]: one round of the chain from
    the sentinel, whose own size is 0. *)
Definition free_units (base : Z) (fuel : nat) (st : state) : option Z :=
  chain_units fuel (mem st) base (h_ptr (mem st base)).

(** The units held by the client: the sizes in the headers in front of
    its live pointers. *)
Definition live_units (HSZ : Z) (st : state) (live : list Z) : Z :=
  fold_right (fun r acc => h_size (mem st (r - HSZ)) + acc) 0 live.

(** The header cells that share a byte with block [b] are the same in
    [m] and [m']: the cell at [x] occupies the bytes [x, x + HSZ). *)
Definition untouched (HSZ : Z) (m m' : memory) (b : block) : Prop :=
  forall x, fst b - HSZ < x < fst b + snd b * HSZ -> m' x = m x.

(** The block behind a live pointer [r] of [st], as its header records it. *)
Definition live_block (HSZ : Z) (st : state) (r : Z) : block :=
  (r - HSZ, h_size (mem st (r - HSZ))).

(** ** A concrete state

    An LP64 process ([sizeof(Header) = 16], 64-bit [size_t]) with
    [&base = 1000] whose heap starts at 4096, after its first
    [malloc(64)]: one free block of 4091 units and one live block of 5
    units at the top of the 4096 units obtained from [sbrk]. *)
Definition ex_mem : memory :=
  fun x => if x =? 1000 then mkHeader 4096 0
           else if x =? 4096 then mkHeader 1000 4091
           else if x =? 69552 then mkHeader 0 5
           else mkHeader 0 0.

Definition ex_state : state := mkState ex_mem 1000 69632 1052672.

(** The same process after a further [malloc(0)]: a second live block,
    of one unit, just below the first. *)
Definition ex_state2 : state :=
  mkState (fun x => if x =? 1000 then mkHeader 4096 0
                    else if x =? 4096 then mkHeader 1000 4090
                    else if x =? 69536 then mkHeader 0 1
                    else if x =? 69552 then mkHeader 0 5
                    else mkHeader 0 0)
          1000 69632 1052672.

(** The process after [malloc(64)], [malloc(16)] and [free] of the first
    pointer: free blocks of 4089 and 5 units on either side of a live
    block of 2 units, the cursor on the lower one. *)
Definition ex_state3 : state :=
  mkState (fun x => if x =? 1000 then mkHeader 4096 0
                    else if x =? 4096 then mkHeader 69552 4089
                    else if x =? 69520 then mkHeader 0 2
                    else if x =? 69552 then mkHeader 1000 5
                    else mkHeader 0 0)
          4096 69632 1052672.

(** A circular chain of three nodes at 100, 200 and 300, cursor at 200. *)
Definition ring_state : state :=
  mkState (fun x => if x =? 100 then mkHeader 200 0
                    else if x =? 200 then mkHeader 300 4
                    else if x =? 300 then mkHeader 100 4
                    else mkHeader 0 0)
          200 0 0.

(** * Elementary facts about the memory updates *)

Lemma set_ptr_same m a v : set_ptr m a v a = mkHeader v (h_size (m a)).
Proof. unfold set_ptr. now rewrite Z.eqb_refl. Qed.

Lemma set_ptr_other m a v x : x <> a -> set_ptr m a v x = m x.
Proof. intros H. unfold set_ptr. apply Z.eqb_neq in H. now rewrite H. Qed.

Lemma set_size_same m a v : set_size m a v a = mkHeader (h_ptr (m a)) v.
Proof. unfold set_size. now rewrite Z.eqb_refl. Qed.

Lemma set_size_other m a v x : x <> a -> set_size m a v x = m x.
Proof. intros H. unfold set_size. apply Z.eqb_neq in H. now rewrite H. Qed.

Lemma h_size_set_ptr m a v x : h_size (set_ptr m a v x) = h_size (m x).
Proof. unfold set_ptr. destruct (Z.eqb_spec x a); [subst|]; reflexivity. Qed.

Lemma h_ptr_set_size m a v x : h_ptr (set_size m a v x) = h_ptr (m x).
Proof. unfold set_size. destruct (Z.eqb_spec x a); [subst|]; reflexivity. Qed.

Lemma h_ptr_set_ptr_same m a v : h_ptr (set_ptr m a v a) = v.
Proof. now rewrite set_ptr_same. Qed.

Lemma h_size_set_size_same m a v : h_size (set_size m a v a) = v.
Proof. now rewrite set_size_same. Qed.

Lemma h_size_set_size_other m a v x : x <> a -> h_size (set_size m a v x) = h_size (m x).
Proof. intros. now rewrite set_size_other. Qed.

Lemma u32_small x : 0 <= x < 2 ^ 32 -> u32 x = x.
Proof. intros. unfold u32. now apply Z.mod_small. Qed.

Lemma wrap_small b x : 0 <= x < 2 ^ b -> wrap b x = x.
Proof. intros. unfold wrap. now apply Z.mod_small. Qed.

(** * The unit count *)

Lemma ceil_div_spec a b : 0 < b -> ceil_div a b = (a + b - 1) / b.
Proof.
  intros Hb. unfold ceil_div.
  pose proof (Z.div_mod a b ltac:(lia)) as E.
  pose proof (Z.mod_pos_bound a b Hb) as B.
  destruct (a mod b =? 0) eqn:Hz.
  - apply Z.eqb_eq in Hz.
    apply Z.div_unique with (r := b - 1); lia.
  - apply Z.eqb_neq in Hz.
    apply Z.div_unique with (r := a mod b - 1); lia.
Qed.

Lemma ceil_div_ge a b : 0 < b -> 0 <= a -> a <= ceil_div a b * b.
Proof.
  intros Hb Ha. unfold ceil_div.
  pose proof (Z.div_mod a b ltac:(lia)) as E.
  pose proof (Z.mod_pos_bound a b Hb) as B.
  destruct (a mod b =? 0) eqn:Hz.
  - apply Z.eqb_eq in Hz. lia.
  - nia.
Qed.

Lemma ceil_div_pos a b : 0 < b -> 0 < a -> 1 <= ceil_div a b.
Proof.
  intros Hb Ha. unfold ceil_div.
  pose proof (Z.div_pos a b ltac:(lia) Hb).
  destruct (a mod b =? 0) eqn:Hz; [|lia].
  apply Z.eqb_eq in Hz.
  pose proof (Z.div_mod a b ltac:(lia)). nia.
Qed.

Lemma ceil_div_le a b : 0 < b -> 0 <= a -> ceil_div a b <= a / b + 1.
Proof. intros. unfold ceil_div. destruct (a mod b =? 0); lia. Qed.

(** Whenever the [size_t] sum does not wrap, the unit count is the
    mathematical one. *)
Lemma nunits_of_exact HSZ SZB nbytes :
  8 <= HSZ -> 32 <= SZB ->
  0 <= nbytes < 2 ^ 32 -> nbytes + HSZ < 2 ^ SZB ->
  nunits_of HSZ SZB nbytes = ceil_div nbytes HSZ + 1.
Proof.
  intros HH HS Hn Hw. unfold nunits_of.
  assert (P32 : 2 ^ 32 <= 2 ^ SZB) by (apply Z.pow_le_mono_r; lia).
  rewrite (wrap_small SZB (nbytes + HSZ)) by lia.
  rewrite (wrap_small SZB (nbytes + HSZ - 1)) by lia.
  rewrite ceil_div_spec by lia.
  assert (D0 : 0 <= (nbytes + HSZ - 1) / HSZ) by (apply Z.div_pos; lia).
  assert (D1 : (nbytes + HSZ - 1) / HSZ < 2 ^ 29 + 1).
  { apply Z.div_lt_upper_bound; [lia|].
    change (2 ^ 32) with 4294967296 in *. change (2 ^ 29) with 536870912. lia. }
  change (2 ^ 29) with 536870912 in D1.
  assert (P : 4294967296 <= 2 ^ SZB) by exact P32.
  rewrite wrap_small by lia. apply u32_small.
  change (2 ^ 32) with 4294967296. lia.
Qed.

(** * The scan of [free] *)

Section Scan.

Variable m : memory.
Variable bp : Z.

Lemma free_scan_unfold f p :
    free_scan (S f) m bp p =
    if scan_stop m bp p then Some p else free_scan f m bp (h_ptr (m p)).
  Proof.
    unfold scan_stop. simpl.
    destruct ((p <? bp) && (bp <? h_ptr (m p))); simpl; [reflexivity|].
    destruct ((h_ptr (m p) <=? p) && ((p <? bp) || (bp <? h_ptr (m p)))); reflexivity.
  Qed.

Lemma nth_node_succ k p : nth_node m (S k) p = h_ptr (m (nth_node m k p)).
  Proof.
    revert p. induction k as [|k IH]; intros p; [reflexivity|].
    change (nth_node m (S (S k)) p) with (nth_node m (S k) (h_ptr (m p))).
    rewrite IH. reflexivity.
  Qed.

  (** Fuel that is left over does not change the answer. *)
Lemma free_scan_mono f p q d :
    free_scan f m bp p = Some q -> free_scan (f + d) m bp p = Some q.
  Proof.
    revert p. induction f as [|f IH]; intros p H; [discriminate|].
    change (S f + d)%nat with (S (f + d)).
    rewrite free_scan_unfold in *.
    destruct (scan_stop m bp p); [assumption|]. now apply IH.
  Qed.

Lemma free_scan_none f p :
    free_scan f m bp p = None ->
    forall i, (i < f)%nat -> scan_stop m bp (nth_node m i p) = false.
  Proof.
    revert p. induction f as [|f IH]; intros p H i Hi; [lia|].
    rewrite free_scan_unfold in H.
    destruct (scan_stop m bp p) eqn:E; [discriminate|].
    destruct i as [|i]; [exact E|].
    simpl. apply IH; [assumption|lia].
  Qed.

Lemma free_scan_some f p q :
    free_scan f m bp p = Some q ->
    exists k, (k < f)%nat /\ q = nth_node m k p /\ scan_stop m bp q = true /\
              free_scan (S k) m bp p = Some q /\ free_scan k m bp p = None.
  Proof.
    revert p. induction f as [|f IH]; intros p H; [discriminate|].
    rewrite free_scan_unfold in H.
    destruct (scan_stop m bp p) eqn:E.
    - injection H as <-. exists 0%nat. repeat split; try lia; try assumption.
      rewrite free_scan_unfold, E. reflexivity.
    - destruct (IH _ H) as (k & Hk & Hq & Hs & Hf & Hnone).
      exists (S k). repeat split; try lia; try assumption.
      + rewrite free_scan_unfold, E. exact Hf.
      + rewrite free_scan_unfold, E. exact Hnone.
  Qed.

  (** A node at which the scan goes on, in terms of addresses. *)
Lemma scan_stop_false p :
    scan_stop m bp p = false ->
    ~ (p < bp /\ bp < h_ptr (m p)) /\
    ~ (h_ptr (m p) <= p /\ (p < bp \/ bp < h_ptr (m p))).
  Proof.
    unfold scan_stop. intros H.
    apply orb_false_iff in H. destruct H as [H1 H2].
    split; intros C.
    - destruct C as [C1 C2]. apply Z.ltb_lt in C1, C2. rewrite C1, C2 in H1. discriminate.
    - destruct C as [C1 C2]. apply Z.leb_le in C1. rewrite C1 in H2. simpl in H2.
      destruct C2 as [C2|C2]; apply Z.ltb_lt in C2; rewrite C2 in H2;
        [discriminate|rewrite orb_true_r in H2; discriminate].
  Qed.

Lemma scan_stop_true p :
    scan_stop m bp p = true ->
    (p < bp /\ bp < h_ptr (m p)) \/
    (h_ptr (m p) <= p /\ (p < bp \/ bp < h_ptr (m p))).
  Proof.
    unfold scan_stop. intros H.
    apply orb_true_iff in H. destruct H as [H|H];
      apply andb_true_iff in H; destruct H as [H1 H2].
    - left. split; now apply Z.ltb_lt.
    - right. split; [now apply Z.leb_le|].
      apply orb_true_iff in H2. destruct H2 as [H2|H2]; [left|right]; now apply Z.ltb_lt.
  Qed.

  (** Along nodes at which the scan goes on, a node below [bp] is
      followed by higher nodes that are still below [bp]. *)
Lemma below_propagates p n :
    (forall i, (i < n)%nat -> scan_stop m bp (nth_node m i p) = false) ->
    (forall i, (i <= n)%nat -> nth_node m i p <> bp) ->
    forall d i, (i + d <= n)%nat -> nth_node m i p < bp ->
      nth_node m (i + d) p < bp /\ nth_node m i p + Z.of_nat d <= nth_node m (i + d) p.
  Proof.
    intros Hns Hne. induction d as [|d IH]; intros i Hi Hlt.
    - rewrite Nat.add_0_r. lia.
    - destruct (IH i ltac:(lia) Hlt) as [I1 I2].
      replace (i + S d)%nat with (S (i + d)) by lia.
      rewrite nth_node_succ.
      pose proof (scan_stop_false _ (Hns (i + d)%nat ltac:(lia))) as [N1 N2].
      pose proof (Hne (S (i + d)) ltac:(lia)) as N3. rewrite nth_node_succ in N3.
      lia.
  Qed.

Lemma above_propagates p n :
    (forall i, (i < n)%nat -> scan_stop m bp (nth_node m i p) = false) ->
    (forall i, (i <= n)%nat -> bp < nth_node m i p) ->
    forall d, (d <= n)%nat -> p + Z.of_nat d <= nth_node m d p.
  Proof.
    intros Hns Hab. induction d as [|d IH]; intros Hd.
    - simpl. lia.
    - rewrite nth_node_succ.
      pose proof (scan_stop_false _ (Hns d ltac:(lia))) as [N1 N2].
      pose proof (Hab (S d) ltac:(lia)) as N3. rewrite nth_node_succ in N3.
      specialize (IH ltac:(lia)). lia.
  Qed.

  (** On a circular chain of [n] nodes that does not contain [bp], the
      scan cannot pass all [n] nodes. *)
Lemma scan_stops_in_cycle p n :
    (0 < n)%nat -> nth_node m n p = p ->
    (forall i, (i < n)%nat -> nth_node m i p <> bp) ->
    (forall i, (i < n)%nat -> scan_stop m bp (nth_node m i p) = false) ->
    False.
  Proof.
    intros Hn Hc Hne Hns.
    assert (Hne' : forall i, (i <= n)%nat -> nth_node m i p <> bp).
    { intros i Hi. destruct (Nat.eq_dec i n) as [->|]; [|apply Hne; lia].
      rewrite Hc. apply (Hne 0%nat Hn). }
    assert (Hdec : forall k, (k <= n)%nat ->
              (forall i, (i <= k)%nat -> bp < nth_node m i p) \/
              (exists i, (i <= k)%nat /\ nth_node m i p < bp)).
    { induction k as [|k IH]; intros Hk.
      - pose proof (Hne' 0%nat ltac:(lia)) as N. simpl in N.
        destruct (Z_lt_ge_dec p bp) as [L|G].
        + right. exists 0%nat. split; [lia|exact L].
        + left. intros i Hi. replace i with 0%nat by lia. simpl. lia.
      - destruct (IH ltac:(lia)) as [Hall|(i & Hi & Hlt)].
        + pose proof (Hne' (S k) Hk) as N.
          destruct (Z_lt_ge_dec (nth_node m (S k) p) bp) as [L|G].
          * right. exists (S k). split; [lia|exact L].
          * left. intros i Hi. destruct (Nat.eq_dec i (S k)) as [->|]; [lia|].
            apply Hall. lia.
        + right. exists i. split; [lia|exact Hlt]. }
    destruct (Hdec n (Nat.le_refl n)) as [Hall|(i & Hi & Hlt)].
    - pose proof (above_propagates p n Hns Hall n (Nat.le_refl n)) as A.
      rewrite Hc in A. lia.
    - destruct (below_propagates p n Hns Hne' (n - i)%nat i ltac:(lia) Hlt) as [B _].
      replace (i + (n - i))%nat with n in B by lia. rewrite Hc in B.
      destruct (below_propagates p n Hns Hne' n 0%nat ltac:(lia) B) as [_ C].
      simpl in C. rewrite Hc in C. lia.
  Qed.

End Scan.

(** * List segments, gaps and frames *)

Section Segments.

Variable HSZ : Z.
Hypothesis HSZ_pos : 0 < HSZ.

Lemma lseg_app m x L1 L2 y :
    lseg m x (L1 ++ L2) y <-> exists z, lseg m x L1 z /\ lseg m z L2 y.
  Proof.
    revert x. induction L1 as [|b L1 IH]; intros x; simpl.
    - split.
      + intros H. exists x. split; [reflexivity|assumption].
      + intros (z & -> & H). assumption.
    - split.
      + intros (Hx & Hs & H). apply IH in H. destruct H as (z & H1 & H2).
        exists z. repeat split; assumption.
      + intros (z & (Hx & Hs & H1) & H2). repeat split; try assumption.
        apply IH. exists z. split; assumption.
  Qed.

Lemma lseg_frame m m' x L y :
    (forall b, In b L -> m' (fst b) = m (fst b)) ->
    lseg m x L y -> lseg m' x L y.
  Proof.
    revert x. induction L as [|b L IH]; intros x Hf H; simpl in *; [assumption|].
    destruct H as (Hx & Hs & H). subst x.
    rewrite (Hf b (or_introl eq_refl)).
    repeat split; try assumption.
    apply IH; [|assumption]. intros c Hc. apply Hf. now right.
  Qed.

Lemma lseg_first m x b L y : lseg m x (b :: L) y -> x = fst b.
  Proof. simpl. tauto. Qed.

Lemma gaps_app x L1 L2 :
    gaps HSZ x (L1 ++ L2) <-> gaps HSZ x L1 /\ gaps HSZ (last_end HSZ x L1) L2.
  Proof.
    revert x. induction L1 as [|b L1 IH]; intros x; simpl.
    - tauto.
    - rewrite IH. tauto.
  Qed.

Lemma gaps_above x L :
    Forall (fun b => 0 <= snd b) L -> gaps HSZ x L -> Forall (fun b => x < fst b) L.
  Proof.
    revert x. induction L as [|b L IH]; intros x Hs Hg; constructor.
    - simpl in Hg. tauto.
    - inversion Hs as [|? ? Hb Hs']; subst. simpl in Hg. destruct Hg as [Hg1 Hg2].
      specialize (IH _ Hs' Hg2).
      eapply Forall_impl; [|exact IH]. simpl. intros c Hc.
      unfold blk_end in Hc. nia.
  Qed.

Lemma last_end_ge x L :
    Forall (fun b => 0 <= snd b) L -> gaps HSZ x L -> x <= last_end HSZ x L.
  Proof.
    revert x. induction L as [|b L IH]; intros x Hs Hg; simpl; [lia|].
    inversion Hs as [|? ? Hb Hs']; subst. simpl in Hg. destruct Hg as [Hg1 Hg2].
    specialize (IH _ Hs' Hg2). unfold blk_end in *. nia.
  Qed.

Lemma last_end_app x L1 L2 : last_end HSZ x (L1 ++ L2) = last_end HSZ (last_end HSZ x L1) L2.
  Proof. revert x. induction L1 as [|b L1 IH]; intros x; simpl; [reflexivity|apply IH]. Qed.

  (** Under [gaps], every block ends at or below the end of the list. *)
Lemma gaps_end_le x L :
    Forall (fun b => 0 <= snd b) L -> gaps HSZ x L ->
    Forall (fun b => blk_end HSZ b <= last_end HSZ x L) L.
  Proof.
    revert x. induction L as [|b L IH]; intros x Hs Hg; constructor.
    - simpl. inversion Hs; subst. simpl in Hg.
      apply last_end_ge; tauto.
    - simpl. inversion Hs; subst. simpl in Hg. apply IH; tauto.
  Qed.

End Segments.

(** * Where the scan of [free] stops on a well-formed list *)

Section ScanList.

Variable HSZ : Z.
Hypothesis HSZ_pos : 0 < HSZ.
Variable m : memory.
Variable bp : Z.

Lemma scan_skip seg : forall x y f,
    lseg m x seg y ->
    (forall b, In b seg -> scan_stop m bp (fst b) = false) ->
    free_scan (length seg + f) m bp x = free_scan f m bp y.
  Proof.
    induction seg as [|b seg IH]; intros x y f Hl Hn; simpl in Hl.
    - subst. reflexivity.
    - destruct Hl as (-> & Hs & Hl).
      change (length (b :: seg) + f)%nat with (S (length seg + f)).
      rewrite free_scan_unfold, (Hn b (or_introl eq_refl)).
      apply IH; [assumption|]. intros c Hc. apply Hn. now right.
  Qed.

  (** In a gapped segment, a node's successor is a higher node of the
      segment or the segment's exit. *)
Lemma seg_next_cases seg : forall x y g,
    lseg m x seg y -> Forall (fun b => 0 <= snd b) seg -> gaps HSZ g seg ->
    forall c, In c seg -> fst c < h_ptr (m (fst c)) \/ h_ptr (m (fst c)) = y.
  Proof.
    induction seg as [|b seg IH]; intros x y g Hl Hs Hg c Hc; [destruct Hc|].
    simpl in Hl. destruct Hl as (-> & Hsz & Hl).
    inversion Hs as [|? ? Hb Hs']; subst. simpl in Hg. destruct Hg as [Hg1 Hg2].
    destruct Hc as [<-|Hc].
    - destruct seg as [|d seg]; simpl in Hl.
      + now right.
      + destruct Hl as (E & _). left. rewrite E. simpl in Hg2.
        unfold blk_end in Hg2. nia.
    - eapply IH; eassumption.
  Qed.

Lemma seg_next_bounds seg : forall x y sy g,
    lseg m x seg y -> Forall (fun b => 0 <= snd b) seg ->
    gaps HSZ g (seg ++ [(y, sy)]) ->
    forall c, In c seg -> g < fst c /\ fst c < h_ptr (m (fst c)) /\ h_ptr (m (fst c)) <= y.
  Proof.
    induction seg as [|b seg IH]; intros x y sy g Hl Hs Hg c Hc; [destruct Hc|].
    simpl in Hl. destruct Hl as (-> & Hsz & Hl).
    inversion Hs as [|? ? Hb Hs']; subst. simpl in Hg. destruct Hg as [Hg1 Hg2].
    assert (Hbe : fst b <= blk_end HSZ b) by (unfold blk_end; nia).
    destruct seg as [|d seg].
    - simpl in Hl, Hg2. destruct Hc as [<-|[]]. rewrite Hl. simpl in *. lia.
    - pose proof (IH _ _ _ _ Hl Hs' Hg2) as IH'.
      destruct (IH' d (or_introl eq_refl)) as (D1 & D2 & D3).
      simpl in Hl. destruct Hl as (E & _).
      destruct Hc as [<-|Hc].
      + rewrite E. lia.
      + destruct (IH' c Hc) as (C1 & C2 & C3). lia.
  Qed.

Lemma stop_false_below a y :
    a < h_ptr (m a) -> h_ptr (m a) <= y -> y < bp ->
    scan_stop m bp a = false.
  Proof.
    intros H1 H2 H3. unfold scan_stop.
    replace (bp <? h_ptr (m a)) with false by (symmetry; apply Z.ltb_ge; lia).
    replace (h_ptr (m a) <=? a) with false by (symmetry; apply Z.leb_gt; lia).
    now rewrite andb_false_r.
  Qed.

Lemma stop_false_above a y :
    bp < a -> y < bp ->
    a < h_ptr (m a) \/ h_ptr (m a) = y ->
    scan_stop m bp a = false.
  Proof.
    intros H1 H2 H3. unfold scan_stop.
    replace (a <? bp) with false by (symmetry; apply Z.ltb_ge; lia).
    simpl. destruct H3 as [H3|H3].
    - replace (h_ptr (m a) <=? a) with false by (symmetry; apply Z.leb_gt; lia).
      reflexivity.
    - replace (bp <? h_ptr (m a)) with false by (symmetry; apply Z.ltb_ge; lia).
      now rewrite andb_false_r.
  Qed.

Lemma in_map_fst_split (a : Z) (L : list block) :
    In a (map fst L) -> exists L1 s L2, L = L1 ++ (a, s) :: L2.
  Proof.
    intros H. apply in_map_iff in H. destruct H as ([a' s] & E & H). simpl in E. subst a'.
    apply in_split in H. destruct H as (L1 & L2 & ->). now exists L1, s, L2.
  Qed.

  (** The list is [Fp ++ (pa, ps) :: L2] starting at [base]; [pa] is
      below [bp] and the blocks of [L2] are above it. *)
Variable base : Z.
Variables (Fp L2 : list block) (pa ps : Z).
Hypothesis Hseg : lseg m base (Fp ++ (pa, ps) :: L2) base.
Hypothesis Hsz : Forall (fun b => 0 <= snd b) (Fp ++ (pa, ps) :: L2).
Hypothesis Hgap : gaps HSZ (base - 1) (Fp ++ (pa, ps) :: L2).
Hypothesis Hpa : pa < bp.
Hypothesis Hbase : base < bp.
Hypothesis HL2 : Forall (fun b => bp < fst b) L2.

Lemma split_facts :
    lseg m base Fp pa /\ h_size (m pa) = ps /\ lseg m (h_ptr (m pa)) L2 base /\
    Forall (fun b => 0 <= snd b) Fp /\ 0 <= ps /\ Forall (fun b => 0 <= snd b) L2 /\
    gaps HSZ (base - 1) (Fp ++ [(pa, ps)]) /\ gaps HSZ (pa + ps * HSZ) L2 /\
    base <= pa.
  Proof.
    pose proof Hseg as H0. apply lseg_app in H0. destruct H0 as (z & H1 & H2).
    simpl in H2. destruct H2 as (Ez & H2 & H3). rewrite Ez in *. clear Ez z.
    pose proof Hsz as S0. apply Forall_app in S0. destruct S0 as [S1 S2].
    apply Forall_cons_iff in S2. destruct S2 as [S3 S4]. simpl in S3.
    assert (G := Hgap).
    change (Fp ++ (pa, ps) :: L2) with (Fp ++ [(pa, ps)] ++ L2) in G.
    rewrite app_assoc in G. apply gaps_app in G. destruct G as [G1 G2].
    rewrite last_end_app in G2. simpl in G2.
    repeat split; try assumption.
    destruct Fp as [|b F].
    - simpl in H1. lia.
    - destruct (seg_next_bounds _ _ _ _ _ H1 S1 G1 b (or_introl eq_refl)) as (_ & B2 & B3).
      simpl in H1. destruct H1 as (E & _). lia.
  Qed.

Lemma stop_at_pa : scan_stop m bp pa = true.
  Proof.
    destruct split_facts as (_ & _ & H3 & _ & _ & _ & _ & _ & Hb).
    unfold scan_stop.
    replace (pa <? bp) with true by (symmetry; apply Z.ltb_lt; lia).
    destruct L2 as [|c G]; simpl in H3.
    - rewrite H3.
      replace (base <=? pa) with true by (symmetry; apply Z.leb_le; lia).
      now rewrite orb_true_r.
    - destruct H3 as (E & _). rewrite E.
      apply Forall_cons_iff in HL2. destruct HL2 as [Hc _].
      replace (bp <? fst c) with true by (symmetry; apply Z.ltb_lt; lia).
      reflexivity.
  Qed.

Lemma scan_from_low a :
    In a (map fst (Fp ++ [(pa, ps)])) ->
    free_scan (length Fp + 1) m bp a = Some pa.
  Proof.
    destruct split_facts as (H1 & _ & _ & S1 & _ & _ & G1 & _ & _).
    intros Hin. rewrite map_app in Hin. apply in_app_or in Hin.
    destruct Hin as [Hin|[<-|[]]].
    - apply in_map_fst_split in Hin. destruct Hin as (F1 & s & F2 & E).
      assert (Hl : lseg m a ((a, s) :: F2) pa).
      { rewrite E in H1. apply lseg_app in H1. destruct H1 as (z & _ & H1).
        pose proof (lseg_first _ _ _ _ _ H1) as Ez. simpl in Ez. now subst z. }
      assert (Hn : forall b, In b ((a, s) :: F2) -> scan_stop m bp (fst b) = false).
      { intros b Hb.
        assert (Hb' : In b Fp) by (rewrite E; apply in_or_app; now right).
        destruct (seg_next_bounds _ _ _ _ _ H1 S1 G1 b Hb') as (_ & B2 & B3).
        eapply stop_false_below; eassumption. }
      pose proof (scan_skip _ _ _ 1%nat Hl Hn) as Hk.
      rewrite (free_scan_unfold m bp 0 pa), stop_at_pa in Hk.
      match goal with
      | |- free_scan ?n _ _ _ = _ =>
          replace n with ((length ((a, s) :: F2) + 1) + length F1)%nat
      end.
      + apply free_scan_mono. exact Hk.
      + rewrite E, length_app. simpl. lia.
    - simpl. replace (length Fp + 1)%nat with (1 + length Fp)%nat by lia.
      apply free_scan_mono. rewrite free_scan_unfold, stop_at_pa. reflexivity.
  Qed.

Lemma base_is_low : In base (map fst (Fp ++ [(pa, ps)])).
  Proof.
    destruct split_facts as (H1 & _).
    destruct Fp as [|b F]; simpl in *.
    - left. symmetry. exact H1.
    - left. symmetry. tauto.
  Qed.

  (** Wherever the cursor is on the list, the scan stops at [pa], having
      visited no node twice. *)
Lemma scan_from_any a :
    In a (map fst (Fp ++ (pa, ps) :: L2)) ->
    free_scan (length (Fp ++ (pa, ps) :: L2)) m bp a = Some pa.
  Proof.
    destruct split_facts as (_ & _ & H3 & _ & Hps & S2 & _ & G2 & Hb).
    intros Hin.
    change (Fp ++ (pa, ps) :: L2) with (Fp ++ [(pa, ps)] ++ L2) in Hin |- *.
    rewrite app_assoc in Hin |- *. rewrite map_app in Hin. apply in_app_or in Hin.
    rewrite length_app.
    destruct Hin as [Hin|Hin].
    - apply free_scan_mono. rewrite length_app. simpl. now apply scan_from_low.
    - apply in_map_fst_split in Hin. destruct Hin as (G1 & s & G3 & E).
      assert (Hl : lseg m a ((a, s) :: G3) base).
      { rewrite E in H3. apply lseg_app in H3. destruct H3 as (z & _ & H3).
        pose proof (lseg_first _ _ _ _ _ H3) as Ez. simpl in Ez. now subst z. }
      assert (Hn : forall b, In b ((a, s) :: G3) -> scan_stop m bp (fst b) = false).
      { intros b Hb'.
        assert (Hb2 : In b L2) by (rewrite E; apply in_or_app; now right).
        rewrite Forall_forall in HL2.
        apply stop_false_above with (y := base); [now apply HL2|lia|].
        exact (seg_next_cases _ _ _ _ H3 S2 G2 b Hb2). }
      pose proof (scan_skip _ _ _ (length Fp + 1) Hl Hn) as Hk.
      rewrite (scan_from_low base base_is_low) in Hk.
      match goal with
      | |- free_scan ?n _ _ _ = _ =>
          replace n with ((length ((a, s) :: G3) + (length Fp + 1)) + length G1)%nat
      end.
      + apply free_scan_mono. exact Hk.
      + rewrite E, !length_app. simpl. lia.
  Qed.

End ScanList.

(** * The merges of [free] *)

Lemma mul_lt_cancel (a b h : Z) : 0 < h -> a * h < b * h -> a < b.
Proof. intros. nia. Qed.

Lemma free_link_mem HSZ st bp p :
  mem (free_link HSZ st bp p) = bwd_mem HSZ (fwd_mem HSZ (mem st) bp p) bp p.
Proof. reflexivity. Qed.

(** The outcome of the forward merge: the block at [bp] now has size
    [s1] and is followed by [L2']. *)
Lemma fwd_spec HSZ base m Fp pa ps L2 bp s lo hi :
  0 < HSZ ->
  free_ctx HSZ base m Fp pa ps L2 bp s lo hi ->
  exists s1 L2',
    lseg (fwd_mem HSZ m bp pa) bp ((bp, s1) :: L2') base /\
    (forall x, x <> bp -> fwd_mem HSZ m bp pa x = m x) /\
    fwd_shape HSZ L2 bp s s1 L2'.
Proof.
  intros HSZ_pos C. unfold fwd_shape.
  pose proof (split_facts HSZ HSZ_pos m base Fp L2 pa ps (fc_seg _ _ _ _ _ _ _ _ _ _ _ C)
                (fc_sz _ _ _ _ _ _ _ _ _ _ _ C) (fc_gap _ _ _ _ _ _ _ _ _ _ _ C)) as F.
  destruct F as (_ & _ & H3 & _ & _ & S2 & _ & G2 & Hb).
  destruct C as [_ _ _ Hpa HL2 Hs Hbs Hpa_end HL2_dis Hlo Hpa_lo Hhi HL2_hi Hcap].
  unfold fwd_mem. rewrite Hbs.
  destruct L2 as [|[c sc] G].
  - cbn [lseg] in H3. rewrite H3.
    replace (bp + s * HSZ =? base) with false by (symmetry; apply Z.eqb_neq; nia).
    exists s, []. split; [|split].
    + cbn [lseg fst snd]. rewrite h_size_set_ptr, h_ptr_set_ptr_same. auto.
    + intros x Hx. now apply set_ptr_other.
    + left. repeat split; constructor.
  - cbn [lseg fst snd] in H3. destruct H3 as (E & Hsc & Hl). rewrite E in *.
    assert (Hc : bp < c) by (apply Forall_cons_iff in HL2; simpl in HL2; tauto).
    apply Forall_cons_iff in S2. destruct S2 as [S3 S4]. simpl in S3.
    assert (HG : Forall (fun b => c < fst b) G).
    { cbn [gaps] in G2. destruct G2 as [_ G2].
      pose proof (gaps_above HSZ HSZ_pos _ _ S4 G2) as A.
      eapply Forall_impl; [|exact A]. simpl. unfold blk_end. simpl. intros. nia. }
    assert (Hfr : forall m', (forall x, x <> bp -> m' x = m x) ->
                       lseg m' (h_ptr (m c)) G base).
    { intros m' Hm'. eapply lseg_frame; [|exact Hl].
      intros b Hb'. apply Hm'. rewrite Forall_forall in HG. specialize (HG b Hb'). lia. }
    destruct (Z.eqb_spec (bp + s * HSZ) c) as [Eq|Ne].
    + cbv zeta. rewrite !h_ptr_set_size, ?E, Hsc.
      assert (Hsum : 0 <= s + sc < 2 ^ 32).
      { split; [lia|]. apply Forall_cons_iff in HL2_hi. destruct HL2_hi as [Hh _].
        unfold blk_end in Hh. simpl in Hh.
        apply mul_lt_cancel with (h := HSZ); [assumption|]. nia. }
      rewrite (u32_small _ Hsum).
      assert (Hm' : forall x, x <> bp ->
                set_ptr (set_size m bp (s + sc)) bp (h_ptr (m c)) x = m x).
      { intros x Hx. rewrite set_ptr_other, set_size_other; auto. }
      exists (s + sc), G. split; [|split].
      * cbn [lseg fst snd].
        rewrite h_size_set_ptr, h_size_set_size_same, h_ptr_set_ptr_same.
        repeat split. now apply Hfr.
      * exact Hm'.
      * right. exists sc. rewrite Eq. auto.
    + assert (Hm' : forall x, x <> bp -> set_ptr m bp c x = m x).
      { intros x Hx. now apply set_ptr_other. }
      exists s, ((c, sc) :: G). split; [|split].
      * cbn [lseg fst snd]. rewrite h_size_set_ptr, h_ptr_set_ptr_same.
        rewrite !set_ptr_other by lia.
        repeat split; try assumption. now apply Hfr.
      * exact Hm'.
      * left. repeat split.
        apply Forall_cons_iff in HL2_dis. destruct HL2_dis as [D1 D2]. simpl in D1.
        constructor; [simpl; lia|].
        eapply Forall_impl; [|exact HG]. simpl. intros. lia.
Qed.

Lemma free_link_spec HSZ base m Fp pa ps L2 bp s lo hi :
  0 < HSZ ->
  free_ctx HSZ base m Fp pa ps L2 bp s lo hi ->
  exists s1 L2' X,
    lseg (bwd_mem HSZ (fwd_mem HSZ m bp pa) bp pa) base (Fp ++ X ++ L2') base /\
    (forall x, x <> bp -> x <> pa -> bwd_mem HSZ (fwd_mem HSZ m bp pa) bp pa x = m x) /\
    fwd_shape HSZ L2 bp s s1 L2' /\
    bwd_shape HSZ pa ps bp s1 lo X.
Proof.
  intros HSZ_pos C.
  destruct (fwd_spec _ _ _ _ _ _ _ _ _ _ _ HSZ_pos C) as (s1 & L2' & Hl1 & Hm1 & R1).
  pose proof (split_facts HSZ HSZ_pos m base Fp L2 pa ps (fc_seg _ _ _ _ _ _ _ _ _ _ _ C)
                (fc_sz _ _ _ _ _ _ _ _ _ _ _ C) (fc_gap _ _ _ _ _ _ _ _ _ _ _ C)) as F.
  destruct F as (H1 & H2 & H3 & S1 & Hps & S2 & G1 & G2 & Hb).
  destruct C as [_ _ _ Hpa HL2 Hs Hbs Hpa_end HL2_dis Hlo Hpa_lo Hhi HL2_hi Hcap].
  set (m1 := fwd_mem HSZ m bp pa) in *.
  exists s1, L2'.
  cbn [lseg fst snd] in Hl1. destruct Hl1 as (_ & Hs1 & Hl1).
  assert (Hpa1 : h_size (m1 pa) = ps) by (rewrite Hm1 by lia; exact H2).
  (* addresses of [Fp] are below [pa]; those of [L2'] are above [bp] *)
  assert (HFp : forall b, In b Fp -> fst b < pa).
  { intros b Hb'.
    destruct (seg_next_bounds HSZ HSZ_pos m _ _ _ _ _ H1 S1 G1 b Hb') as (_ & B2 & B3). lia. }
  assert (HL2' : forall b, In b L2' -> bp < fst b).
  { intros b Hb'. rewrite Forall_forall in HL2. apply HL2.
    destruct R1 as [(_ & -> & _)|(sc & -> & _)]; [assumption|now right]. }
  assert (Hend : bp + s1 * HSZ <= hi).
  { destruct R1 as [(-> & _)|(sc & -> & -> & _)]; [assumption|].
    apply Forall_cons_iff in HL2_hi. destruct HL2_hi as [Hh _].
    unfold blk_end in Hh. simpl in Hh. lia. }
  assert (Hs1' : s <= s1) by (destruct R1 as [(-> & _)|(sc & _ & -> & ?)]; lia).
  unfold bwd_mem. rewrite Hpa1, Hs1.
  destruct (Z.eqb_spec (pa + ps * HSZ) bp) as [Eq|Ne].
  - assert (Hpl : lo <= pa) by (destruct Hpa_lo as [Z0|]; [subst ps; lia|assumption]).
    assert (Hsum : 0 <= ps + s1 < 2 ^ 32).
    { split; [lia|]. apply mul_lt_cancel with (h := HSZ); [assumption|]. nia. }
    cbv zeta. rewrite (u32_small _ Hsum), h_ptr_set_size.
    set (m2 := set_ptr (set_size m1 pa (ps + s1)) pa (h_ptr (m1 bp))).
    assert (Hm2 : forall x, x <> pa -> m2 x = m1 x).
    { intros x Hx. unfold m2. rewrite set_ptr_other, set_size_other; auto. }
    exists [(pa, ps + s1)]. split; [|split; [|split]].
    + apply lseg_app. exists pa. split.
      * eapply lseg_frame; [|exact H1]. intros b Hb'. specialize (HFp b Hb').
        rewrite Hm2, Hm1 by lia. reflexivity.
      * assert (E1 : h_size (m2 pa) = ps + s1).
        { unfold m2. now rewrite h_size_set_ptr, h_size_set_size_same. }
        assert (E2 : h_ptr (m2 pa) = h_ptr (m1 bp)).
        { unfold m2. now rewrite h_ptr_set_ptr_same. }
        cbn [app lseg fst snd]. rewrite E1, E2.
        repeat split. eapply lseg_frame; [|exact Hl1].
        intros b Hb'. specialize (HL2' b Hb'). apply Hm2. lia.
    + intros x Hx1 Hx2. rewrite Hm2, Hm1; auto.
    + exact R1.
    + right. auto.
  - set (m2 := set_ptr m1 pa bp).
    assert (Hm2 : forall x, x <> pa -> m2 x = m1 x).
    { intros x Hx. unfold m2. now rewrite set_ptr_other. }
    exists [(pa, ps); (bp, s1)]. split; [|split; [|split]].
    + apply lseg_app. exists pa. split.
      * eapply lseg_frame; [|exact H1]. intros b Hb'. specialize (HFp b Hb').
        rewrite Hm2, Hm1 by lia. reflexivity.
      * assert (E1 : h_size (m2 pa) = ps).
        { unfold m2. now rewrite h_size_set_ptr. }
        assert (E2 : h_ptr (m2 pa) = bp).
        { unfold m2. now rewrite h_ptr_set_ptr_same. }
        cbn [app lseg fst snd]. rewrite E1, E2.
        rewrite !Hm2 by lia.
        repeat split; try assumption. eapply lseg_frame; [|exact Hl1].
        intros b Hb'. specialize (HL2' b Hb'). apply Hm2. lia.
    + intros x Hx1 Hx2. rewrite Hm2, Hm1; auto.
    + exact R1.
    + left. split; [reflexivity|lia].
Qed.

(** ** Consequences of the two shapes *)

Section Shapes.

Variable HSZ : Z.
Hypothesis HSZ_pos : 0 < HSZ.

Lemma gaps_head_change x x' L :
    gaps HSZ x L -> (forall b, In b L -> x' < fst b) -> gaps HSZ x' L.
  Proof.
    destruct L as [|b L]; cbn [gaps]; [tauto|].
    intros [_ H] Hx. split; [apply Hx; now left|assumption].
  Qed.

Lemma fwd_shape_gaps x L2 bp s s1 L2' :
    gaps HSZ x L2 -> fwd_shape HSZ L2 bp s s1 L2' ->
    gaps HSZ (bp + s1 * HSZ) L2'.
  Proof.
    intros G [(-> & -> & Hf)|(sc & -> & -> & Hsc)].
    - eapply gaps_head_change; [exact G|]. rewrite Forall_forall in Hf. exact Hf.
    - cbn [gaps] in G. destruct G as [_ G]. unfold blk_end in G. cbn [fst snd] in G.
      replace (bp + (s + sc) * HSZ) with (bp + s * HSZ + sc * HSZ) by ring. exact G.
  Qed.

Lemma shapes_gaps x Fp pa ps L2 bp s s1 L2' lo X :
    gaps HSZ x (Fp ++ (pa, ps) :: L2) ->
    fwd_shape HSZ L2 bp s s1 L2' ->
    bwd_shape HSZ pa ps bp s1 lo X ->
    gaps HSZ x (Fp ++ X ++ L2').
  Proof.
    intros G R1 R2.
    apply gaps_app in G. destruct G as [G1 G2]. cbn [gaps] in G2. destruct G2 as [G2 G3].
    unfold blk_end in G3. cbn [fst snd] in G3.
    pose proof (fwd_shape_gaps _ _ _ _ _ _ G3 R1) as G4.
    apply gaps_app. split; [assumption|].
    destruct R2 as [(-> & Hlt)|(-> & Heq & _)]; cbn [app gaps]; unfold blk_end; cbn [fst snd].
    - repeat split; assumption.
    - split; [assumption|].
      replace (pa + (ps + s1) * HSZ) with (bp + s1 * HSZ) by (rewrite <- Heq; ring).
      exact G4.
  Qed.

Lemma shapes_stable (P : block -> Prop) Fp pa ps L2 bp s s1 L2' lo X :
    merge_stable HSZ P -> 0 <= s -> 0 <= ps ->
    P (bp, s) -> Forall P (Fp ++ (pa, ps) :: L2) ->
    fwd_shape HSZ L2 bp s s1 L2' ->
    bwd_shape HSZ pa ps bp s1 lo X ->
    Forall P (Fp ++ X ++ L2').
  Proof.
    intros HP Hs Hps Pb HF R1 R2.
    apply Forall_app in HF. destruct HF as [F1 F2].
    apply Forall_cons_iff in F2. destruct F2 as [F2 F3].
    assert (H1 : P (bp, s1) /\ Forall P L2' /\ 0 <= s1).
    { destruct R1 as [(-> & -> & _)|(sc & -> & -> & Hsc)].
      - auto.
      - apply Forall_cons_iff in F3. destruct F3 as [F3 F4].
        repeat split; [|assumption|lia]. apply HP; assumption. }
    destruct H1 as (Pb1 & F4 & Hs1).
    apply Forall_app. split; [assumption|].
    destruct R2 as [(-> & _)|(-> & Heq & _)]; cbn [app].
    - repeat constructor; assumption.
    - constructor; [|assumption]. apply HP; try assumption. now rewrite Heq.
  Qed.

Lemma shapes_covered pa ps L2 bp s s1 L2' lo X :
    0 <= ps ->
    fwd_shape HSZ L2 bp s s1 L2' ->
    bwd_shape HSZ pa ps bp s1 lo X ->
    exists c, In c X /\ fst c <= bp /\ bp + s * HSZ <= blk_end HSZ c.
  Proof.
    intros Hps R1 R2.
    assert (Hs1 : s <= s1) by (destruct R1 as [(-> & _)|(sc & _ & -> & ?)]; lia).
    destruct R2 as [(-> & _)|(-> & Heq & _)].
    - exists (bp, s1). split; [right; now left|]. unfold blk_end. cbn [fst snd]. nia.
    - exists (pa, ps + s1). split; [now left|]. unfold blk_end. cbn [fst snd]. nia.
  Qed.

Lemma shapes_head base L Fp pa ps L2 bp s1 L2' lo X :
    base < lo ->
    Fp ++ (pa, ps) :: L2 = (base, 0) :: L ->
    bwd_shape HSZ pa ps bp s1 lo X ->
    exists L', Fp ++ X ++ L2' = (base, 0) :: L'.
  Proof.
    intros Hb E R2. destruct Fp as [|b F]; cbn [app] in *.
    - injection E as -> -> _.
      destruct R2 as [(-> & _)|(-> & _ & Hc)]; [|lia].
      cbn [app]. eauto.
    - injection E as -> _. eauto.
  Qed.

Lemma shapes_pa pa ps bp s1 lo X : bwd_shape HSZ pa ps bp s1 lo X -> In pa (map fst X).
  Proof. intros [(-> & _)|(-> & _)]; now left. Qed.

End Shapes.

(** * Disjointness *)

Section Disjoint.

Variable HSZ : Z.
Hypothesis HSZ_pos : 0 < HSZ.

Lemma disj_sym b c : disj HSZ b c -> disj HSZ c b.
  Proof. unfold disj. tauto. Qed.

Lemma disj_neq b c : 0 < snd b -> 0 < snd c -> disj HSZ b c -> fst b <> fst c.
  Proof. unfold disj, blk_end. intros. nia. Qed.

Lemma disj_merge_stable a : 0 < snd a -> merge_stable HSZ (disj HSZ a).
  Proof.
    intros Ha x s1 s2 H1 H2. unfold disj, blk_end. cbn [fst snd]. intros. nia.
  Qed.

Lemma pairwise_disj_app A1 A2 :
    pairwise_disj HSZ (A1 ++ A2) <->
    pairwise_disj HSZ A1 /\ pairwise_disj HSZ A2 /\
    Forall (fun a => Forall (disj HSZ a) A2) A1.
  Proof.
    induction A1 as [|a A1 IH]; cbn [app pairwise_disj].
    - split; [intros; repeat split; auto|tauto].
    - rewrite IH, Forall_app, Forall_cons_iff. tauto.
  Qed.

Lemma pairwise_disj_remove A1 b A2 :
    pairwise_disj HSZ (A1 ++ b :: A2) ->
    pairwise_disj HSZ (A1 ++ A2) /\ Forall (fun a => disj HSZ a b) (A1 ++ A2).
  Proof.
    intros H. apply pairwise_disj_app in H. destruct H as (H1 & H2 & H3).
    cbn [pairwise_disj] in H2. destruct H2 as [H2 H4].
    split.
    - apply pairwise_disj_app. repeat split; try assumption.
      eapply Forall_impl; [|exact H3]. cbn beta. intros a Ha.
      apply Forall_cons_iff in Ha. tauto.
    - apply Forall_app. split.
      + eapply Forall_impl; [|exact H3]. cbn beta. intros a Ha.
        apply Forall_cons_iff in Ha. tauto.
      + eapply Forall_impl; [|exact H2]. cbn beta. intros a Ha. now apply disj_sym.
  Qed.

  (** A gapped list splits around an address that none of its blocks has. *)
Lemma split_at bp : forall L x,
    Forall (fun b => 0 <= snd b) L -> gaps HSZ x L ->
    Forall (fun b => fst b <> bp) L ->
    exists L1 L2, L = L1 ++ L2 /\
                  Forall (fun b => fst b < bp) L1 /\ Forall (fun b => bp < fst b) L2.
  Proof.
    induction L as [|b L IH]; intros x Hs Hg Hn.
    - exists [], []. repeat split; constructor.
    - apply Forall_cons_iff in Hs. destruct Hs as [Hs1 Hs2].
      apply Forall_cons_iff in Hn. destruct Hn as [Hn1 Hn2].
      cbn [gaps] in Hg. destruct Hg as [Hg1 Hg2].
      destruct (Z_lt_ge_dec (fst b) bp) as [Hlt|Hge].
      + destruct (IH _ Hs2 Hg2 Hn2) as (L1 & L2 & -> & H1 & H2).
        exists (b :: L1), L2. repeat split; [constructor|]; assumption.
      + exists [], (b :: L). repeat split; [constructor|].
        constructor; [lia|].
        pose proof (gaps_above HSZ HSZ_pos _ _ Hs2 Hg2) as Ha.
        eapply Forall_impl; [|exact Ha]. cbn beta. unfold blk_end. intros. nia.
  Qed.

End Disjoint.

(** * [free] preserves the invariant *)

Section FreeInv.

Variable HSZ : Z.
Hypothesis HSZ_pos : 0 < HSZ.
Variable base : Z.

Lemma in_heap_nonneg lo hi L :
    Forall (in_heap HSZ lo hi) L -> Forall (fun b => 0 <= snd b) L.
  Proof. apply Forall_impl. unfold in_heap. intros. lia. Qed.

Lemma inv_full_facts lo st L A :
    Inv HSZ base lo st L A ->
    Forall (fun b => 0 <= snd b) ((base, 0) :: L) /\
    gaps HSZ (base - 1) ((base, 0) :: L) /\
    Forall (fun b => base < fst b) L.
  Proof.
    intros I. destruct I.
    pose proof (in_heap_nonneg _ _ _ inv_free0) as Hn.
    split; [|split].
    - constructor; [simpl; lia|assumption].
    - cbn [gaps fst]. split; [lia|]. unfold blk_end. cbn [fst snd].
      replace (base + 0 * HSZ) with base by ring. assumption.
    - apply (gaps_above HSZ HSZ_pos); assumption.
  Qed.

  (** A live block sits between two neighbours of the free list. *)
Lemma inv_ctx lo st L A1 bp s A2 :
    Inv HSZ base lo st L (A1 ++ (bp, s) :: A2) ->
    exists Fp pa ps L2,
      (base, 0) :: L = Fp ++ (pa, ps) :: L2 /\
      free_ctx HSZ base (mem st) Fp pa ps L2 bp s lo (brk st).
  Proof.
    intros I. destruct (inv_full_facts _ _ _ _ I) as (Hn & Hg & Hab).
    destruct I.
    (* facts about the block itself *)
    apply Forall_app in inv_alloc0. destruct inv_alloc0 as [_ Ha].
    apply Forall_cons_iff in Ha. destruct Ha as [(Hb1 & Hb2 & Hb3 & Hb4) _].
    apply Forall_app in inv_asize0. destruct inv_asize0 as [_ Hz].
    apply Forall_cons_iff in Hz. destruct Hz as [Hz _].
    apply Forall_app in inv_fdisj0. destruct inv_fdisj0 as [_ Hd].
    apply Forall_cons_iff in Hd. destruct Hd as [Hd _].
    unfold blk_end in Hb4. cbn [fst snd] in *.
    (* split the free blocks around [bp] *)
    assert (Hne : Forall (fun b => fst b <> bp) L).
    { rewrite Forall_forall in *. intros b Hb. specialize (Hd b Hb).
      destruct (inv_free0 b Hb) as (_ & Hp & _).
      apply disj_neq in Hd; cbn [fst snd] in *; auto. }
    apply Forall_cons_iff in Hn. destruct Hn as [_ Hn].
    destruct (split_at HSZ HSZ_pos bp L base Hn inv_gaps0 Hne) as (L1 & L2 & E & Hlow & Hhigh).
    destruct (@exists_last _ ((base, 0) :: L1) ltac:(discriminate)) as (Fp & [pa ps] & EF).
    exists Fp, pa, ps, L2.
    assert (Efull : (base, 0) :: L = Fp ++ (pa, ps) :: L2).
    { rewrite E. change ((base, 0) :: L1 ++ L2) with (((base, 0) :: L1) ++ L2).
      rewrite EF, <- app_assoc. reflexivity. }
    split; [exact Efull|].
    assert (Hin : In (pa, ps) ((base, 0) :: L1)).
    { rewrite EF. apply in_or_app. right. now left. }
    assert (Hpa : (pa = base /\ ps = 0) \/ (In (pa, ps) L /\ pa < bp)).
    { destruct Hin as [Hin|Hin].
      - left. now injection Hin as <- <-.
      - right. split.
        + rewrite E. apply in_or_app. now left.
        + rewrite Forall_forall in Hlow. apply (Hlow _ Hin). }
    assert (HL2in : forall c, In c L2 -> In c L).
    { intros c Hc. rewrite E. apply in_or_app. now right. }
    rewrite Forall_forall in Hd, inv_free0, Hhigh.
    constructor.
    - rewrite <- Efull. exact inv_chain0.
    - rewrite <- Efull. constructor; [simpl; lia|assumption].
    - rewrite <- Efull. exact Hg.
    - destruct Hpa as [[-> ->]|[_ Hlt]]; lia.
    - rewrite Forall_forall. exact Hhigh.
    - exact Hb2.
    - exact Hz.
    - destruct Hpa as [[-> ->]|[Hi Hlt]]; [lia|].
      specialize (Hd _ Hi). destruct (inv_free0 _ Hi) as (_ & Hp & _).
      unfold disj, blk_end in Hd. cbn [fst snd] in *. nia.
    - rewrite Forall_forall. intros c Hc.
      specialize (Hd _ (HL2in _ Hc)). specialize (Hhigh _ Hc).
      destruct (inv_free0 _ (HL2in _ Hc)) as (_ & Hp & _).
      unfold disj, blk_end in Hd. cbn [fst snd] in *. nia.
    - exact Hb1.
    - destruct Hpa as [[-> ->]|[Hi Hlt]]; [now left|].
      right. destruct (inv_free0 _ Hi) as (Hp & _). exact Hp.
    - exact Hb4.
    - rewrite Forall_forall. intros c Hc.
      destruct (inv_free0 _ (HL2in _ Hc)) as (_ & _ & _ & Hp). exact Hp.
    - lia.
  Qed.

Lemma in_heap_merge_stable lo hi :
    base < lo ->
    merge_stable HSZ (fun b => b = (base, 0) \/ in_heap HSZ lo hi b).
  Proof.
    intros Hb a s1 s2 H1 H2 [E1|I1] [E2|I2].
    - injection E1 as -> ->. injection E2 as _ ->. now left.
    - injection E1 as -> ->. unfold in_heap in I2. cbn [fst snd] in I2. lia.
    - injection E2 as E2 ->. unfold in_heap in I1. cbn [fst snd] in I1. nia.
    - right. unfold in_heap, blk_end in *. cbn [fst snd] in *.
      repeat split; try lia.
  Qed.

(** [free] of a live block [(bp, s)] finds its place within one round of
    the list, keeps the invariant with the block no longer live, and
    leaves a free block that contains it. *)
Theorem free_inv lo st L A1 bp s A2 :
    Inv HSZ base lo st L (A1 ++ (bp, s) :: A2) ->
    exists L' pa,
      free HSZ (S (length L)) st (bp + HSZ) = Some (free_link HSZ st bp pa) /\
      Inv HSZ base lo (free_link HSZ st bp pa) L' (A1 ++ A2) /\
      (exists c, In c L' /\ fst c <= bp /\ bp + s * HSZ <= blk_end HSZ c) /\
      (exists Fp ps L2 s1 L2' X,
         (base, 0) :: L = Fp ++ (pa, ps) :: L2 /\
         (base, 0) :: L' = Fp ++ X ++ L2' /\
         free_ctx HSZ base (mem st) Fp pa ps L2 bp s lo (brk st) /\
         fwd_shape HSZ L2 bp s s1 L2' /\
         bwd_shape HSZ pa ps bp s1 lo X).
  Proof.
    intros I.
    destruct (inv_ctx _ _ _ _ _ _ _ I) as (Fp & pa & ps & L2 & Efull & C).
    destruct (inv_full_facts _ _ _ _ I) as (Hn & Hg & Hab).
    destruct (free_link_spec _ _ _ _ _ _ _ _ _ _ _ HSZ_pos C)
      as (s1 & L2' & X & Hl & Hm & R1 & R2).
    pose proof (split_facts HSZ HSZ_pos _ base Fp L2 pa ps (fc_seg _ _ _ _ _ _ _ _ _ _ _ C)
                  (fc_sz _ _ _ _ _ _ _ _ _ _ _ C) (fc_gap _ _ _ _ _ _ _ _ _ _ _ C)) as F.
    destruct F as (_ & _ & _ & _ & Hps & _ & _ & _ & Hbpa).
    pose proof (fc_pa _ _ _ _ _ _ _ _ _ _ _ C) as Hpa.
    pose proof (fc_s _ _ _ _ _ _ _ _ _ _ _ C) as Hs.
    destruct I.
    destruct (shapes_head HSZ base L Fp pa ps L2 bp s1 L2' lo X ltac:(lia) (eq_sym Efull) R2)
      as (L' & EL').
    exists L', pa.
    (* the scan *)
    assert (Hscan : free_scan (S (length L)) (mem st) bp (freep st) = Some pa).
    { change (S (length L)) with (length ((base, 0) :: L)). rewrite Efull.
      apply (scan_from_any HSZ HSZ_pos (mem st) bp base Fp L2 pa ps);
        try (destruct C; assumption); try lia.
      rewrite <- Efull. exact inv_freep0. }
    split.
    { unfold free. replace (bp + HSZ - HSZ) with bp by ring. now rewrite Hscan. }
    (* facts about the live blocks *)
    destruct (pairwise_disj_remove HSZ _ _ _ inv_adisj0) as (Hadisj & Hbdisj).
    assert (HA : forall a, In a (A1 ++ A2) -> In a (A1 ++ (bp, s) :: A2)).
    { intros a Ha. apply in_app_or in Ha. apply in_or_app.
      destruct Ha; [now left|right; now right]. }
    rewrite Forall_forall in inv_alloc0, inv_asize0, inv_fdisj0, Hbdisj.
    assert (Hfull' : Forall (fun b => b = (base, 0) \/ in_heap HSZ lo (brk st) b)
                            ((base, 0) :: L')).
    { rewrite <- EL'.
      apply (shapes_stable HSZ _ Fp pa ps L2 bp s s1 L2' lo X); try assumption; try lia.
      - apply in_heap_merge_stable. lia.
      - right. apply (inv_alloc0 (bp, s)). apply in_or_app. right. now left.
      - rewrite <- Efull. constructor; [now left|].
        eapply Forall_impl; [|exact inv_free0]. cbn beta. auto. }
    assert (Hg' : gaps HSZ base L').
    { pose proof (shapes_gaps HSZ (base - 1) Fp pa ps L2 bp s s1 L2' lo X) as G.
      rewrite <- Efull, EL' in G. specialize (G Hg R1 R2).
      cbn [gaps] in G. destruct G as [_ G]. unfold blk_end in G. cbn [fst snd] in G.
      replace (base + 0 * HSZ) with base in G by ring. exact G. }
    assert (Hfree' : Forall (in_heap HSZ lo (brk st)) L').
    { apply Forall_cons_iff in Hfull'. destruct Hfull' as [_ Hf].
      assert (Hnn : Forall (fun b => 0 <= snd b) L').
      { eapply Forall_impl; [|exact Hf]. cbn beta. intros b [->|Hb]; [simpl; lia|].
        unfold in_heap in Hb. lia. }
      pose proof (gaps_above HSZ HSZ_pos _ _ Hnn Hg') as Hab'.
      rewrite Forall_forall in *. intros b Hb.
      destruct (Hf b Hb) as [->|Hh]; [|assumption].
      specialize (Hab' _ Hb). simpl in Hab'. lia. }
    split; [|split].
    3:{ exists Fp, ps, L2, s1, L2', X. auto. }
    - constructor; cbn [free_link mem freep brk lim]; try assumption.
      + (* the cursor *)
        change (base :: map fst L') with (map fst ((base, 0) :: L')).
        rewrite <- EL', !map_app. apply in_or_app. right. apply in_or_app. left.
        eapply shapes_pa; eassumption.
      + (* the chain *)
        rewrite <- EL'. exact Hl.
      + rewrite Forall_forall. intros a Ha. apply inv_alloc0. now apply HA.
      + rewrite Forall_forall. intros a Ha.
        pose proof (inv_alloc0 _ (HA _ Ha)) as (Ha1 & Ha2 & _).
        rewrite Hm; [apply inv_asize0; now apply HA| |].
        * specialize (Hbdisj _ Ha). apply disj_neq in Hbdisj; cbn [fst snd]; auto.
        * destruct (fc_pa_lo _ _ _ _ _ _ _ _ _ _ _ C) as [Hz|Hlo'].
          -- (* [pa] is the sentinel or a free block; either way not live *)
             assert (Hin : In (pa, ps) ((base, 0) :: L)).
             { rewrite Efull. apply in_or_app. right. now left. }
             destruct Hin as [Hin|Hin]; [injection Hin as <- _; lia|].
             rewrite Forall_forall in inv_free0.
             destruct (inv_free0 _ Hin) as (_ & Hp & _). cbn [snd] in Hp. lia.
          -- assert (Hin : In (pa, ps) ((base, 0) :: L)).
             { rewrite Efull. apply in_or_app. right. now left. }
             destruct Hin as [Hin|Hin]; [injection Hin as <- _; lia|].
             pose proof (inv_fdisj0 _ (HA _ Ha)) as Hd.
             rewrite Forall_forall in Hd, inv_free0. specialize (Hd _ Hin).
             destruct (inv_free0 _ Hin) as (_ & Hp & _).
             apply disj_neq in Hd; cbn [fst snd]; auto.
      + (* live blocks stay clear of the free list *)
        rewrite Forall_forall. intros a Ha.
        pose proof (inv_alloc0 _ (HA _ Ha)) as (Ha1 & Ha2 & _).
        assert (Hd : Forall (disj HSZ a) ((base, 0) :: L')).
        { rewrite <- EL'.
          apply (shapes_stable HSZ _ Fp pa ps L2 bp s s1 L2' lo X); try assumption; try lia.
          - now apply disj_merge_stable.
          - now apply Hbdisj.
          - rewrite <- Efull. constructor.
            + right. unfold blk_end. cbn [fst snd]. lia.
            + apply inv_fdisj0. now apply HA. }
        apply Forall_cons_iff in Hd. tauto.
    - destruct (shapes_covered HSZ HSZ_pos pa ps L2 bp s s1 L2' lo X Hps R1 R2)
        as (c & Hc & Hc1 & Hc2).
      exists c. split; [|split; assumption].
      assert (Hin : In c ((base, 0) :: L')).
      { rewrite <- EL'. apply in_or_app. right. apply in_or_app. now left. }
      destruct Hin as [<-|Hin]; [|assumption].
      unfold blk_end in Hc2. cbn [fst snd] in Hc2. nia.
  Qed.

  (** After [free], a block of the list is an old block or contains the
      freed block. *)
Lemma cert_blocks L L' Fp pa ps L2 bp s s1 L2' lo X :
    (base, 0) :: L = Fp ++ (pa, ps) :: L2 ->
    (base, 0) :: L' = Fp ++ X ++ L2' ->
    0 <= ps -> Forall (fun b => base < fst b) L' ->
    fwd_shape HSZ L2 bp s s1 L2' ->
    bwd_shape HSZ pa ps bp s1 lo X ->
    forall b, In b L' ->
      In b L \/ (fst b <= bp /\ bp + s * HSZ <= blk_end HSZ b).
  Proof.
    intros E E' Hps Hab R1 R2 b Hb.
    assert (Hs1 : s <= s1) by (destruct R1 as [(-> & _)|(sc & _ & -> & ?)]; lia).
    assert (Hold : In b (Fp ++ (pa, ps) :: L2) -> In b L).
    { rewrite <- E. intros [<-|H]; [|assumption].
      rewrite Forall_forall in Hab. specialize (Hab _ Hb). simpl in Hab. lia. }
    assert (Hin : In b (Fp ++ X ++ L2')) by (rewrite <- E'; now right).
    apply in_app_or in Hin. destruct Hin as [Hin|Hin].
    { left. apply Hold. apply in_or_app. now left. }
    apply in_app_or in Hin. destruct Hin as [Hin|Hin].
    - destruct R2 as [(-> & _)|(-> & Heq & _)].
      + destruct Hin as [<-|[<-|[]]].
        * left. apply Hold. apply in_or_app. right. now left.
        * right. unfold blk_end. cbn [fst snd]. nia.
      + destruct Hin as [<-|[]]. right. unfold blk_end. cbn [fst snd]. nia.
    - left. apply Hold. apply in_or_app. right. right.
      destruct R1 as [(_ & -> & _)|(sc & -> & _)]; [assumption|now right].
  Qed.

End FreeInv.

(** * Growing the region *)

Section Grow.

Variable HSZ : Z.
Hypothesis HSZ_pos : 0 < HSZ.
Variable SZB : Z.
Variable base : Z.

  (** A fresh span of [nu] units at the end of the region, with its
      size written into its header, is one more live block. *)
Lemma inv_grow lo st L A nu :
    Inv HSZ base lo st L A -> 0 < nu ->
    brk st + nu * HSZ <= lim st ->
    Inv HSZ base lo
        (mkState (set_size (mem st) (brk st) nu) (freep st) (brk st + nu * HSZ) (lim st))
        L ((brk st, nu) :: A).
  Proof.
    intros I Hnu Hlim. destruct I.
    assert (Hmono : forall b, in_heap HSZ lo (brk st) b ->
                              in_heap HSZ lo (brk st + nu * HSZ) b /\ fst b <> brk st /\
                              disj HSZ (brk st, nu) b).
    { intros b (H1 & H2 & H3 & H4). unfold in_heap, disj, blk_end in *. cbn [fst snd].
      repeat split; try assumption; try nia. }
    assert (Hfree : forall b, In b L -> fst b <> brk st).
    { intros b Hb. rewrite Forall_forall in inv_free0. apply Hmono. now apply inv_free0. }
    constructor; cbn [mem freep brk lim]; try assumption; try nia.
    - rewrite <- Z.add_mod_idemp_l by lia. rewrite inv_brk_al0.
      rewrite Z.add_0_l. apply Z.mod_mul. lia.
    - eapply lseg_frame; [|exact inv_chain0].
      intros b Hb. apply set_size_other. destruct Hb as [<-|Hb].
      + cbn [fst]. lia.
      + now apply Hfree.
    - eapply Forall_impl; [|exact inv_free0]. intros b Hb. now apply Hmono.
    - constructor.
      + unfold in_heap, blk_end. cbn [fst snd]. repeat split; try lia; assumption.
      + eapply Forall_impl; [|exact inv_alloc0]. intros b Hb. now apply Hmono.
    - constructor.
      + cbn [fst snd]. now rewrite h_size_set_size_same.
      + rewrite Forall_forall in *. intros b Hb.
        rewrite h_size_set_size_other; [now apply inv_asize0|].
        apply Hmono. now apply inv_alloc0.
    - cbn [pairwise_disj]. split; [|assumption].
      eapply Forall_impl; [|exact inv_alloc0]. intros b Hb. now apply Hmono.
    - constructor; [|assumption].
      eapply Forall_impl; [|exact inv_free0]. intros b Hb. now apply Hmono.
  Qed.

Lemma free_fuel_mono f d st ap st' :
    free HSZ f st ap = Some st' -> free HSZ (f + d) st ap = Some st'.
  Proof.
    unfold free. destruct (free_scan f (mem st) (ap - HSZ) (freep st)) eqn:E; [|discriminate].
    intros H. now rewrite (free_scan_mono _ _ _ _ _ d E).
  Qed.

Hypothesis wide : 2 ^ 32 * HSZ <= 2 ^ SZB.

  (** The two outcomes of [morecore] on a well-formed state. *)
Lemma morecore_spec lo st L A nunits f :
    Inv HSZ base lo st L A -> 0 < nunits < 2 ^ 32 ->
    (length L < f)%nat ->
    let nu := if nunits <? 4096 then 4096 else nunits in
    (lim st < brk st + nu * HSZ /\ morecore HSZ SZB f st nunits = Some (NULL, st)) \/
    (brk st + nu * HSZ <= lim st /\
     exists st' L',
       morecore HSZ SZB f st nunits = Some (freep st', st') /\
       Inv HSZ base lo st' L' A /\
       brk st' = brk st + nu * HSZ /\ lim st' = lim st /\
       (exists c, In c L' /\ nunits <= snd c) /\
       (forall b, In b L' ->
          In b L \/ (fst b <= brk st /\ brk st + nu * HSZ <= blk_end HSZ b))).
  Proof.
    intros I Hn Hf nu.
    assert (Hnu : 0 < nu < 2 ^ 32 /\ nunits <= nu).
    { unfold nu. destruct (Z.ltb_spec nunits 4096); [|lia].
      change (2 ^ 32) with 4294967296. lia. }
    assert (Hw : wrap SZB (nu * HSZ) = nu * HSZ).
    { apply wrap_small. nia. }
    unfold morecore. fold nu. rewrite Hw. unfold sbrk.
    destruct (Z.leb_spec (brk st + nu * HSZ) (lim st)) as [Hle|Hgt].
    - right. split; [assumption|].
      unfold with_mem. cbn [mem freep brk lim].
      pose proof (inv_grow lo st L A nu I ltac:(lia) Hle) as I2.
      destruct (free_inv HSZ HSZ_pos base lo _ L [] (brk st) nu A I2)
        as (L' & pa & Hfree & I3 & (c & Hc1 & Hc2 & Hc3) & Hcert).
      replace f with (S (length L) + (f - S (length L)))%nat by lia.
      rewrite (free_fuel_mono _ _ _ _ _ Hfree).
      eexists _, L'. split; [reflexivity|]. split; [exact I3|].
      split; [reflexivity|]. split; [reflexivity|]. split.
      + exists c. split; [assumption|].
        unfold blk_end in Hc3. nia.
      + destruct Hcert as (Fp & ps & L2 & s1 & L2' & X & E & E' & C & R1 & R2).
        destruct (inv_full_facts HSZ HSZ_pos base _ _ _ _ I3) as (_ & _ & Hab).
        pose proof (split_facts HSZ HSZ_pos _ base Fp L2 pa ps
                      (fc_seg _ _ _ _ _ _ _ _ _ _ _ C)
                      (fc_sz _ _ _ _ _ _ _ _ _ _ _ C) (fc_gap _ _ _ _ _ _ _ _ _ _ _ C)) as F.
        destruct F as (_ & _ & _ & _ & Hps & _).
        exact (cert_blocks HSZ HSZ_pos base L L' Fp pa ps L2 (brk st) nu s1 L2' lo X
                 E E' Hps Hab R1 R2).
    - left. split; [lia|reflexivity].
  Qed.

End Grow.

(** * Taking a block off the list *)

Section Take.

Variable HSZ : Z.
Hypothesis HSZ_pos : 0 < HSZ.
Variable base : Z.

Lemma lseg_frame2 m m' x L y :
    (forall b, In b L -> h_ptr (m' (fst b)) = h_ptr (m (fst b)) /\
                         h_size (m' (fst b)) = h_size (m (fst b))) ->
    lseg m x L y -> lseg m' x L y.
  Proof.
    revert x. induction L as [|b L IH]; intros x Hf H; cbn [lseg] in *; [assumption|].
    destruct H as (Hx & Hs & H). subst x.
    destruct (Hf b (or_introl eq_refl)) as [E1 E2]. rewrite E1, E2.
    repeat split; try assumption.
    apply IH; [|assumption]. intros c Hc. apply Hf. now right.
  Qed.

  (** The blocks around a block of a gapped list lie clear of it. *)
Lemma gaps_around x K1 b F2 :
    Forall (fun c => 0 <= snd c) (K1 ++ b :: F2) ->
    gaps HSZ x (K1 ++ b :: F2) ->
    Forall (fun c => blk_end HSZ c < fst b) K1 /\
    Forall (fun c => blk_end HSZ b < fst c) F2 /\
    x < fst b /\ gaps HSZ x K1 /\ gaps HSZ (blk_end HSZ b) F2.
  Proof.
    intros Hs Hg.
    apply Forall_app in Hs. destruct Hs as [S1 S2].
    apply Forall_cons_iff in S2. destruct S2 as [S2 S3].
    apply gaps_app in Hg. destruct Hg as [G1 G2]. cbn [gaps] in G2. destruct G2 as [G2 G3].
    pose proof (gaps_end_le HSZ HSZ_pos _ _ S1 G1) as E1.
    pose proof (last_end_ge HSZ HSZ_pos _ _ S1 G1) as E2.
    repeat split; try assumption; try lia.
    - eapply Forall_impl; [|exact E1]. cbn beta. intros. lia.
    - now apply (gaps_above HSZ HSZ_pos).
  Qed.

  (** A node and its successor, when the successor is not the sentinel. *)
Lemma node_succ_split lo st L A prevp :
    Inv HSZ base lo st L A ->
    In prevp (base :: map fst L) ->
    h_ptr (mem st prevp) <> base ->
    exists F1 sx sp F2 K1,
      (base, 0) :: L = F1 ++ (prevp, sx) :: (h_ptr (mem st prevp), sp) :: F2 /\
      L = K1 ++ (h_ptr (mem st prevp), sp) :: F2 /\
      (base, 0) :: K1 = F1 ++ [(prevp, sx)] /\
      h_size (mem st (h_ptr (mem st prevp))) = sp /\
      h_size (mem st prevp) = sx /\
      lseg (mem st) base F1 prevp /\
      lseg (mem st) (h_ptr (mem st (h_ptr (mem st prevp)))) F2 base.
  Proof.
    intros I Hin Hne. destruct I.
    change (base :: map fst L) with (map fst ((base, 0) :: L)) in Hin.
    apply in_map_fst_split in Hin. destruct Hin as (F1 & sx & F2' & E).
    pose proof inv_chain0 as Hc. rewrite E in Hc.
    apply lseg_app in Hc. destruct Hc as (z & Hc1 & Hc2).
    pose proof (lseg_first _ _ _ _ _ Hc2) as Ez. cbn [fst] in Ez. subst z.
    cbn [lseg fst snd] in Hc2. destruct Hc2 as (_ & Hsx & Hc2).
    destruct F2' as [|[c sc] F2]; cbn [lseg fst snd] in Hc2; [contradiction|].
    destruct Hc2 as (Ec & Hsc & Hc2).
    exists F1, sx, sc, F2.
    destruct F1 as [|b F1]; cbn [app] in E.
    - injection E as E1 E2 E3. exists []. subst. cbn [app].
      refine (conj _ (conj _ (conj _ (conj _ (conj _ (conj _ _)))))); try assumption; reflexivity.
    - injection E as E1 E2. exists (F1 ++ [(prevp, sx)]). subst.
      rewrite <- app_assoc. cbn [app].
      refine (conj _ (conj _ (conj _ (conj _ (conj _ (conj _ _)))))); try assumption; reflexivity.
  Qed.

  (** Everything [malloc] knows when it stands at a usable block [p]
      with predecessor [prevp]. *)
Lemma take_facts lo st L A prevp :
    Inv HSZ base lo st L A ->
    In prevp (base :: map fst L) ->
    0 < h_size (mem st (h_ptr (mem st prevp))) ->
    exists F1 sx sp F2 K1,
      L = K1 ++ (h_ptr (mem st prevp), sp) :: F2 /\
      (base, 0) :: K1 = F1 ++ [(prevp, sx)] /\
      h_size (mem st prevp) = sx /\
      h_size (mem st (h_ptr (mem st prevp))) = sp /\
      lseg (mem st) base F1 prevp /\
      lseg (mem st) (h_ptr (mem st (h_ptr (mem st prevp)))) F2 base /\
      (forall b, In b F1 -> fst b < prevp) /\
      prevp < h_ptr (mem st prevp) /\
      (forall b, In b F2 -> h_ptr (mem st prevp) + sp * HSZ < fst b) /\
      (forall b, In b K1 -> blk_end HSZ b < h_ptr (mem st prevp)) /\
      gaps HSZ base K1 /\
      gaps HSZ (h_ptr (mem st prevp) + sp * HSZ) F2 /\
      in_heap HSZ lo (brk st) (h_ptr (mem st prevp), sp).
  Proof.
    intros I Hin Hpos.
    assert (Hne : h_ptr (mem st prevp) <> base).
    { intros E. rewrite E in Hpos. destruct I. cbn [lseg fst snd] in inv_chain0. lia. }
    destruct (node_succ_split _ _ _ _ _ I Hin Hne)
      as (F1 & sx & sp & F2 & K1 & Efull & EL & EK & Hsp & Hsx & Hl1 & Hl2).
    destruct (inv_full_facts HSZ HSZ_pos base _ _ _ _ I) as (Hn & Hg & Hab).
    destruct I.
    set (p := h_ptr (mem st prevp)) in *.
    pose proof (in_heap_nonneg HSZ _ _ _ inv_free0) as HnL.
    pose proof HnL as HnL'. rewrite EL in HnL'.
    pose proof inv_gaps0 as GL. rewrite EL in GL.
    destruct (gaps_around _ _ _ _ HnL' GL) as (A1 & A2 & A3 & A4 & A5).
    cbn [fst] in A1, A3. unfold blk_end in A2, A5. cbn [fst snd] in A2, A5.
    assert (HnK : Forall (fun c => 0 <= snd c) ((base, 0) :: K1)).
    { constructor; [simpl; lia|]. apply Forall_app in HnL'. tauto. }
    assert (GK : gaps HSZ (base - 1) ((base, 0) :: K1)).
    { cbn [gaps fst]. split; [lia|]. unfold blk_end. cbn [fst snd].
      replace (base + 0 * HSZ) with base by ring. exact A4. }
    rewrite EK in HnK, GK.
    destruct (gaps_around _ _ _ _ HnK GK) as (B1 & _ & _ & _ & _).
    cbn [fst] in B1.
    rewrite Forall_forall in A1, A2, B1, inv_free0.
    assert (Hprev : prevp < p).
    { assert (Hi : In (prevp, sx) ((base, 0) :: K1)).
      { rewrite EK. apply in_or_app. right. now left. }
      destruct Hi as [Hi|Hi].
      - injection Hi as <- _. lia.
      - specialize (A1 _ Hi). apply Forall_app in HnL'. destruct HnL' as [HnK1 _].
        rewrite Forall_forall in HnK1. specialize (HnK1 _ Hi).
        unfold blk_end in A1. cbn [fst snd] in *. nia. }
    exists F1, sx, sp, F2, K1.
    refine (conj EL (conj EK (conj Hsx (conj Hsp (conj Hl1 (conj Hl2
             (conj _ (conj Hprev (conj A2 (conj A1 (conj A4 (conj A5 _)))))))))))).
    - intros b Hb. specialize (B1 _ Hb).
      apply Forall_app in HnK. destruct HnK as [HnF _].
      rewrite Forall_forall in HnF. specialize (HnF _ Hb).
      unfold blk_end in B1. nia.
    - apply inv_free0. rewrite EL. apply in_or_app. right. now left.
  Qed.

Lemma sub_block_disj (a : block) p sp q sq :
    p <= q -> q + sq * HSZ <= p + sp * HSZ ->
    disj HSZ a (p, sp) -> disj HSZ (q, sq) a.
  Proof. unfold disj, blk_end. cbn [fst snd]. intros. lia. Qed.

(** Taking [nunits] units at a block that fits keeps the invariant: the
    block leaves the list or shrinks, and the block handed out becomes
    live. *)
Theorem take_inv lo st L A prevp nunits :
    Inv HSZ base lo st L A ->
    In prevp (base :: map fst L) ->
    0 < nunits < 2 ^ 32 ->
    nunits <= h_size (mem st (h_ptr (mem st prevp))) ->
    exists K1 sp F2 L',
      L = K1 ++ (h_ptr (mem st prevp), sp) :: F2 /\
      h_size (mem st (h_ptr (mem st prevp))) = sp /\
      snd (take HSZ (mem st) prevp (h_ptr (mem st prevp)) nunits)
        = h_ptr (mem st prevp) + (sp - nunits) * HSZ /\
      L' = K1 ++ (if sp =? nunits then [] else [(h_ptr (mem st prevp), sp - nunits)]) ++ F2 /\
      Inv HSZ base lo
          (mkState (fst (take HSZ (mem st) prevp (h_ptr (mem st prevp)) nunits))
                   prevp (brk st) (lim st))
          L'
          ((snd (take HSZ (mem st) prevp (h_ptr (mem st prevp)) nunits), nunits) :: A).
  Proof.
    intros I Hin Hn Hfit.
    destruct (take_facts _ _ _ _ _ I Hin ltac:(lia))
      as (F1 & sx & sp & F2 & K1 & EL & EK & Hsx & Hsp & Hl1 & Hl2 &
          HF1 & Hprev & HF2 & HK1 & GK1 & GF2 & Hp).
    destruct I.
    set (p := h_ptr (mem st prevp)) in *.
    destruct Hp as (Hp1 & Hp2 & Hp3 & Hp4). unfold blk_end in Hp4. cbn [fst snd] in *.
    assert (HLK : forall b, In b K1 -> In b L).
    { intros b Hb. rewrite EL. apply in_or_app. now left. }
    assert (HLF : forall b, In b F2 -> In b L).
    { intros b Hb. rewrite EL. apply in_or_app. right. now right. }
    assert (HLp : In (p, sp) L).
    { rewrite EL. apply in_or_app. right. now left. }
    assert (Hprev_in : forall K, In prevp (base :: map fst (K1 ++ K))).
    { intros K. change (base :: map fst (K1 ++ K)) with (map fst (((base, 0) :: K1) ++ K)).
      rewrite EK, !map_app. apply in_or_app. left. apply in_or_app. right. now left. }
    rewrite Forall_forall in inv_free0, inv_alloc0, inv_asize0, inv_fdisj0.
    assert (Hadis : forall a, In a A -> disj HSZ a (p, sp)).
    { intros a Ha. specialize (inv_fdisj0 _ Ha). rewrite Forall_forall in inv_fdisj0.
      now apply inv_fdisj0. }
    exists K1, sp, F2. unfold take. rewrite Hsp.
    destruct (Z.eqb_spec sp nunits) as [Eq|Ne]; cbn [fst snd app].
    - (* exact fit: unlink *)
      exists (K1 ++ F2).
      split; [exact EL|]. split; [first [exact Hsp|reflexivity]|].
      split; [rewrite Eq; ring|].
      split; [reflexivity|].
      assert (Hm : forall x, x <> prevp -> set_ptr (mem st) prevp (h_ptr (mem st p)) x = mem st x).
      { intros x Hx. now apply set_ptr_other. }
      constructor; cbn [mem freep brk lim]; try assumption.
      + apply Hprev_in.
      + change ((base, 0) :: K1 ++ F2) with (((base, 0) :: K1) ++ F2).
        rewrite EK, <- app_assoc. cbn [app].
        apply lseg_app. exists prevp. split.
        * eapply lseg_frame; [|exact Hl1]. intros b Hb. apply Hm.
          specialize (HF1 _ Hb). lia.
        * cbn [lseg fst snd]. rewrite h_size_set_ptr, h_ptr_set_ptr_same.
          refine (conj eq_refl (conj Hsx _)).
          eapply lseg_frame; [|exact Hl2]. intros b Hb. apply Hm.
          specialize (HF2 _ Hb). nia.
      + apply gaps_app. split; [assumption|].
        eapply gaps_head_change; [exact GF2|].
        intros b Hb. specialize (HF2 _ Hb).
        pose proof (last_end_ge HSZ HSZ_pos base K1) as Hle.
        assert (Hend : Forall (fun c => blk_end HSZ c <= p) K1).
        { rewrite Forall_forall. intros c Hc. specialize (HK1 _ Hc). lia. }
        assert (last_end HSZ base K1 <= p).
        { clear - Hend Hprev Hp1 inv_base_lo0 HSZ_pos.
          assert (Hb : base <= p) by lia. revert Hb Hend. generalize base.
          induction K1 as [|c K IH]; intros x Hx Hc; cbn [last_end]; [lia|].
          apply Forall_cons_iff in Hc. destruct Hc as [Hc1 Hc2]. apply IH; assumption. }
        nia.
      + rewrite Forall_forall. intros b Hb. apply inv_free0.
        apply in_app_or in Hb. destruct Hb; auto.
      + rewrite Forall_forall. intros b [<-|Hb]; [|now apply inv_alloc0].
        unfold in_heap, blk_end. cbn [fst snd]. rewrite <- Eq.
        split; [|split; [|split]]; try assumption; lia.
      + rewrite Forall_forall. intros b Hb. rewrite h_size_set_ptr.
        destruct Hb as [<-|Hb]; [cbn [fst snd]; lia|now apply inv_asize0].
      + cbn [pairwise_disj]. split; [|assumption].
        rewrite Forall_forall. intros a Ha. rewrite <- Eq. apply disj_sym. now apply Hadis.
      + rewrite Forall_forall. intros a [<-|Ha].
        * rewrite Forall_forall. intros b Hb. unfold disj, blk_end. cbn [fst snd].
          apply in_app_or in Hb. destruct Hb as [Hb|Hb].
          -- right. specialize (HK1 _ Hb). unfold blk_end in HK1. lia.
          -- left. specialize (HF2 _ Hb). lia.
        * specialize (inv_fdisj0 _ Ha). rewrite Forall_forall in *.
          intros b Hb. apply inv_fdisj0. apply in_app_or in Hb. destruct Hb; auto.
    - (* larger block: carve the tail *)
      assert (Hrem : 0 < sp - nunits < 2 ^ 32).
      { split; [lia|].
        assert (sp < 2 ^ 32); [|lia].
        apply mul_lt_cancel with (h := HSZ); [assumption|]. nia. }
      rewrite (u32_small (sp - nunits)) by lia. rewrite h_size_set_size_same.
      set (q := p + (sp - nunits) * HSZ).
      set (m' := set_size (set_size (mem st) p (sp - nunits)) q nunits).
      assert (Hq : p < q /\ q + nunits * HSZ = p + sp * HSZ) by (unfold q; nia).
      assert (Hptr : forall x, h_ptr (m' x) = h_ptr (mem st x)).
      { intros x. unfold m'. now rewrite !h_ptr_set_size. }
      assert (Hsz : forall x, x <> p -> x <> q -> h_size (m' x) = h_size (mem st x)).
      { intros x H1 H2. unfold m'. now rewrite !h_size_set_size_other. }
      assert (Hszp : h_size (m' p) = sp - nunits).
      { unfold m'. rewrite h_size_set_size_other by lia. apply h_size_set_size_same. }
      assert (Hszq : h_size (m' q) = nunits).
      { unfold m'. apply h_size_set_size_same. }
      exists (K1 ++ (p, sp - nunits) :: F2).
      split; [exact EL|]. split; [first [exact Hsp|reflexivity]|]. split; [reflexivity|].
      split; [reflexivity|].
      constructor; cbn [mem freep brk lim]; try assumption.
      + apply Hprev_in.
      + change ((base, 0) :: K1 ++ (p, sp - nunits) :: F2)
          with (((base, 0) :: K1) ++ (p, sp - nunits) :: F2).
        rewrite EK, <- app_assoc. cbn [app].
        apply lseg_app. exists prevp. split.
        * eapply lseg_frame2; [|exact Hl1]. intros b Hb.
          specialize (HF1 _ Hb). split; [apply Hptr|apply Hsz; lia].
        * cbn [lseg fst snd]. rewrite !Hptr. fold p. rewrite Hszp.
          rewrite (Hsz prevp) by lia.
          refine (conj eq_refl (conj Hsx (conj eq_refl (conj eq_refl _)))).
          eapply lseg_frame2; [|exact Hl2]. intros b Hb.
          specialize (HF2 _ Hb). split; [apply Hptr|apply Hsz; nia].
      + apply gaps_app. split; [assumption|].
        rewrite EL in inv_gaps0. apply gaps_app in inv_gaps0.
        destruct inv_gaps0 as [_ G]. cbn [gaps fst] in G |- *. destruct G as [G _].
        split; [assumption|].
        eapply gaps_head_change; [exact GF2|].
        intros b Hb. specialize (HF2 _ Hb). unfold blk_end. cbn [fst snd]. nia.
      + rewrite Forall_forall. intros b Hb.
        apply in_app_or in Hb. destruct Hb as [Hb|[<-|Hb]]; auto.
        unfold in_heap, blk_end. cbn [fst snd].
        split; [|split; [|split]]; try assumption; try lia; nia.
      + rewrite Forall_forall. intros b [<-|Hb]; [|now apply inv_alloc0].
        unfold in_heap, blk_end. cbn [fst snd].
        split; [|split; [|split]]; try lia.
        unfold q. rewrite Z.mod_add by lia. assumption.
      + rewrite Forall_forall. intros b [<-|Hb]; [cbn [fst snd]; assumption|].
        pose proof (Hadis _ Hb) as Hd. destruct (inv_alloc0 _ Hb) as (_ & Hb2 & _).
        rewrite Hsz; [now apply inv_asize0| |].
        * unfold disj, blk_end in Hd. cbn [fst snd] in Hd. nia.
        * unfold disj, blk_end in Hd. cbn [fst snd] in Hd. nia.
      + cbn [pairwise_disj]. split; [|assumption].
        rewrite Forall_forall. intros a Ha.
        apply sub_block_disj with (p := p) (sp := sp); try lia. now apply Hadis.
      + rewrite Forall_forall. intros a [<-|Ha].
        * rewrite Forall_forall. intros b Hb. unfold disj, blk_end. cbn [fst snd].
          apply in_app_or in Hb. destruct Hb as [Hb|[<-|Hb]].
          -- right. specialize (HK1 _ Hb). unfold blk_end in HK1. lia.
          -- right. cbn [fst snd]. unfold q. lia.
          -- left. specialize (HF2 _ Hb). lia.
        * pose proof (inv_fdisj0 _ Ha) as Hd. rewrite Forall_forall in *.
          intros b Hb. apply in_app_or in Hb. destruct Hb as [Hb|[<-|Hb]]; auto.
          specialize (Hadis _ Ha). unfold disj, blk_end in *. cbn [fst snd] in *. nia.
  Qed.

End Take.

(** * The search loop of [malloc] *)

Section Loop.

Variable HSZ : Z.
Hypothesis HSZ_pos : 0 < HSZ.
Variable SZB : Z.
Variable base : Z.

Lemma morecore_fuel_mono f d st nu r :
    morecore HSZ SZB f st nu = Some r -> morecore HSZ SZB (f + d) st nu = Some r.
  Proof.
    unfold morecore.
    destruct (sbrk st _) as [[hp st1]|]; [|auto].
    destruct (free HSZ f _ _) eqn:E; [|discriminate].
    intros H. now rewrite (free_fuel_mono HSZ _ d _ _ _ E).
  Qed.

Lemma malloc_loop_mono nunits d : forall f st prevp p r,
    malloc_loop HSZ SZB f st prevp p nunits = Some r ->
    malloc_loop HSZ SZB (f + d) st prevp p nunits = Some r.
  Proof.
    induction f as [|f IH]; intros st prevp p r H; [discriminate|].
    cbn [malloc_loop Nat.add] in *.
    destruct (nunits <=? h_size (mem st p)); [assumption|].
    destruct (p =? freep st).
    - destruct (morecore HSZ SZB f st nunits) as [[p' st']|] eqn:E; [|discriminate].
      rewrite (morecore_fuel_mono _ d _ _ _ E).
      destruct (p' =? NULL); [assumption|]. now apply IH.
    - now apply IH.
  Qed.

Lemma last_cons_default (a d : Z) l : last (a :: l) d = last l a.
  Proof.
    revert a d. induction l as [|b l IH]; intros a d; [reflexivity|].
    change (last (a :: b :: l) d) with (last (b :: l) d). rewrite !IH. reflexivity.
  Qed.

  (** Blocks that are too small and are not the cursor are passed. *)
Lemma walk_list nunits : forall T1 st prevp p y f,
    lseg (mem st) p T1 y ->
    (forall b, In b T1 -> snd b < nunits /\ fst b <> freep st) ->
    malloc_loop HSZ SZB (length T1 + f) st prevp p nunits =
    malloc_loop HSZ SZB f st (last (map fst T1) prevp) y nunits.
  Proof.
    induction T1 as [|b T1 IH]; intros st prevp p y f Hl Hs; cbn [lseg] in Hl.
    - subst. reflexivity.
    - destruct Hl as (-> & Hsz & Hl).
      destruct (Hs b (or_introl eq_refl)) as [Hb1 Hb2].
      cbn [length Nat.add malloc_loop]. rewrite Hsz.
      replace (nunits <=? snd b) with false by (symmetry; apply Z.leb_gt; lia).
      replace (fst b =? freep st) with false by (symmetry; now apply Z.eqb_neq).
      rewrite IH with (y := y); [|assumption|intros c Hc; apply Hs; now right].
      cbn [map]. now rewrite last_cons_default.
  Qed.

Lemma walk_pred m : forall T1 prevp p c sc T2 z,
    h_ptr (m prevp) = p ->
    lseg m p (T1 ++ (c, sc) :: T2) z ->
    h_ptr (m (last (map fst T1) prevp)) = c /\
    lseg m p T1 c /\ h_size (m c) = sc.
  Proof.
    induction T1 as [|b T1 IH]; intros prevp p c sc T2 z Hp Hl; cbn [app lseg fst snd] in Hl.
    - destruct Hl as (-> & Hs & _). cbn [map last lseg]. auto.
    - destruct Hl as (-> & Hs & Hl).
      destruct (IH (fst b) _ _ _ _ _ eq_refl Hl) as (I1 & I2 & I3).
      cbn [map]. rewrite last_cons_default. cbn [lseg]. auto.
  Qed.

Lemma last_in (l : list Z) : forall d, In (last l d) (d :: l).
  Proof.
    induction l as [|a l IH]; intros d; [now left|].
    rewrite last_cons_default. right. apply IH.
  Qed.

Lemma prefix_of_snoc (T1 : list block) c T2 : forall M z,
    T1 ++ c :: T2 = M ++ [z] -> forall b, In b T1 -> In b M.
  Proof.
    induction T1 as [|a T1 IH]; intros M z E b Hb; [destruct Hb|].
    destruct M as [|a' M]; cbn [app] in E.
    - injection E as _ E. destruct T1; discriminate.
    - injection E as <- E. destruct Hb as [<-|Hb]; [now left|].
      right. eapply IH; eassumption.
  Qed.

Lemma first_fit nunits (T : list block) :
    Forall (fun b => snd b < nunits) T \/
    exists T1 c T2, T = T1 ++ c :: T2 /\
                    Forall (fun b => snd b < nunits) T1 /\ nunits <= snd c.
  Proof.
    induction T as [|b T IH]; [left; constructor|].
    destruct (Z_lt_ge_dec (snd b) nunits) as [Hlt|Hge].
    - destruct IH as [IH|(T1 & c & T2 & -> & H1 & H2)].
      + left. now constructor.
      + right. exists (b :: T1), c, T2. repeat split; [constructor|]; assumption.
    - right. exists [], b, T. repeat split; [constructor|lia].
  Qed.

  (** The list as [malloc] walks it: from the block after the cursor
      round to the cursor itself. *)
Lemma rotation lo st L A :
    Inv HSZ base lo st L A ->
    exists G1 sf G2,
      (base, 0) :: L = G1 ++ (freep st, sf) :: G2 /\
      lseg (mem st) (h_ptr (mem st (freep st))) (G2 ++ G1 ++ [(freep st, sf)])
           (h_ptr (mem st (freep st))) /\
      (forall b, In b (G2 ++ G1) -> fst b <> freep st).
  Proof.
    intros I. destruct (inv_full_facts HSZ HSZ_pos base _ _ _ _ I) as (Hn & Hg & _).
    destruct I.
    change (base :: map fst L) with (map fst ((base, 0) :: L)) in inv_freep0.
    apply in_map_fst_split in inv_freep0. destruct inv_freep0 as (G1 & sf & G2 & E).
    exists G1, sf, G2. split; [assumption|].
    rewrite E in inv_chain0, Hn, Hg.
    apply lseg_app in inv_chain0. destruct inv_chain0 as (z & H1 & H2).
    pose proof (lseg_first _ _ _ _ _ H2) as Ez. cbn [fst] in Ez. subst z.
    cbn [lseg fst snd] in H2. destruct H2 as (_ & Hs & H2).
    split.
    - apply lseg_app. exists base. split; [assumption|].
      apply lseg_app. exists (freep st). split; [assumption|].
      cbn [lseg fst snd]. auto.
    - destruct (gaps_around HSZ HSZ_pos _ _ _ _ Hn Hg) as (A1 & A2 & _).
      apply Forall_app in Hn. destruct Hn as [Hn1 Hn2].
      apply Forall_cons_iff in Hn2. destruct Hn2 as [Hn2 Hn3].
      rewrite Forall_forall in A1, A2, Hn1, Hn3. cbn [fst snd] in *.
      intros b Hb. apply in_app_or in Hb. destruct Hb as [Hb|Hb].
      + specialize (A2 _ Hb). unfold blk_end in A2. cbn [fst snd] in A2. nia.
      + specialize (A1 _ Hb). specialize (Hn1 _ Hb). unfold blk_end in A1. nia.
  Qed.

Lemma rotation_nodes lo st L A G1 sf G2 b :
    Inv HSZ base lo st L A ->
    (base, 0) :: L = G1 ++ (freep st, sf) :: G2 ->
    In b (G2 ++ G1 ++ [(freep st, sf)]) -> In b ((base, 0) :: L).
  Proof.
    intros _ E Hb. rewrite E.
    apply in_app_or in Hb. apply in_or_app. destruct Hb as [Hb|Hb].
    - right. now right.
    - apply in_app_or in Hb. destruct Hb as [Hb|[<-|[]]]; [now left|right; now left].
  Qed.

  (** If some free block is large enough, the loop hands out a block
      without growing the region. *)
Lemma loop_fit lo st L A nunits :
    Inv HSZ base lo st L A -> 0 < nunits < 2 ^ 32 ->
    (exists c, In c L /\ nunits <= snd c) ->
    exists q st' L',
      malloc_loop HSZ SZB (S (length L)) st (freep st) (h_ptr (mem st (freep st))) nunits
        = Some (q + HSZ, st') /\
      Inv HSZ base lo st' L' ((q, nunits) :: A) /\
      brk st' = brk st /\ lim st' = lim st /\
      exists K1 c sp F2,
        L = K1 ++ (c, sp) :: F2 /\ nunits <= sp /\
        q = c + (sp - nunits) * HSZ /\
        L' = K1 ++ (if sp =? nunits then [] else [(c, sp - nunits)]) ++ F2.
  Proof.
    intros I Hn (c & Hc1 & Hc2).
    destruct (rotation _ _ _ _ I) as (G1 & sf & G2 & E & Hrot & Hne).
    set (p := h_ptr (mem st (freep st))) in *.
    set (T := G2 ++ G1 ++ [(freep st, sf)]) in *.
    assert (HcT : In c T).
    { assert (Hc : In c ((base, 0) :: L)) by now right.
      rewrite E in Hc. unfold T. apply in_app_or in Hc. apply in_or_app.
      destruct Hc as [Hc|[<-|Hc]].
      - right. apply in_or_app. now left.
      - right. apply in_or_app. right. now left.
      - now left. }
    destruct (first_fit nunits T) as [Hall|(T1 & [c' sc'] & T2 & ET & Hsmall & Hbig)].
    { rewrite Forall_forall in Hall. specialize (Hall _ HcT). lia. }
    cbn [snd] in Hbig.
    assert (HT1 : forall b, In b T1 -> snd b < nunits /\ fst b <> freep st).
    { intros b Hb. rewrite Forall_forall in Hsmall. split; [now apply Hsmall|].
      apply Hne. unfold T in ET. rewrite app_assoc in ET.
      eapply prefix_of_snoc; [symmetry; exact ET|exact Hb]. }
    rewrite ET in Hrot.
    destruct (walk_pred _ _ (freep st) _ _ _ _ _ eq_refl Hrot) as (Hnext & Hseg & Hsz).
    set (prev := last (map fst T1) (freep st)) in *.
    assert (Hprev : In prev (base :: map fst L)).
    { destruct (last_in (map fst T1) (freep st)) as [Hl|Hl]; fold prev in Hl.
      - rewrite <- Hl. destruct I. assumption.
      - apply in_map_iff in Hl. destruct Hl as (b & Eb & Hb).
        change (base :: map fst L) with (map fst ((base, 0) :: L)).
        rewrite <- Eb. apply in_map.
        eapply rotation_nodes; [exact I|exact E|]. fold T. rewrite ET.
        apply in_or_app. now left. }
    assert (Hfit : nunits <= h_size (mem st (h_ptr (mem st prev)))).
    { rewrite Hnext, Hsz. exact Hbig. }
    destruct (take_inv HSZ HSZ_pos base _ _ _ _ _ nunits I Hprev Hn Hfit)
      as (K1 & sp & F2 & L' & EL & Esp & Eq & EL' & I').
    rewrite Hnext in I', EL, Esp, Eq, EL'.
    destruct (take HSZ (mem st) prev c' nunits) as [m' q] eqn:Etake. cbn [fst snd] in I', Eq.
    exists q, (mkState m' prev (brk st) (lim st)), L'.
    split; [|split; [exact I'|split; [reflexivity|split; [reflexivity|]]]].
    2:{ exists K1, c', sp, F2. rewrite Hnext, Esp in Hfit. auto. }
    assert (Hlen' : (length T1 + 1 <= S (length L))%nat).
    { assert (El : length T = S (length L)).
      { unfold T. rewrite !length_app. cbn [length].
        apply (f_equal (@length _)) in E. rewrite length_app in E. cbn [length] in E. lia. }
      rewrite ET, length_app in El. cbn [length] in El. lia. }
    replace (S (length L)) with ((length T1 + 1) + (S (length L) - (length T1 + 1)))%nat by lia.
    apply malloc_loop_mono.
    rewrite (walk_list nunits T1 st (freep st) p c' 1 Hseg HT1). fold prev.
    cbn [malloc_loop]. rewrite Hsz.
    replace (nunits <=? sc') with true by (symmetry; apply Z.leb_le; lia).
    rewrite Etake. reflexivity.
  Qed.

  (** If no free block is large enough, the walk comes round to the
      cursor and calls [morecore]. *)
Lemma loop_nofit lo st L A nunits f :
    Inv HSZ base lo st L A -> 0 < nunits ->
    Forall (fun b => snd b < nunits) L ->
    malloc_loop HSZ SZB (S (length L) + f) st (freep st) (h_ptr (mem st (freep st))) nunits =
    match morecore HSZ SZB f st nunits with
    | None => None
    | Some (p', st') =>
        if p' =? NULL then Some (NULL, st')
        else malloc_loop HSZ SZB f st' p' (h_ptr (mem st' p')) nunits
    end.
  Proof.
    intros I Hn Hsmall.
    destruct (rotation _ _ _ _ I) as (G1 & sf & G2 & E & Hrot & Hne).
    set (p := h_ptr (mem st (freep st))) in *.
    rewrite app_assoc in Hrot. apply lseg_app in Hrot. destruct Hrot as (z & H1 & H2).
    cbn [lseg fst snd] in H2. destruct H2 as (-> & Hsf & _).
    assert (Hall : forall b, In b ((base, 0) :: L) -> snd b < nunits).
    { intros b [<-|Hb]; [simpl; lia|]. rewrite Forall_forall in Hsmall. now apply Hsmall. }
    assert (HT1 : forall b, In b (G2 ++ G1) -> snd b < nunits /\ fst b <> freep st).
    { intros b Hb. split; [|now apply Hne]. apply Hall. rewrite E.
      apply in_app_or in Hb. apply in_or_app. destruct Hb; [right; now right|now left]. }
    assert (El : length (G2 ++ G1) = length L).
    { apply (f_equal (@length _)) in E. rewrite !length_app in *. cbn [length] in E. lia. }
    replace (S (length L) + f)%nat with (length (G2 ++ G1) + S f)%nat by lia.
    rewrite (walk_list nunits _ st (freep st) p (freep st) (S f) H1 HT1).
    cbn [malloc_loop]. rewrite Hsf.
    assert (Hsf' : sf < nunits).
    { apply (Hall (freep st, sf)). rewrite E. apply in_or_app. right. now left. }
    replace (nunits <=? sf) with false by (symmetry; apply Z.leb_gt; lia).
    rewrite Z.eqb_refl. reflexivity.
  Qed.

End Loop.

(** * [malloc] on a well-formed state *)

Section Malloc.

Variable HSZ : Z.
Hypothesis HSZ_ge : 8 <= HSZ.
Variable SZB : Z.
Hypothesis SZB_ge : 32 <= SZB.
Variable base : Z.

Lemma inv_freep_pos lo st L A : Inv HSZ base lo st L A -> 0 < freep st.
  Proof.
    intros I.
    destruct (inv_full_facts HSZ ltac:(lia) base _ _ _ _ I) as (_ & _ & Hab).
    destruct I. destruct inv_freep0 as [H|H]; [lia|].
    apply in_map_iff in H. destruct H as (b & Eb & Hb).
    rewrite Forall_forall in Hab. specialize (Hab _ Hb). lia.
  Qed.

Lemma inv_init_id lo st L A : Inv HSZ base lo st L A -> init base st = st.
  Proof.
    intros I. unfold init. pose proof (inv_freep_pos _ _ _ _ I) as Hp.
    destruct (Z.eqb_spec (freep st) NULL) as [E|]; [|reflexivity].
    unfold NULL in E. lia.
  Qed.

Lemma inv0_init lo st : Inv0 HSZ base lo st -> Inv HSZ base lo (init base st) [] [].
  Proof.
    intros I. destruct I. unfold init. rewrite inv0_freep0. rewrite Z.eqb_refl.
    constructor; cbn [mem freep brk lim map]; try assumption; try lia; try constructor.
    - reflexivity.
    - reflexivity.
    - cbn [lseg fst snd]. rewrite h_size_set_size_same, h_ptr_set_size, h_ptr_set_ptr_same. auto.
  Qed.

Lemma wf_init lo st L A : Wf HSZ base lo st L A -> Inv HSZ base lo (init base st) L A.
  Proof.
    intros [I|(I & -> & ->)].
    - now rewrite (inv_init_id _ _ _ _ I).
    - now apply inv0_init.
  Qed.

Lemma morecore_fail f st nunits :
    wrap SZB (grow_units nunits * HSZ) = grow_units nunits * HSZ ->
    lim st < brk st + grow_units nunits * HSZ ->
    morecore HSZ SZB f st nunits = Some (NULL, st).
  Proof.
    intros Hw Hlim. unfold morecore. fold (grow_units nunits). rewrite Hw. unfold sbrk.
    replace (brk st + grow_units nunits * HSZ <=? lim st) with false
      by (symmetry; apply Z.leb_gt; lia).
    reflexivity.
  Qed.

Hypothesis wide : 2 ^ 32 * HSZ <= 2 ^ SZB.

Lemma nunits_wide nbytes :
    0 <= nbytes < 2 ^ 32 ->
    nunits_of HSZ SZB nbytes = ceil_div nbytes HSZ + 1 /\
    0 < nunits_of HSZ SZB nbytes < 2 ^ 32 /\
    nbytes <= (nunits_of HSZ SZB nbytes - 1) * HSZ.
  Proof.
    intros Hn.
    assert (E : nunits_of HSZ SZB nbytes = ceil_div nbytes HSZ + 1).
    { apply nunits_of_exact; try assumption. nia. }
    rewrite E. split; [reflexivity|].
    pose proof (ceil_div_ge nbytes HSZ ltac:(lia) ltac:(lia)) as G.
    pose proof (ceil_div_le nbytes HSZ ltac:(lia) ltac:(lia)) as U.
    assert (D : nbytes / HSZ <= nbytes / 8) by (apply Z.div_le_compat_l; lia).
    assert (D8 : nbytes / 8 < 2 ^ 29).
    { apply Z.div_lt_upper_bound; [lia|]. change (2 ^ 32) with (8 * 2 ^ 29) in Hn. lia. }
    assert (D0 : 0 <= nbytes / HSZ) by (apply Z.div_pos; lia).
    assert (C0 : 0 <= ceil_div nbytes HSZ).
    { unfold ceil_div. destruct (nbytes mod HSZ =? 0); lia. }
    change (2 ^ 32) with 4294967296 in *. change (2 ^ 29) with 536870912 in *.
    split; [lia|]. replace (ceil_div nbytes HSZ + 1 - 1) with (ceil_div nbytes HSZ) by ring.
    exact G.
  Qed.

Lemma grow_units_range n : 0 < n < 2 ^ 32 -> n <= grow_units n /\ 0 < grow_units n < 2 ^ 32.
  Proof.
    intros H. unfold grow_units. change (2 ^ 32) with 4294967296 in *.
    destruct (Z.ltb_spec n 4096); lia.
  Qed.

  (** The three outcomes of [malloc]. *)
Theorem malloc_spec lo st L A nbytes :
    Inv HSZ base lo (init base st) L A ->
    0 <= nbytes < 2 ^ 32 ->
    let st0 := init base st in
    let n := nunits_of HSZ SZB nbytes in
    (* served from the list *)
    ((exists c, In c L /\ n <= snd c) /\
     exists q st' L',
       (forall f, (S (length L) <= f)%nat ->
                  malloc HSZ SZB base f st nbytes = Some (q + HSZ, st')) /\
       Inv HSZ base lo st' L' ((q, n) :: A) /\
       brk st' = brk st0 /\ lim st' = lim st0) \/
    (* served after growing *)
    (Forall (fun b => snd b < n) L /\ brk st0 + grow_units n * HSZ <= lim st0 /\
     exists q st' L' N,
       (forall f, (N <= f)%nat ->
                  malloc HSZ SZB base f st nbytes = Some (q + HSZ, st')) /\
       Inv HSZ base lo st' L' ((q, n) :: A) /\
       brk st' = brk st0 + grow_units n * HSZ /\ lim st' = lim st0) \/
    (* out of memory *)
    (Forall (fun b => snd b < n) L /\ lim st0 < brk st0 + grow_units n * HSZ /\
     forall f, (S (length L) <= f)%nat ->
               malloc HSZ SZB base f st nbytes = Some (NULL, st0)).
  Proof.
    intros I Hnb st0 n.
    assert (HSZ_pos : 0 < HSZ) by lia.
    destruct (nunits_wide nbytes Hnb) as (_ & Hn & _). fold n in Hn.
    destruct (grow_units_range n Hn) as (Hg1 & Hg2).
    assert (Hw : wrap SZB (grow_units n * HSZ) = grow_units n * HSZ).
    { apply wrap_small. nia. }
    unfold malloc. fold st0. fold n.
    destruct (first_fit n L) as [Hsmall|(T1 & c & T2 & E & _ & Hbig)].
    - destruct (Z_le_gt_dec (brk st0 + grow_units n * HSZ) (lim st0)) as [Hle|Hgt].
      + right. left. split; [assumption|]. split; [assumption|].
        destruct (morecore_spec HSZ HSZ_pos SZB base wide lo st0 L A n (S (length L))
                    I Hn ltac:(lia)) as [[Hf _]|(_ & st1 & L1 & Hm & I1 & Hb & Hl & Hc & _)].
        { fold (grow_units n) in Hf. lia. }
        fold (grow_units n) in Hb.
        destruct (loop_fit HSZ HSZ_pos SZB base lo st1 L1 A n I1 Hn Hc)
          as (q & st' & L' & Hloop & I' & Hb' & Hl' & _).
        exists q, st', L', (S (length L) + (S (length L) + S (length L1)))%nat.
        split; [|split; [exact I'|split; congruence]].
        intros f Hf.
        replace f with (S (length L) + (f - S (length L)))%nat by lia.
        rewrite (loop_nofit HSZ HSZ_pos SZB base lo st0 L A n _ I ltac:(lia) Hsmall).
        replace (f - S (length L))%nat
          with (S (length L) + (f - S (length L) - S (length L)))%nat by lia.
        rewrite (morecore_fuel_mono HSZ SZB _ _ _ _ _ Hm).
        assert (Hfp : (freep st1 =? NULL) = false).
        { apply Z.eqb_neq. pose proof (inv_freep_pos _ _ _ _ I1). unfold NULL. lia. }
        rewrite Hfp.
        replace (S (length L) + (f - S (length L) - S (length L)))%nat
          with (S (length L1) + (f - S (length L) - S (length L1)))%nat by lia.
        apply malloc_loop_mono. exact Hloop.
      + right. right. split; [assumption|]. split; [lia|].
        intros f Hf.
        replace f with (S (length L) + (f - S (length L)))%nat by lia.
        rewrite (loop_nofit HSZ HSZ_pos SZB base lo st0 L A n _ I ltac:(lia) Hsmall).
        assert (Hlt : lim st0 < brk st0 + grow_units n * HSZ) by lia.
        rewrite (morecore_fail _ st0 n Hw Hlt). reflexivity.
    - left.
      assert (Hfit : exists c, In c L /\ n <= snd c).
      { exists c. split; [|assumption]. rewrite E. apply in_or_app. right. now left. }
      split; [assumption|].
      destruct (loop_fit HSZ HSZ_pos SZB base lo st0 L A n I Hn Hfit)
        as (q & st' & L' & Hloop & I' & Hb' & Hl' & _).
      exists q, st', L'. split; [|auto].
      intros f Hf.
      replace f with (S (length L) + (f - S (length L)))%nat by lia.
      apply malloc_loop_mono. exact Hloop.
  Qed.

End Malloc.

(** * The unit count in 32-bit arithmetic *)

Lemma nunits_32_mod HSZ nbytes :
  nunits_of HSZ 32 nbytes =
  (((nbytes + HSZ - 1) mod 2 ^ 32 / HSZ + 1) mod 2 ^ 32) mod 2 ^ 32.
Proof.
  unfold nunits_of, wrap, u32.
  rewrite Zminus_mod_idemp_l. reflexivity.
Qed.

Lemma div_small_bound x HSZ : 8 <= HSZ -> 0 <= x < 2 ^ 32 -> 0 <= x / HSZ + 1 < 2 ^ 32.
Proof.
  intros H Hx.
  assert (0 <= x / HSZ) by (apply Z.div_pos; lia).
  assert (x / HSZ <= x / 8) by (apply Z.div_le_compat_l; lia).
  assert (x / 8 < 2 ^ 29).
  { apply Z.div_lt_upper_bound; [lia|]. change (2 ^ 32) with (8 * 2 ^ 29) in Hx. lia. }
  change (2 ^ 32) with 4294967296. change (2 ^ 29) with 536870912 in *. lia.
Qed.

Lemma nunits_no_wrap_small HSZ SZB nbytes :
  8 <= HSZ -> 32 <= SZB -> 0 <= nbytes < 2 ^ 32 -> nbytes + HSZ < 2 ^ SZB ->
  nunits_no_wrap HSZ SZB nbytes.
Proof.
  intros HH HS Hn Hw. unfold nunits_no_wrap. cbv zeta.
  assert (P32 : 2 ^ 32 <= 2 ^ SZB) by (apply Z.pow_le_mono_r; lia).
  rewrite (wrap_small SZB (nbytes + HSZ)) by lia.
  rewrite (wrap_small SZB (nbytes + HSZ - 1)) by lia.
  assert (D0 : 0 <= (nbytes + HSZ - 1) / HSZ) by (apply Z.div_pos; lia).
  assert (D1 : (nbytes + HSZ - 1) / HSZ < 2 ^ 29 + 1).
  { apply Z.div_lt_upper_bound; [lia|].
    change (2 ^ 32) with 4294967296 in *. change (2 ^ 29) with 536870912. lia. }
  change (2 ^ 29) with 536870912 in D1.
  assert (P : 4294967296 <= 2 ^ SZB) by exact P32.
  rewrite (wrap_small SZB ((nbytes + HSZ - 1) / HSZ + 1)) by lia.
  rewrite u32_small by (change (2 ^ 32) with 4294967296; lia). auto.
Qed.

(** C10 (as amended).  The unit count is computed in [size_t].  Where
    [size_t] is wide enough for [2^32 * sizeof(Header)] (LP64), no step
    wraps and the count is exactly [ceil(nbytes / sizeof(Header)) + 1]
    for every [uint] [nbytes].  In 32-bit arithmetic the count is exact
    for every [nbytes] up to [2^32 - sizeof(Header)], no step wraps
    strictly below that bound, and above it the count is wrong (it
    collapses to 1). *)
Theorem nunits_exact (HSZ SZB nbytes : Z) :
  8 <= HSZ <= 2 ^ 32 -> 0 <= nbytes < 2 ^ 32 ->
  (32 <= SZB -> 2 ^ 32 * HSZ <= 2 ^ SZB ->
   nunits_no_wrap HSZ SZB nbytes /\
   nunits_of HSZ SZB nbytes = ceil_div nbytes HSZ + 1) /\
  (nbytes <= 2 ^ 32 - HSZ -> nunits_of HSZ 32 nbytes = ceil_div nbytes HSZ + 1) /\
  (nbytes < 2 ^ 32 - HSZ -> nunits_no_wrap HSZ 32 nbytes) /\
  (2 ^ 32 - HSZ < nbytes ->
   nunits_of HSZ 32 nbytes = 1 /\ nunits_of HSZ 32 nbytes <> ceil_div nbytes HSZ + 1).
Proof.
  intros HH Hn. split; [|split; [|split]].
  - intros HS Hw. split.
    + apply nunits_no_wrap_small; try lia; nia.
    + apply nunits_of_exact; try lia; nia.
  - intros Hle. rewrite nunits_32_mod, ceil_div_spec by lia.
    rewrite (Z.mod_small (nbytes + HSZ - 1)) by lia.
    pose proof (div_small_bound (nbytes + HSZ - 1) HSZ ltac:(lia) ltac:(lia)) as B.
    rewrite (Z.mod_small ((nbytes + HSZ - 1) / HSZ + 1)) by lia.
    apply Z.mod_small. lia.
  - intros Hlt. apply nunits_no_wrap_small; lia.
  - intros Hgt.
    assert (E : nunits_of HSZ 32 nbytes = 1).
    { rewrite nunits_32_mod.
      assert (Em : (nbytes + HSZ - 1) mod 2 ^ 32 = nbytes + HSZ - 1 - 2 ^ 32).
      { symmetry. apply Z.mod_unique with (q := 1); lia. }
      rewrite Em, Z.div_small by lia. reflexivity. }
    split; [exact E|]. rewrite E.
    pose proof (ceil_div_pos nbytes HSZ ltac:(lia) ltac:(lia)). lia.
Qed.

Lemma nunits_exact_witness :
  nunits_of 16 64 (2 ^ 32 - 1) = ceil_div (2 ^ 32 - 1) 16 + 1 /\
  nunits_of 8 32 100 = ceil_div 100 8 + 1 /\
  nunits_of 8 32 (2 ^ 32 - 1) = 1.
Proof.
  pose proof (nunits_exact 16 64 (2 ^ 32 - 1) ltac:(lia) ltac:(lia)) as (H0 & _).
  pose proof (nunits_exact 8 32 100 ltac:(lia) ltac:(lia)) as (_ & H1 & _ & _).
  pose proof (nunits_exact 8 32 (2 ^ 32 - 1) ltac:(lia) ltac:(lia)) as (_ & _ & _ & H3).
  split; [apply H0; [lia|vm_compute; discriminate]|].
  split; [apply H1; lia|apply H3; lia].
Defined.

(** C10 fails as stated.  In 32-bit arithmetic with [sizeof(Header) = 8],
    at the bound [nbytes = 2^32 - 8] itself the sum
    [nbytes + sizeof(Header)] wraps to 0 (the following [- 1] wraps
    back, so the result is still right).  And with [sizeof(Header) = 16]
    and a 64-bit [size_t], [nbytes = 2^32 - 1] lies above the bound, yet
    nothing wraps and the count is exact. *)
Lemma nunits_bound_not_sharp :
  (2 ^ 32 - 8 <= 2 ^ 32 - 8 /\
   wrap 32 (2 ^ 32 - 8 + 8) = 0 /\
   ~ nunits_no_wrap 8 32 (2 ^ 32 - 8)) /\
  (2 ^ 32 - 16 < 2 ^ 32 - 1 /\
   nunits_no_wrap 16 64 (2 ^ 32 - 1) /\
   nunits_of 16 64 (2 ^ 32 - 1) = ceil_div (2 ^ 32 - 1) 16 + 1).
Proof.
  split.
  - split; [lia|]. split; [reflexivity|].
    unfold nunits_no_wrap. cbv zeta. intros (H & _). vm_compute in H. discriminate.
  - split; [lia|]. split; [|reflexivity].
    unfold nunits_no_wrap. cbv zeta. repeat split.
Qed.

(** * What [malloc] does at a block that fits *)



(** * Termination of the scan of [free] *)

(** C7.  On a circular free list of [n] nodes (following the next links
    [n] times from the cursor leads back to it) that does not contain
    the block [bp] being freed, the scan of [free] stops at the [k]-th
    node for some [k < n]: it visits [k + 1 <= n] nodes, none twice.  It
    stops where the exit test holds, and when [bp] lies above every free
    block or below every free block that is the wrap pair
    ([p >= p->s.ptr]). *)
Theorem free_scan_terminates (st : state) (bp : Z) (n : nat) :
  (0 < n)%nat ->
  nth_node (mem st) n (freep st) = freep st ->
  (forall i, (i < n)%nat -> nth_node (mem st) i (freep st) <> bp) ->
  exists k,
    (k < n)%nat /\
    free_scan n (mem st) bp (freep st) = Some (nth_node (mem st) k (freep st)) /\
    free_scan (S k) (mem st) bp (freep st) = Some (nth_node (mem st) k (freep st)) /\
    free_scan k (mem st) bp (freep st) = None /\
    scan_stop (mem st) bp (nth_node (mem st) k (freep st)) = true /\
    (((forall i, (i < n)%nat -> nth_node (mem st) i (freep st) < bp) \/
      (forall i, (i < n)%nat -> bp < nth_node (mem st) i (freep st))) ->
     h_ptr (mem st (nth_node (mem st) k (freep st))) <= nth_node (mem st) k (freep st)).
Proof.
  intros Hn Hc Hne.
  set (m := mem st) in *. set (p := freep st) in *.
  destruct (free_scan n m bp p) as [q|] eqn:E.
  2:{ exfalso. apply (scan_stops_in_cycle m bp p n Hn Hc Hne).
      apply free_scan_none. exact E. }
  destruct (free_scan_some m bp n p q E) as (k & Hk & Hq & Hs & Hf & Hnone).
  exists k. subst q. split; [exact Hk|]. split; [reflexivity|]. split; [exact Hf|].
  split; [exact Hnone|]. split; [exact Hs|].
  intros Hside.
  assert (Hnext : exists j, (j < n)%nat /\ h_ptr (m (nth_node m k p)) = nth_node m j p).
  { rewrite <- (nth_node_succ m k p).
    destruct (Nat.eq_dec (S k) n) as [->|Hlt].
    - exists 0%nat. split; [lia|]. rewrite Hc. reflexivity.
    - exists (S k). split; [lia|reflexivity]. }
  destruct Hnext as (j & Hj & Ej).
  destruct (scan_stop_true m bp _ Hs) as [[C1 C2]|[C1 _]]; [|exact C1].
  exfalso. rewrite Ej in C2.
  destruct Hside as [Hb|Ha].
  - specialize (Hb j Hj). lia.
  - specialize (Ha k Hk). lia.
Qed.

(** * The chain in memory and the abstract list *)

Section Chain.

Variable HSZ : Z.
Hypothesis HSZ_pos : 0 < HSZ.
Variable base : Z.

Lemma lseg_sizes m : forall L x y,
    lseg m x L y -> forall b, In b L -> h_size (m (fst b)) = snd b.
  Proof.
    induction L as [|c L IH]; intros x y Hl b Hb; [destruct Hb|].
    cbn [lseg] in Hl. destruct Hl as (-> & Hs & Hl).
    destruct Hb as [<-|Hb]; [assumption|]. eapply IH; eassumption.
  Qed.

Lemma lseg_nth m : forall L x y i,
    lseg m x L y -> (i < length L)%nat -> nth_node m i x = fst (nth i L (0, 0)).
  Proof.
    induction L as [|c L IH]; intros x y i Hl Hi; [simpl in Hi; lia|].
    cbn [lseg] in Hl. destruct Hl as (-> & Hs & Hl).
    destruct i as [|i]; [reflexivity|].
    cbn [nth_node nth]. eapply IH; [eassumption|]. simpl in Hi. lia.
  Qed.

Lemma nodes_closed lo st L A x :
    Inv HSZ base lo st L A ->
    In x (base :: map fst L) -> In (h_ptr (mem st x)) (base :: map fst L).
  Proof.
    intros I Hx. destruct I.
    change (base :: map fst L) with (map fst ((base, 0) :: L)) in *.
    apply in_map_fst_split in Hx. destruct Hx as (F1 & sx & F2 & E).
    rewrite E in inv_chain0. apply lseg_app in inv_chain0.
    destruct inv_chain0 as (z & _ & H2).
    pose proof (lseg_first _ _ _ _ _ H2) as Ez. cbn [fst] in Ez. subst z.
    cbn [lseg fst snd] in H2. destruct H2 as (_ & _ & H2).
    destruct F2 as [|c F2]; cbn [lseg] in H2.
    - rewrite H2. now left.
    - destruct H2 as (-> & _). rewrite E, map_app. apply in_or_app. right. right. now left.
  Qed.

Lemma chain_in_nodes lo st L A :
    Inv HSZ base lo st L A ->
    forall x, on_chain st x -> In x (base :: map fst L).
  Proof.
    intros I x (k & <-). induction k as [|k IH].
    - destruct I. assumption.
    - rewrite nth_node_succ. eapply nodes_closed; eassumption.
  Qed.

Lemma nodes_on_chain lo st L A :
    Inv HSZ base lo st L A ->
    forall x, In x (base :: map fst L) -> on_chain st x.
  Proof.
    intros I x Hx.
    destruct (rotation HSZ HSZ_pos base _ _ _ _ I) as (G1 & sf & G2 & E & Hrot & _).
    change (base :: map fst L) with (map fst ((base, 0) :: L)) in Hx.
    rewrite E in Hx.
    assert (HxT : In x (map fst (G2 ++ G1 ++ [(freep st, sf)]))).
    { rewrite !map_app in *. apply in_app_or in Hx. apply in_or_app.
      destruct Hx as [Hx|[Hx|Hx]].
      - right. apply in_or_app. now left.
      - right. apply in_or_app. right. now left.
      - now left. }
    apply in_map_iff in HxT. destruct HxT as (b & Eb & Hb).
    destruct (In_nth _ _ (0, 0) Hb) as (i & Hi & En).
    exists (S i). cbn [nth_node].
    rewrite (lseg_nth _ _ _ _ _ Hrot Hi), En. exact Eb.
  Qed.

Lemma gaps_no_adj : forall F x,
    Forall (fun b => 0 <= snd b) F -> gaps HSZ x F ->
    forall b1 b2, In b1 F -> In b2 F -> fst b1 <> fst b2 -> blk_end HSZ b1 <> fst b2.
  Proof.
    induction F as [|b F IH]; intros x Hs Hg b1 b2 H1 H2 Hne; [destruct H1|].
    apply Forall_cons_iff in Hs. destruct Hs as [Hs1 Hs2].
    cbn [gaps] in Hg. destruct Hg as [Hg1 Hg2].
    pose proof (gaps_above HSZ HSZ_pos _ _ Hs2 Hg2) as Hab.
    pose proof Hs2 as Hs3.
    rewrite Forall_forall in Hab, Hs3.
    destruct H1 as [<-|H1], H2 as [<-|H2].
    - congruence.
    - specialize (Hab _ H2). lia.
    - specialize (Hab _ H1). specialize (Hs3 _ H1). unfold blk_end in *. nia.
    - exact (IH _ Hs2 Hg2 b1 b2 H1 H2 Hne).
  Qed.

  (** Invariant 3 follows from the abstract invariant. *)
Lemma inv_no_adjacent lo st L A :
    Inv HSZ base lo st L A -> no_adjacent HSZ st.
  Proof.
    intros I x y Hx Hy Hne.
    pose proof (chain_in_nodes _ _ _ _ I x Hx) as Nx.
    pose proof (chain_in_nodes _ _ _ _ I y Hy) as Ny.
    destruct (inv_full_facts HSZ HSZ_pos base _ _ _ _ I) as (Hn & Hg & _).
    destruct I.
    change (base :: map fst L) with (map fst ((base, 0) :: L)) in *.
    apply in_map_iff in Nx, Ny.
    destruct Nx as (bx & Ex & Hbx). destruct Ny as (by' & Ey & Hby).
    rewrite <- Ex, <- Ey in *.
    rewrite (lseg_sizes _ _ _ _ inv_chain0 bx Hbx).
    apply (gaps_no_adj _ _ Hn Hg); assumption.
  Qed.

Lemma inv_base_size lo st L A : Inv HSZ base lo st L A -> h_size (mem st base) = 0.
  Proof. intros I. destruct I. cbn [lseg fst snd] in inv_chain0. tauto. Qed.

Lemma inv_base_on_chain lo st L A : Inv HSZ base lo st L A -> on_chain st base.
  Proof. intros I. eapply nodes_on_chain; [exact I|now left]. Qed.

End Chain.

(** * Outcomes of the public operations *)

Section Outcomes.

Variable HSZ : Z.
Hypothesis HSZ_ge : 8 <= HSZ.
Variable SZB : Z.
Hypothesis SZB_ge : 32 <= SZB.
Variable base : Z.
Hypothesis wide : 2 ^ 32 * HSZ <= 2 ^ SZB.

Lemma malloc_mono f d st n r :
    malloc HSZ SZB base f st n = Some r -> malloc HSZ SZB base (f + d) st n = Some r.
  Proof. unfold malloc. apply malloc_loop_mono. Qed.

Lemma malloc_det f1 f2 st n r1 r2 :
    malloc HSZ SZB base f1 st n = Some r1 ->
    malloc HSZ SZB base f2 st n = Some r2 -> r1 = r2.
  Proof.
    intros H1 H2.
    apply (malloc_mono _ f2) in H1. apply (malloc_mono _ f1) in H2.
    rewrite Nat.add_comm in H2. congruence.
  Qed.

Lemma free_det f1 f2 st ap s1 s2 :
    free HSZ f1 st ap = Some s1 -> free HSZ f2 st ap = Some s2 -> s1 = s2.
  Proof.
    intros H1 H2.
    apply (free_fuel_mono HSZ _ f2) in H1. apply (free_fuel_mono HSZ _ f1) in H2.
    rewrite Nat.add_comm in H2. congruence.
  Qed.

Lemma morecore_det f1 f2 st n r1 r2 :
    morecore HSZ SZB f1 st n = Some r1 ->
    morecore HSZ SZB f2 st n = Some r2 -> r1 = r2.
  Proof.
    intros H1 H2.
    apply (morecore_fuel_mono HSZ SZB _ f2) in H1.
    apply (morecore_fuel_mono HSZ SZB _ f1) in H2.
    rewrite Nat.add_comm in H2. congruence.
  Qed.

  (** Whatever the fuel, a call of [malloc] that returns has one of two
      outcomes. *)
Lemma malloc_outcome lo st L A nbytes f r st' :
    Wf HSZ base lo st L A -> 0 <= nbytes < 2 ^ 32 ->
    malloc HSZ SZB base f st nbytes = Some (r, st') ->
    (r = NULL /\ st' = init base st /\
     Forall (fun b => snd b < nunits_of HSZ SZB nbytes) L /\
     lim (init base st) < brk (init base st) + grow_units (nunits_of HSZ SZB nbytes) * HSZ) \/
    (r <> NULL /\
     exists L', Inv HSZ base lo st' L' ((r - HSZ, nunits_of HSZ SZB nbytes) :: A)).
  Proof.
    intros W Hn Hm.
    pose proof (wf_init HSZ HSZ_ge base _ _ _ _ W) as I.
    destruct (malloc_spec HSZ HSZ_ge SZB SZB_ge base wide lo st L A nbytes I Hn)
      as [(_ & q & st1 & L1 & Hf & I1 & _)|[(_ & _ & q & st1 & L1 & N & Hf & I1 & _)|(Hs & Hl & Hf)]].
    - pose proof (malloc_det _ _ _ _ _ _ Hm (Hf _ (Nat.le_refl _))) as E.
      injection E as -> ->. right.
      assert (Hq : 0 < q).
      { destruct I1. apply Forall_cons_iff in inv_alloc0. destruct inv_alloc0 as [(Hq & _) _].
        cbn [fst] in Hq. lia. }
      split; [unfold NULL; lia|]. exists L1. replace (q + HSZ - HSZ) with q by ring. exact I1.
    - pose proof (malloc_det _ _ _ _ _ _ Hm (Hf _ (Nat.le_refl _))) as E.
      injection E as -> ->. right.
      assert (Hq : 0 < q).
      { destruct I1. apply Forall_cons_iff in inv_alloc0. destruct inv_alloc0 as [(Hq & _) _].
        cbn [fst] in Hq. lia. }
      split; [unfold NULL; lia|]. exists L1. replace (q + HSZ - HSZ) with q by ring. exact I1.
    - pose proof (malloc_det _ _ _ _ _ _ Hm (Hf _ (Nat.le_refl _))) as E.
      injection E as -> ->. left. auto.
  Qed.

Lemma malloc_outcome_inv lo st L A nbytes f r st' :
    Wf HSZ base lo st L A -> 0 <= nbytes < 2 ^ 32 ->
    malloc HSZ SZB base f st nbytes = Some (r, st') ->
    exists L' A',
      Inv HSZ base lo st' L' A' /\
      map (ptr_of HSZ) A' = (if r =? NULL then map (ptr_of HSZ) A else r :: map (ptr_of HSZ) A) /\
      (r <> NULL -> A' = (r - HSZ, nunits_of HSZ SZB nbytes) :: A).
  Proof.
    intros W Hn Hm.
    destruct (malloc_outcome _ _ _ _ _ _ _ _ W Hn Hm) as [(-> & -> & _)|(Hr & L' & I')].
    - exists L, A. split; [now apply wf_init|]. split; [reflexivity|]. intros; congruence.
    - exists L', ((r - HSZ, nunits_of HSZ SZB nbytes) :: A).
      split; [exact I'|]. split; [|reflexivity].
      replace (r =? NULL) with false by (symmetry; now apply Z.eqb_neq).
      cbn [map]. unfold ptr_of at 1. cbn [fst]. f_equal. ring.
  Qed.

  (** [free] of a live pointer, whatever the fuel it is run with. *)
Lemma free_outcome lo st L A1 b A2 f st' :
    Inv HSZ base lo st L (A1 ++ b :: A2) ->
    free HSZ f st (ptr_of HSZ b) = Some st' ->
    exists L', Inv HSZ base lo st' L' (A1 ++ A2).
  Proof.
    intros I Hf. destruct b as [bp s].
    destruct (free_inv HSZ ltac:(lia) base _ _ _ _ _ _ _ I) as (L' & pa & Hfree & I' & _).
    unfold ptr_of in Hf. cbn [fst] in Hf.
    rewrite (free_det _ _ _ _ _ _ Hf Hfree). exists L'. exact I'.
  Qed.

End Outcomes.

(** * Freeing the block that was just allocated *)

Section Reuse.

Variable HSZ : Z.
Hypothesis HSZ_pos : 0 < HSZ.
Variable base : Z.

Lemma split_unique (x : Z) : forall (P1 S1 P2 S2 : list block),
    P1 ++ S1 = P2 ++ S2 ->
    Forall (fun b => fst b < x) P1 -> Forall (fun b => x < fst b) S1 ->
    Forall (fun b => fst b < x) P2 -> Forall (fun b => x < fst b) S2 ->
    P1 = P2 /\ S1 = S2.
  Proof.
    induction P1 as [|a P1 IH]; intros S1 P2 S2 E H1 H2 H3 H4.
    - destruct P2 as [|b P2]; [auto|]. exfalso. cbn [app] in E. subst S1.
      apply Forall_cons_iff in H2, H3. destruct H2 as [H2 _]. destruct H3 as [H3 _]. lia.
    - destruct P2 as [|b P2]; cbn [app] in E.
      + exfalso. subst S2.
        apply Forall_cons_iff in H1, H4. destruct H1 as [H1 _]. destruct H4 as [H4 _]. lia.
      + injection E as <- E.
        apply Forall_cons_iff in H1, H3.
        destruct (IH S1 P2 S2 E (proj2 H1) H2 (proj2 H3) H4) as [-> ->]. auto.
  Qed.

Lemma gaps_order : forall F x,
    Forall (fun b => 0 <= snd b) F -> gaps HSZ x F ->
    forall b1 b2, In b1 F -> In b2 F ->
      b1 = b2 \/ blk_end HSZ b1 < fst b2 \/ blk_end HSZ b2 < fst b1.
  Proof.
    induction F as [|b F IH]; intros x Hs Hg b1 b2 H1 H2; [destruct H1|].
    apply Forall_cons_iff in Hs. destruct Hs as [Hs1 Hs2].
    cbn [gaps] in Hg. destruct Hg as [Hg1 Hg2].
    pose proof (gaps_above HSZ HSZ_pos _ _ Hs2 Hg2) as Hab.
    rewrite Forall_forall in Hab.
    destruct H1 as [<-|H1], H2 as [<-|H2].
    - now left.
    - right. left. now apply Hab.
    - right. right. now apply Hab.
    - exact (IH _ Hs2 Hg2 b1 b2 H1 H2).
  Qed.

Lemma last_end_snoc x F b : last_end HSZ x (F ++ [b]) = blk_end HSZ b.
  Proof. rewrite last_end_app. reflexivity. Qed.

  (** Freeing the block that [malloc] has just carved from [(c, sp)]
      puts the list back as it was. *)
Lemma free_restores lo st1 A K1 c sp F2 n :
    0 < n <= sp ->
    Inv HSZ base lo st1 (K1 ++ remainder c sp n ++ F2) ((c + (sp - n) * HSZ, n) :: A) ->
    gaps HSZ base (K1 ++ (c, sp) :: F2) ->
    exists pa,
      free HSZ (S (length (K1 ++ remainder c sp n ++ F2))) st1 (c + (sp - n) * HSZ + HSZ)
        = Some (free_link HSZ st1 (c + (sp - n) * HSZ) pa) /\
      Inv HSZ base lo (free_link HSZ st1 (c + (sp - n) * HSZ) pa) (K1 ++ (c, sp) :: F2) A.
  Proof.
    intros Hn I1 G.
    set (q := c + (sp - n) * HSZ) in *.
    set (L1 := K1 ++ remainder c sp n ++ F2) in *.
    destruct (free_inv HSZ HSZ_pos base lo st1 L1 [] q n A I1)
      as (L' & pa & Hfree & I' & _ & (Fp & ps & L2 & s1 & L2' & X & E & E' & C & R1 & R2)).
    exists pa. split; [exact Hfree|].
    cbn [app] in I'.
    replace (K1 ++ (c, sp) :: F2) with L'; [exact I'|].
    (* sizes and gaps of the pieces *)
    pose proof (inv_free _ _ _ _ _ _ I1) as Hheap.
    pose proof (in_heap_nonneg HSZ _ _ _ Hheap) as Hnn. unfold L1 in Hnn.
    apply Forall_app in Hnn. destruct Hnn as [HnK Hnn].
    apply Forall_app in Hnn. destruct Hnn as [_ HnF].
    pose proof G as G0. apply gaps_app in G0. destruct G0 as [GK GcF].
    cbn [gaps fst] in GcF. destruct GcF as [Gc GF].
    unfold blk_end in GF. cbn [fst snd] in GF.
    pose proof (gaps_above HSZ HSZ_pos _ _ HnF GF) as HF2.
    pose proof (gaps_end_le HSZ HSZ_pos _ _ HnK GK) as HK1.
    pose proof (last_end_ge HSZ HSZ_pos _ _ HnK GK) as Hle.
    assert (Hbq : base < q) by (unfold q; nia).
    (* the split found by [free] is the one we know *)
    assert (HP : Forall (fun b => fst b < q) ((base, 0) :: K1 ++ remainder c sp n)).
    { constructor; [simpl; lia|]. apply Forall_app. split.
      - rewrite Forall_forall in HK1, HnK |- *. intros b Hb.
        specialize (HK1 _ Hb). specialize (HnK _ Hb). unfold blk_end in HK1. unfold q. nia.
      - unfold remainder. destruct (Z.eqb_spec sp n); constructor; [|constructor].
        simpl. unfold q. nia. }
    assert (HS : Forall (fun b => q < fst b) F2).
    { eapply Forall_impl; [|exact HF2]. cbn beta. intros b Hb. unfold q. nia. }
    pose proof (split_facts HSZ HSZ_pos _ base Fp L2 pa ps (fc_seg _ _ _ _ _ _ _ _ _ _ _ C)
                  (fc_sz _ _ _ _ _ _ _ _ _ _ _ C) (fc_gap _ _ _ _ _ _ _ _ _ _ _ C)) as F.
    destruct F as (HlFp & _ & _ & SFp & Hps & _ & GFp & _ & _).
    assert (HP' : Forall (fun b => fst b < q) (Fp ++ [(pa, ps)])).
    { apply Forall_app. split.
      - rewrite Forall_forall. intros b Hb.
        destruct (seg_next_bounds HSZ HSZ_pos _ _ _ _ _ _ HlFp SFp GFp b Hb) as (_ & B2 & B3).
        pose proof (fc_pa _ _ _ _ _ _ _ _ _ _ _ C). lia.
      - constructor; [|constructor]. exact (fc_pa _ _ _ _ _ _ _ _ _ _ _ C). }
    assert (Esplit : ((base, 0) :: K1 ++ remainder c sp n) ++ F2 = (Fp ++ [(pa, ps)]) ++ L2).
    { rewrite <- app_assoc. cbn [app]. rewrite <- E. unfold L1.
      cbn [app]. now rewrite <- app_assoc. }
    destruct (split_unique q _ _ _ _ Esplit HP HS HP' (fc_L2 _ _ _ _ _ _ _ _ _ _ _ C))
      as [EP ES].
    subst L2.
    (* no forward merge: the old block ended strictly below its successor *)
    assert (R1' : s1 = n /\ L2' = F2).
    { destruct R1 as [(-> & -> & _)|(sc & EF & _ & _)]; [auto|]. exfalso.
      rewrite EF in HF2. apply Forall_cons_iff in HF2. destruct HF2 as [HF2 _].
      cbn [fst] in HF2. unfold q in HF2. lia. }
    destruct R1' as [-> ->].
    assert (Eend : blk_end HSZ (pa, ps) = last_end HSZ base (K1 ++ remainder c sp n)).
    { rewrite <- (last_end_snoc (base - 1) Fp (pa, ps)), <- EP.
      cbn [last_end]. unfold blk_end at 1. cbn [fst snd].
      replace (base + 0 * HSZ) with base by ring. reflexivity. }
    unfold remainder in *.
    destruct (Z.eqb_spec sp n) as [Eq|Ne].
    - (* the whole block was taken *)
      rewrite app_nil_r in Eend, EP. unfold blk_end in Eend. cbn [fst snd] in Eend.
      assert (Eq' : q = c) by (unfold q; rewrite Eq; ring).
      destruct R2 as [(-> & _)|(_ & Hc & _)]; [|lia].
      assert (EL : (base, 0) :: L' = (base, 0) :: K1 ++ (c, sp) :: F2).
      { rewrite E'. cbn [app].
        change (Fp ++ (pa, ps) :: (q, n) :: F2) with (Fp ++ [(pa, ps)] ++ (q, n) :: F2).
        rewrite app_assoc, <- EP, Eq', Eq. reflexivity. }
      now injection EL.
    - (* the tail was carved off: the remainder absorbs it again *)
      change (K1 ++ [(c, sp - n)]) with (K1 ++ [(c, sp - n)]) in *.
      assert (EP' : ((base, 0) :: K1) ++ [(c, sp - n)] = Fp ++ [(pa, ps)]).
      { rewrite <- EP. reflexivity. }
      apply app_inj_tail in EP'. destruct EP' as [EFp Epa]. injection Epa as <- <-.
      destruct R2 as [(_ & Hc)|(-> & _ & _)]; [unfold q in Hc; lia|].
      assert (EL : (base, 0) :: L' = (base, 0) :: K1 ++ (c, sp) :: F2).
      { rewrite E', <- EFp. cbn [app]. replace (sp - n + n) with sp by ring. reflexivity. }
      now injection EL.
  Qed.

End Reuse.

(** * [malloc] and [free] on well-formed states: main results *)

Section Claims.

Variable HSZ : Z.
Hypothesis HSZ_ge : 8 <= HSZ.
Variable SZB : Z.
Hypothesis SZB_ge : 32 <= SZB.
Variable base : Z.
Hypothesis wide : 2 ^ 32 * HSZ <= 2 ^ SZB.

Lemma init_brk_lim st : brk (init base st) = brk st /\ lim (init base st) = lim st.
  Proof. unfold init. destruct (freep st =? NULL); auto. Qed.

Lemma wf_live_inv lo st L A b :
    Wf HSZ base lo st L A -> In b A -> Inv HSZ base lo st L A.
  Proof. intros [I|(_ & _ & ->)] Hb; [assumption|destruct Hb]. Qed.

Lemma nunits_zero : nunits_of HSZ SZB 0 = 1.
  Proof.
    destruct (nunits_wide HSZ HSZ_ge SZB SZB_ge wide 0) as (E & _).
    { change (2 ^ 32) with 4294967296. lia. }
    rewrite E. unfold ceil_div. rewrite Z.div_0_l, Z.mod_0_l by lia. reflexivity.
  Qed.

(** C8.  On a well-formed state that has a free block or can still
    grow, [malloc(0)] returns a non-null pointer, different from every
    live pointer, to a block of exactly one unit that lies in the
    managed region clear of every live block. *)
Theorem malloc_zero lo st L A :
    Wf HSZ base lo st L A ->
    L <> [] \/ brk st + 4096 * HSZ <= lim st ->
    exists N r st' L',
      (forall f, (N <= f)%nat -> malloc HSZ SZB base f st 0 = Some (r, st')) /\
      r <> NULL /\
      Forall (fun a => r <> ptr_of HSZ a) A /\
      h_size (mem st' (r - HSZ)) = 1 /\
      Inv HSZ base lo st' L' ((r - HSZ, 1) :: A).
  Proof.
    intros W Hav. assert (HSZ_pos : 0 < HSZ) by lia.
    pose proof (wf_init HSZ HSZ_ge base _ _ _ _ W) as I.
    destruct (init_brk_lim st) as [Eb El].
    assert (Hr : 0 <= 0 < 2 ^ 32) by (change (2 ^ 32) with 4294967296; lia).
    assert (Hdone : forall q st' L' N,
               (forall f, (N <= f)%nat -> malloc HSZ SZB base f st 0 = Some (q + HSZ, st')) ->
               Inv HSZ base lo st' L' ((q, 1) :: A) ->
               exists N r st' L',
                 (forall f, (N <= f)%nat -> malloc HSZ SZB base f st 0 = Some (r, st')) /\
                 r <> NULL /\ Forall (fun a => r <> ptr_of HSZ a) A /\
                 h_size (mem st' (r - HSZ)) = 1 /\
                 Inv HSZ base lo st' L' ((r - HSZ, 1) :: A)).
    { intros q st' L' N Hf I'. exists N, (q + HSZ), st', L'.
      replace (q + HSZ - HSZ) with q by ring.
      split; [exact Hf|].
      pose proof I' as J. destruct J.
      apply Forall_cons_iff in inv_alloc0. destruct inv_alloc0 as [(Hq & _) HA].
      apply Forall_cons_iff in inv_asize0. destruct inv_asize0 as [Hs _].
      cbn [pairwise_disj] in inv_adisj0. destruct inv_adisj0 as [Hd _].
      cbn [fst snd] in *.
      split; [unfold NULL; lia|]. split; [|split; [exact Hs|]].
      - rewrite Forall_forall in *. intros a Ha. unfold ptr_of.
        specialize (Hd _ Ha). destruct (HA _ Ha) as (_ & Hp & _).
        apply (disj_neq HSZ HSZ_pos) in Hd; cbn [fst snd] in *; lia.
      - exact I'. }
    pose proof (malloc_spec HSZ HSZ_ge SZB SZB_ge base wide lo st L A 0 I Hr) as S.
    cbv zeta in S. rewrite nunits_zero, Eb, El in S.
    change (grow_units 1) with 4096 in S.
    destruct S as [(_ & q & st' & L' & Hf & I' & _)
                  |[(_ & _ & q & st' & L' & N & Hf & I' & _)|(Hs & Hl & _)]].
    - eapply Hdone; eassumption.
    - eapply Hdone; eassumption.
    - exfalso. destruct Hav as [Hne|Hg]; [|lia].
      destruct L as [|b L0]; [congruence|].
      apply Forall_cons_iff in Hs. destruct Hs as [Hs _].
      destruct I. apply Forall_cons_iff in inv_free0. destruct inv_free0 as [(_ & Hp & _) _].
      lia.
  Qed.

(** C1.  For every [uint] [nbytes], on a well-formed state: a non-null
    pointer returned by [malloc] is the address one header unit past a
    block header; that header records
    [ceil(nbytes / sizeof(Header)) + 1] units, so the usable region
    holds at least [nbytes] bytes; the pointer is a multiple of
    [sizeof(Header)]; and the block lies inside the managed region.
    ([size_t] holds [2^32 * sizeof(Header)], as on LP64.) *)
Theorem malloc_pointer_ok lo st L A nbytes f r st' :
    Wf HSZ base lo st L A -> uint_range nbytes ->
    malloc HSZ SZB base f st nbytes = Some (r, st') -> r <> NULL ->
    exists hdr,
      r = hdr + HSZ /\
      h_size (mem st' hdr) = ceil_div nbytes HSZ + 1 /\
      nbytes <= (h_size (mem st' hdr) - 1) * HSZ /\
      r mod HSZ = 0 /\
      lo <= hdr /\ hdr + h_size (mem st' hdr) * HSZ <= brk st'.
  Proof.
    intros W Hn Hm Hr.
    destruct (malloc_outcome HSZ HSZ_ge SZB SZB_ge base wide _ _ _ _ _ _ _ _ W Hn Hm)
      as [(E & _)|(_ & L' & I')]; [congruence|].
    destruct (nunits_wide HSZ HSZ_ge SZB SZB_ge wide nbytes Hn) as (E1 & E2 & E3).
    destruct I'.
    apply Forall_cons_iff in inv_alloc0. destruct inv_alloc0 as [(H1 & H2 & H3 & H4) _].
    apply Forall_cons_iff in inv_asize0. destruct inv_asize0 as [Hs _].
    unfold blk_end in H4. cbn [fst snd] in *.
    exists (r - HSZ). rewrite Hs.
    split; [ring|]. split; [exact E1|]. split; [exact E3|].
    split; [|split; assumption].
    replace r with (r - HSZ + 1 * HSZ) by ring.
    rewrite Z.mod_add by lia. exact H3.
  Qed.

(** C3 (as amended).  When no free block fits and the growth primitive
    fails, [malloc] returns 0; whenever [malloc] returns 0 the state
    is the one left by the lazy initialisation step; that state is
    the state before the call when the list was already initialised,
    and on the very first call differs from it only in the cursor and
    the sentinel's header. *)
Theorem malloc_oom_unchanged lo st L A nbytes :
    Wf HSZ base lo st L A -> uint_range nbytes ->
    (Forall (fun b => snd b < nunits_of HSZ SZB nbytes) L ->
     lim st < brk st + grow_units (nunits_of HSZ SZB nbytes) * HSZ ->
     forall f, (S (length L) <= f)%nat ->
               malloc HSZ SZB base f st nbytes = Some (NULL, init base st)) /\
    (forall f st', malloc HSZ SZB base f st nbytes = Some (NULL, st') ->
                   st' = init base st) /\
    (freep st <> NULL -> init base st = st) /\
    (forall x, x <> base -> mem (init base st) x = mem st x) /\
    brk (init base st) = brk st /\ lim (init base st) = lim st.
  Proof.
    intros W Hn.
    pose proof (wf_init HSZ HSZ_ge base _ _ _ _ W) as I.
    destruct (init_brk_lim st) as [Eb El].
    split; [|split; [|split; [|split; [|split; assumption]]]].
    - intros Hs Hl f Hf.
      destruct (malloc_spec HSZ HSZ_ge SZB SZB_ge base wide lo st L A nbytes I Hn)
        as [((c & Hc1 & Hc2) & _)|[(_ & Hg & _)|(_ & _ & Hoom)]].
      + rewrite Forall_forall in Hs. specialize (Hs _ Hc1). lia.
      + rewrite Eb, El in Hg. lia.
      + now apply Hoom.
    - intros f st' Hm.
      destruct (malloc_outcome HSZ HSZ_ge SZB SZB_ge base wide _ _ _ _ _ _ _ _ W Hn Hm)
        as [(_ & E & _)|(Hr & _)]; [assumption|congruence].
    - intros Hf. unfold init. now rewrite (proj2 (Z.eqb_neq _ _) Hf).
    - intros x Hx. unfold init. destruct (freep st =? NULL); [|reflexivity].
      cbn [mem]. now rewrite set_size_other, set_ptr_other.
  Qed.

Lemma remove_first_split ap : forall A,
    In ap (map (ptr_of HSZ) A) ->
    exists A1 b A2, A = A1 ++ b :: A2 /\ ptr_of HSZ b = ap /\
                    remove_first ap (map (ptr_of HSZ) A) = map (ptr_of HSZ) (A1 ++ A2).
  Proof.
    induction A as [|b A IH]; intros Hin; [destruct Hin|].
    cbn [map remove_first].
    destruct (Z.eqb_spec ap (ptr_of HSZ b)) as [E|Ne].
    - exists [], b, A. auto.
    - destruct Hin as [Hin|Hin]; [congruence|].
      destruct (IH Hin) as (A1 & c & A2 & -> & Ec & Er).
      exists (b :: A1), c, A2. cbn [app map]. rewrite Er. auto.
  Qed.

  (** Every run of a client from an initialised state ends in a
      well-formed initialised state whose live blocks are the client's
      live pointers. *)
Lemma run_inv lo f : forall ops st L A st' live',
    Inv HSZ base lo st L A -> Forall op_ok ops ->
    run HSZ SZB base f st (map (ptr_of HSZ) A) ops = Some (st', live') ->
    exists L' A', Inv HSZ base lo st' L' A' /\ live' = map (ptr_of HSZ) A'.
  Proof.
    induction ops as [|o ops IH]; intros st L A st' live' I Hok Hrun.
    - cbn [run] in Hrun. injection Hrun as <- <-. eauto.
    - apply Forall_cons_iff in Hok. destruct Hok as [Ho Hok].
      destruct o as [n|ap]; cbn [run] in Hrun.
      + destruct (malloc HSZ SZB base f st n) as [[r st1]|] eqn:Em; [|discriminate].
        destruct (malloc_outcome_inv HSZ HSZ_ge SZB SZB_ge base wide lo st L A n f r st1
                    (or_introl I) Ho Em) as (L1 & A1 & I1 & E1 & _).
        rewrite <- E1 in Hrun. eapply IH; eassumption.
      + destruct (existsb (Z.eqb ap) (map (ptr_of HSZ) A)) eqn:Ex; [|discriminate].
        apply existsb_exists in Ex. destruct Ex as (x & Hx & Ex).
        apply Z.eqb_eq in Ex. subst x.
        destruct (remove_first_split ap A Hx) as (A1 & b & A2 & -> & Eb & Er).
        rewrite Er in Hrun.
        destruct (free HSZ f st ap) as [st1|] eqn:Ef; [|discriminate].
        rewrite <- Eb in Ef.
        destruct (free_outcome HSZ HSZ_ge SZB base lo st L A1 b A2 f st1 I Ef) as (L1 & I1).
        eapply IH; eassumption.
  Qed.

  (** Hence every state a client can reach from a fresh process is
      well-formed. *)
Lemma run_wf lo f : forall ops st L A st' live',
    Wf HSZ base lo st L A -> Forall op_ok ops ->
    run HSZ SZB base f st (map (ptr_of HSZ) A) ops = Some (st', live') ->
    exists L' A', Wf HSZ base lo st' L' A' /\ live' = map (ptr_of HSZ) A'.
  Proof.
    intros ops st L A st' live' W Hok Hrun.
    destruct W as [I|(I0 & -> & ->)].
    - destruct (run_inv lo f ops st L A st' live' I Hok Hrun) as (L' & A' & I' & E).
      exists L', A'. split; [now left|exact E].
    - destruct ops as [|o ops]; cbn [run map] in Hrun.
      + injection Hrun as <- <-. exists [], []. split; [right; auto|reflexivity].
      + apply Forall_cons_iff in Hok. destruct Hok as [Ho Hok].
        destruct o as [n|ap]; [|cbn [existsb] in Hrun; discriminate].
        destruct (malloc HSZ SZB base f st n) as [[r st1]|] eqn:Em; [|discriminate].
        destruct (malloc_outcome_inv HSZ HSZ_ge SZB SZB_ge base wide lo st [] [] n f r st1
                    (or_intror (conj I0 (conj eq_refl eq_refl))) Ho Em)
          as (L1 & A1 & I1 & E1 & _).
        cbn [map] in E1. rewrite <- E1 in Hrun.
        destruct (run_inv lo f ops st1 L1 A1 st' live' I1 Hok Hrun) as (L' & A' & I' & E).
        exists L', A'. split; [now left|exact E].
  Qed.

(** C9.  From any initialised well-formed state, after any run of
    [malloc] and [free] calls by a client: the sentinel [base] still
    has size 0 and is still on the chain, the list is still
    initialised, and no live pointer is the sentinel's; every
    non-null pointer a further [malloc] returns belongs to a block of
    the requested unit count, which is at least 1, other than the
    sentinel, and the sentinel is still intact afterwards. *)
Theorem sentinel_preserved lo st L A ops f st' live' :
    Inv HSZ base lo st L A -> Forall op_ok ops ->
    run HSZ SZB base f st (map (ptr_of HSZ) A) ops = Some (st', live') ->
    h_size (mem st' base) = 0 /\
    on_chain st' base /\
    freep st' <> NULL /\
    Forall (fun r => r - HSZ <> base /\ 1 <= h_size (mem st' (r - HSZ))) live' /\
    (forall nbytes f' r st'', uint_range nbytes ->
       malloc HSZ SZB base f' st' nbytes = Some (r, st'') -> r <> NULL ->
       r - HSZ <> base /\
       1 <= nunits_of HSZ SZB nbytes /\
       h_size (mem st'' (r - HSZ)) = nunits_of HSZ SZB nbytes /\
       h_size (mem st'' base) = 0 /\ on_chain st'' base).
  Proof.
    intros I Hok Hrun. assert (HSZ_pos : 0 < HSZ) by lia.
    destruct (run_inv lo f ops st L A st' live' I Hok Hrun) as (L' & A' & I' & ->).
    split; [eapply inv_base_size; eassumption|].
    split; [eapply inv_base_on_chain; eassumption|].
    split; [pose proof (inv_freep_pos HSZ HSZ_ge base _ _ _ _ I'); unfold NULL; lia|].
    split.
    - pose proof I' as J. destruct J.
      rewrite Forall_forall in *. intros r Hr.
      apply in_map_iff in Hr. destruct Hr as (b & <- & Hb).
      unfold ptr_of. replace (fst b + HSZ - HSZ) with (fst b) by ring.
      destruct (inv_alloc0 _ Hb) as (H1 & H2 & _).
      rewrite (inv_asize0 _ Hb). lia.
    - intros nbytes f' r st'' Hn Hm Hr.
      destruct (malloc_outcome HSZ HSZ_ge SZB SZB_ge base wide lo st' L' A' nbytes f' r st''
                  (or_introl I') Hn Hm) as [(E & _)|(_ & L2 & I2)]; [congruence|].
      destruct (nunits_wide HSZ HSZ_ge SZB SZB_ge wide nbytes Hn) as (_ & E2 & _).
      pose proof I2 as J. destruct J.
      apply Forall_cons_iff in inv_alloc0. destruct inv_alloc0 as [(H1 & _) _].
      apply Forall_cons_iff in inv_asize0. destruct inv_asize0 as [Hs _].
      cbn [fst snd] in *.
      split; [lia|]. split; [lia|]. split; [exact Hs|].
      split; [exact (inv_base_size HSZ base _ _ _ _ I2)
             |exact (inv_base_on_chain HSZ HSZ_pos base _ _ _ _ I2)].
  Qed.

Lemma pairwise_disj_rev l : pairwise_disj HSZ (rev l) -> pairwise_disj HSZ l.
  Proof.
    induction l as [|a l IH]; [auto|].
    cbn [rev pairwise_disj]. intros H.
    apply pairwise_disj_app in H. destruct H as (H1 & _ & H3).
    split; [|now apply IH].
    rewrite Forall_forall in *. intros b Hb.
    apply in_rev in Hb. specialize (H3 _ Hb).
    apply Forall_cons_iff in H3. destruct H3 as [H3 _]. now apply disj_sym.
  Qed.

Lemma pairwise_disj_usable l :
    pairwise_disj HSZ l -> pairwise (usable_disj HSZ) l.
  Proof.
    induction l as [|a l IH]; [auto|].
    cbn [pairwise_disj pairwise]. intros [H1 H2]. split; [|now apply IH].
    eapply Forall_impl; [|exact H1]. intros b. unfold disj, usable_disj, blk_end. lia.
  Qed.

Lemma malloc_seq_inv lo f : forall reqs st L A ps st',
    Wf HSZ base lo st L A -> Forall uint_range reqs ->
    malloc_seq HSZ SZB base f st reqs = Some (ps, st') ->
    Forall (fun p => p <> NULL) ps ->
    exists L', Wf HSZ base lo st' L' (rev (blocks_of HSZ SZB ps reqs) ++ A).
  Proof.
    induction reqs as [|n reqs IH]; intros st L A ps st' W Hok Hseq Hnn.
    - cbn [malloc_seq] in Hseq. injection Hseq as <- <-. exists L. exact W.
    - apply Forall_cons_iff in Hok. destruct Hok as [Hn Hok].
      cbn [malloc_seq] in Hseq.
      destruct (malloc HSZ SZB base f st n) as [[p st1]|] eqn:Em; [|discriminate].
      destruct (malloc_seq HSZ SZB base f st1 reqs) as [[ps1 st2]|] eqn:Es; [|discriminate].
      injection Hseq as <- <-.
      apply Forall_cons_iff in Hnn. destruct Hnn as [Hp Hnn].
      destruct (malloc_outcome HSZ HSZ_ge SZB SZB_ge base wide lo st L A n f p st1 W Hn Em)
        as [(E & _)|(_ & L1 & I1)]; [congruence|].
      destruct (IH st1 L1 _ ps1 st2 (or_introl I1) Hok Es Hnn) as (L' & W').
      exists L'. unfold blocks_of in *. cbn [map combine rev].
      rewrite <- app_assoc. exact W'.
  Qed.

(** C4.  For a sequence of [malloc] calls on a well-formed state that
    all return non-null pointers: each pointer's block records the
    unit count of its request, the blocks (headers included) are
    pairwise disjoint, and so are their usable regions. *)
Theorem malloc_seq_disjoint lo st L A reqs f ps st' :
    Wf HSZ base lo st L A -> Forall uint_range reqs ->
    malloc_seq HSZ SZB base f st reqs = Some (ps, st') ->
    Forall (fun p => p <> NULL) ps ->
    length ps = length reqs /\
    Forall (fun b => h_size (mem st' (fst b)) = snd b) (blocks_of HSZ SZB ps reqs) /\
    pairwise_disj HSZ (blocks_of HSZ SZB ps reqs) /\
    pairwise (usable_disj HSZ) (blocks_of HSZ SZB ps reqs).
  Proof.
    intros W Hok Hseq Hnn.
    destruct (malloc_seq_inv lo f reqs st L A ps st' W Hok Hseq Hnn) as (L' & W').
    split.
    { clear - Hseq. revert st ps st' Hseq.
      induction reqs as [|n reqs IH]; intros st ps st' Hseq; cbn [malloc_seq] in Hseq.
      - injection Hseq as <- <-. reflexivity.
      - destruct (malloc HSZ SZB base f st n) as [[p st1]|]; [|discriminate].
        destruct (malloc_seq HSZ SZB base f st1 reqs) as [[ps1 st2]|] eqn:Es; [|discriminate].
        injection Hseq as <- <-. cbn [length]. f_equal. eapply IH; eassumption. }
    destruct (blocks_of HSZ SZB ps reqs) as [|b0 bl] eqn:Eb.
    { repeat split; constructor. }
    assert (I' : Inv HSZ base lo st' L' (rev (b0 :: bl) ++ A)).
    { destruct W' as [I'|(_ & _ & E)]; [assumption|].
      apply (f_equal (@length _)) in E. rewrite length_app, length_rev in E.
      cbn [length] in E. lia. }
    destruct I'.
    apply pairwise_disj_app in inv_adisj0. destruct inv_adisj0 as (Hd & _).
    apply pairwise_disj_rev in Hd.
    apply Forall_app in inv_asize0. destruct inv_asize0 as [Hs _].
    apply Forall_rev in Hs. rewrite rev_involutive in Hs.
    split; [exact Hs|]. split; [exact Hd|]. now apply pairwise_disj_usable.
  Qed.

  (** A successful [malloc] in detail: the list [Lp] it took the block
      from (the list before the call, or the list after growing), the
      block [(c, sp)] chosen and the list left behind. *)
Lemma malloc_detail lo st L A nbytes :
    Inv HSZ base lo (init base st) L A -> uint_range nbytes ->
    unique_fit (nunits_of HSZ SZB nbytes) L ->
    (exists c, In c L /\ nunits_of HSZ SZB nbytes <= snd c) \/
    brk st + grow_units (nunits_of HSZ SZB nbytes) * HSZ <= lim st ->
    exists N s1 K1 c sp F2,
      (forall f, (N <= f)%nat ->
         malloc HSZ SZB base f st nbytes
           = Some (c + (sp - nunits_of HSZ SZB nbytes) * HSZ + HSZ, s1)) /\
      nunits_of HSZ SZB nbytes <= sp /\
      gaps HSZ base (K1 ++ (c, sp) :: F2) /\
      unique_fit (nunits_of HSZ SZB nbytes) (K1 ++ (c, sp) :: F2) /\
      Inv HSZ base lo s1
          (K1 ++ remainder c sp (nunits_of HSZ SZB nbytes) ++ F2)
          ((c + (sp - nunits_of HSZ SZB nbytes) * HSZ, nunits_of HSZ SZB nbytes) :: A).
  Proof.
    intros I Hnb Hu Hav. assert (HSZ_pos : 0 < HSZ) by lia.
    destruct (nunits_wide HSZ HSZ_ge SZB SZB_ge wide nbytes Hnb) as (_ & Hn & _).
    set (n := nunits_of HSZ SZB nbytes) in *.
    set (st0 := init base st) in *.
    destruct (init_brk_lim st) as [Eb El]. fold st0 in Eb, El.
    destruct (first_fit n L) as [Hsmall|(T1 & c0 & T2 & E0 & _ & Hbig)].
    - (* nothing fits: grow first *)
      assert (Hg : brk st0 + grow_units n * HSZ <= lim st0).
      { destruct Hav as [(c & Hc1 & Hc2)|Hg]; [|lia].
        rewrite Forall_forall in Hsmall. specialize (Hsmall _ Hc1). lia. }
      destruct (morecore_spec HSZ HSZ_pos SZB base wide lo st0 L A n (S (length L))
                  I Hn ltac:(lia)) as [[Hf _]|(_ & st1 & L1 & Hm & I1 & Hb & Hl & Hc & Hold)].
      { fold (grow_units n) in Hf. lia. }
      fold (grow_units n) in Hb, Hold.
      destruct (loop_fit HSZ HSZ_pos SZB base lo st1 L1 A n I1 Hn Hc)
        as (q & st' & L' & Hloop & I' & _ & _ & (K1 & c & sp & F2 & EL1 & Hsp & Eq & EL')).
      exists (S (length L) + (S (length L) + S (length L1)))%nat, st', K1, c, sp, F2.
      subst q L'. fold (remainder c sp n) in I'.
      split; [|split; [exact Hsp|split; [|split; [|exact I']]]].
      + intros f Hf. unfold malloc. fold st0. fold n.
        replace f with (S (length L) + (f - S (length L)))%nat by lia.
        rewrite (loop_nofit HSZ HSZ_pos SZB base lo st0 L A n _ I ltac:(lia) Hsmall).
        replace (f - S (length L))%nat
          with (S (length L) + (f - S (length L) - S (length L)))%nat by lia.
        rewrite (morecore_fuel_mono HSZ SZB _ _ _ _ _ Hm).
        assert (Hfp : (freep st1 =? NULL) = false).
        { apply Z.eqb_neq. pose proof (inv_freep_pos HSZ HSZ_ge base _ _ _ _ I1).
          unfold NULL. lia. }
        rewrite Hfp.
        replace (S (length L) + (f - S (length L) - S (length L)))%nat
          with (S (length L1) + (f - S (length L) - S (length L1)))%nat by lia.
        apply malloc_loop_mono. exact Hloop.
      + rewrite <- EL1. exact (inv_gaps _ _ _ _ _ _ I1).
      + rewrite <- EL1. intros b1 b2 H1 H2 F1 F2'.
        rewrite Forall_forall in Hsmall.
        destruct (Hold _ H1) as [O1|[C1 C1']]; [specialize (Hsmall _ O1); lia|].
        destruct (Hold _ H2) as [O2|[C2 C2']]; [specialize (Hsmall _ O2); lia|].
        pose proof (in_heap_nonneg HSZ _ _ _ (inv_free _ _ _ _ _ _ I1)) as Hnn.
        destruct (gaps_order HSZ HSZ_pos _ _ Hnn (inv_gaps _ _ _ _ _ _ I1) b1 b2 H1 H2)
          as [Eq|[Lt|Lt]]; [exact Eq| |].
        * assert (0 < grow_units n) by (unfold grow_units; destruct (n <? 4096); lia). nia.
        * assert (0 < grow_units n) by (unfold grow_units; destruct (n <? 4096); lia). nia.
    - (* a block of the list fits *)
      assert (Hfit : exists c, In c L /\ n <= snd c).
      { exists c0. split; [|assumption]. rewrite E0. apply in_or_app. right. now left. }
      destruct (loop_fit HSZ HSZ_pos SZB base lo st0 L A n I Hn Hfit)
        as (q & st' & L' & Hloop & I' & _ & _ & (K1 & c & sp & F2 & EL1 & Hsp & Eq & EL')).
      exists (S (length L)), st', K1, c, sp, F2.
      subst q L'. fold (remainder c sp n) in I'.
      split; [|split; [exact Hsp|split; [|split; [|exact I']]]].
      + intros f Hf. unfold malloc. fold st0. fold n.
        replace f with (S (length L) + (f - S (length L)))%nat by lia.
        apply malloc_loop_mono. exact Hloop.
      + rewrite <- EL1. exact (inv_gaps _ _ _ _ _ _ I).
      + rewrite <- EL1. exact Hu.
  Qed.

End Claims.

(** * Accounting of units and the footprint of the writes *)

Lemma units_app (L1 L2 : list block) : units (L1 ++ L2) = units L1 + units L2.
Proof. induction L1 as [|b L1 IH]; cbn [app units fold_right] in *; [reflexivity|]. fold (units (L1 ++ L2)). fold (units L1). rewrite IH. ring. Qed.

Lemma units_cons (b : block) (L : list block) : units (b :: L) = snd b + units L.
Proof. reflexivity. Qed.

Lemma chain_units_mono m base d : forall f p u,
  chain_units f m base p = Some u -> chain_units (f + d) m base p = Some u.
Proof.
  induction f as [|f IH]; intros p u H; [discriminate|].
  cbn [chain_units Nat.add] in *.
  destruct (p =? base); [assumption|].
  destruct (chain_units f m base (h_ptr (m p))) as [v|] eqn:E; [|discriminate].
  now rewrite (IH _ _ E).
Qed.

Lemma chain_units_S m base f p :
  chain_units (S f) m base p =
  if p =? base then Some 0
  else match chain_units f m base (h_ptr (m p)) with
       | None => None
       | Some u => Some (h_size (m p) + u)
       end.
Proof. reflexivity. Qed.

Lemma chain_units_lseg m base : forall (L : list block) x,
  lseg m x L base -> Forall (fun b => fst b <> base) L ->
  chain_units (S (length L)) m base x = Some (units L).
Proof.
  induction L as [|b L IH]; intros x Hl Hne.
  - cbn [lseg] in Hl. subst x. cbn [chain_units]. now rewrite Z.eqb_refl.
  - cbn [lseg] in Hl. destruct Hl as (-> & Hs & Hl).
    apply Forall_cons_iff in Hne. destruct Hne as [Hb Hne].
    cbn [length]. rewrite chain_units_S.
    replace (fst b =? base) with false by (symmetry; now apply Z.eqb_neq).
    rewrite (IH _ Hl Hne). rewrite Hs. reflexivity.
Qed.

Lemma free_link_other HSZ st bp p x :
  x <> bp -> x <> p -> mem (free_link HSZ st bp p) x = mem st x.
Proof.
  intros H1 H2. unfold free_link. cbn [mem].
  repeat match goal with
         | |- context [if ?c then _ else _] => destruct c
         end;
    repeat first [rewrite set_ptr_other by assumption
                 |rewrite set_size_other by assumption]; reflexivity.
Qed.

Lemma disj_off HSZ (b c : block) x k :
  0 < HSZ -> disj HSZ b c ->
  fst b - HSZ < x < fst b + snd b * HSZ -> 0 <= k < snd c ->
  x <> fst c + k * HSZ.
Proof. unfold disj, blk_end. intros H0 [H|H] Hx Hk; nia. Qed.

Lemma shape_units HSZ pa ps L2 bp s s1 L2' lo X :
  fwd_shape HSZ L2 bp s s1 L2' -> bwd_shape HSZ pa ps bp s1 lo X ->
  units (X ++ L2') = ps + s + units L2.
Proof.
  intros R1 R2.
  destruct R1 as [(-> & -> & _)|(sc & -> & -> & _)];
    destruct R2 as [(-> & _)|(-> & _)];
    unfold units; cbn [app fold_right snd]; ring.
Qed.

Lemma shape_length HSZ pa ps L2 bp s s1 L2' lo X :
  fwd_shape HSZ L2 bp s s1 L2' -> bwd_shape HSZ pa ps bp s1 lo X ->
  (length (X ++ L2') <= 2 + length L2)%nat.
Proof.
  intros R1 R2.
  destruct R1 as [(-> & -> & _)|(sc & -> & -> & _)];
    destruct R2 as [(-> & _)|(-> & _)]; cbn [app length]; lia.
Qed.

(** [free] of a live block in full: the units of the list grow by the
    size of the block, and no other live block is written to. *)
Lemma free_full HSZ base lo st L A1 bp s A2 :
  0 < HSZ ->
  Inv HSZ base lo st L (A1 ++ (bp, s) :: A2) ->
  exists L' pa,
    free HSZ (S (length L)) st (bp + HSZ) = Some (free_link HSZ st bp pa) /\
    Inv HSZ base lo (free_link HSZ st bp pa) L' (A1 ++ A2) /\
    (exists c, In c L' /\ fst c <= bp /\ bp + s * HSZ <= blk_end HSZ c) /\
    units L' = units L + s /\
    (length L' <= S (length L))%nat /\
    Forall (untouched HSZ (mem st) (mem (free_link HSZ st bp pa))) (A1 ++ A2).
Proof.
  intros HSZ_pos I.
  destruct (free_inv HSZ HSZ_pos base lo st L A1 bp s A2 I)
    as (L' & pa & Hfree & I' & Hc & (Fp & ps & L2 & s1 & L2' & X & E & E' & C & R1 & R2)).
  exists L', pa.
  split; [exact Hfree|]. split; [exact I'|]. split; [exact Hc|].
  pose proof (shape_units _ _ _ _ _ _ _ _ _ _ R1 R2) as Hu.
  pose proof (shape_length _ _ _ _ _ _ _ _ _ _ R1 R2) as Hlen.
  split; [|split].
  - apply (f_equal units) in E. apply (f_equal units) in E'.
    rewrite units_app in E, E'. rewrite units_cons in E, E'. rewrite units_cons in E.
    cbn [snd] in E, E'. lia.
  - apply (f_equal (@length _)) in E. apply (f_equal (@length _)) in E'.
    rewrite length_app in E, E'. cbn [length] in E, E'. lia.
  - assert (Hpa : In (pa, ps) ((base, 0) :: L)).
    { rewrite E. apply in_or_app. right. now left. }
    destruct I as [I1 I2 I3 I4 I5 I6 Ifp Ich Igp Ifr Ial Isz Iad Ifd].
    destruct (pairwise_disj_remove HSZ _ _ _ Iad) as [_ Hd].
    apply Forall_app in Ial. destruct Ial as [Ha1 Ha2].
    apply Forall_cons_iff in Ha2. destruct Ha2 as [Hbp Ha2].
    apply Forall_app in Ifd. destruct Ifd as [Hf1 Hf2].
    apply Forall_cons_iff in Hf2. destruct Hf2 as [_ Hf2].
    pose proof (proj2 (Forall_app _ _ _) (conj Ha1 Ha2)) as Ha.
    pose proof (proj2 (Forall_app _ _ _) (conj Hf1 Hf2)) as Hf.
    rewrite Forall_forall in Ha, Hf, Hd, Ifr. rewrite Forall_forall. intros b Hb x Hx.
    destruct (Ha _ Hb) as (B1 & B2 & _ & B4).
    destruct Hbp as (P1 & P2 & _ & P4). cbn [fst snd] in *.
    apply free_link_other.
    + pose proof (disj_off HSZ b (bp, s) x 0 HSZ_pos (Hd _ Hb) Hx) as Hn.
      cbn [fst snd] in Hn. specialize (Hn ltac:(lia)). lia.
    + destruct Hpa as [Hpa|Hpa].
      * injection Hpa as <- _. lia.
      * specialize (Hf _ Hb). rewrite Forall_forall in Hf.
        pose proof (disj_off HSZ b (pa, ps) x 0 HSZ_pos (Hf _ Hpa) Hx) as Hn.
        destruct (Ifr _ Hpa) as (_ & Q2 & _).
        cbn [fst snd] in *. specialize (Hn ltac:(lia)). lia.
Qed.

Lemma untouched_trans HSZ m1 m2 m3 (A : list block) :
  Forall (untouched HSZ m1 m2) A -> Forall (untouched HSZ m2 m3) A ->
  Forall (untouched HSZ m1 m3) A.
Proof.
  rewrite !Forall_forall. intros H1 H2 b Hb x Hx.
  rewrite (H2 b Hb x Hx). exact (H1 b Hb x Hx).
Qed.

(** The writes of [take] stay inside the free list. *)
Lemma take_frame HSZ base lo st L A prevp nunits :
  0 < HSZ ->
  Inv HSZ base lo st L A ->
  In prevp (base :: map fst L) ->
  0 < nunits < 2 ^ 32 ->
  nunits <= h_size (mem st (h_ptr (mem st prevp))) ->
  Forall (untouched HSZ (mem st)
            (fst (take HSZ (mem st) prevp (h_ptr (mem st prevp)) nunits))) A.
Proof.
  intros HSZ_pos I Hin Hn Hfit.
  destruct (take_facts HSZ HSZ_pos base lo st L A prevp I Hin ltac:(lia))
    as (F1 & sx & sp & F2 & K1 & EL & EK & Hsx & Hsp & _ & _ & _ & Hprev & _ & _ & _ & _ & Hp).
  destruct I as [I1 I2 I3 I4 I5 I6 Ifp Ich Igp Ifr Ial Isz Iad Ifd].
  set (p := h_ptr (mem st prevp)) in *.
  assert (HpL : In (p, sp) L).
  { rewrite EL. apply in_or_app. right. now left. }
  destruct Hp as (P1 & P2 & P3 & P4). unfold blk_end in P4. cbn [fst snd] in P1, P2, P4.
  assert (Hsp32 : 0 <= sp - nunits < 2 ^ 32) by nia.
  rewrite Forall_forall in Ial, Ifd, Ifr. rewrite Forall_forall. intros b Hb x Hx.
  destruct (Ial _ Hb) as (B1 & B2 & _ & B4).
  specialize (Ifd _ Hb). rewrite Forall_forall in Ifd.
  assert (Hxprev : x <> prevp).
  { destruct Hin as [<-|Hin]; [lia|].
    apply in_map_iff in Hin. destruct Hin as ([a sa] & Ea & Ha). cbn [fst] in Ea. subst a.
    destruct (Ifr _ Ha) as (_ & Q2 & _). cbn [snd] in Q2.
    pose proof (disj_off HSZ b (prevp, sa) x 0 HSZ_pos (Ifd _ Ha) Hx) as Hne.
    cbn [fst snd] in Hne. specialize (Hne ltac:(lia)). lia. }
  assert (Hxp : forall k, 0 <= k < sp -> x <> p + k * HSZ).
  { intros k Hk. exact (disj_off HSZ b (p, sp) x k HSZ_pos (Ifd _ HpL) Hx Hk). }
  unfold take. rewrite Hsp.
  destruct (Z.eqb_spec sp nunits) as [E|Ne]; cbn [fst].
  - now rewrite set_ptr_other.
  - rewrite h_size_set_size_same, (u32_small _ Hsp32).
    rewrite set_size_other by (apply Hxp; lia).
    rewrite set_size_other; [reflexivity|].
    specialize (Hxp 0 ltac:(lia)). lia.
Qed.

Lemma remainder_units (K1 F2 : list block) c sp n :
  units (K1 ++ (if sp =? n then [] else [(c, sp - n)]) ++ F2) + n
  = units (K1 ++ (c, sp) :: F2).
Proof.
  rewrite !units_app, units_cons. cbn [snd].
  destruct (Z.eqb_spec sp n) as [->|_]; unfold units; cbn [fold_right snd]; ring.
Qed.

(** [morecore] in full, whatever the fuel: it fails and leaves the
    state alone, or the whole new span joins the free list. *)
Lemma morecore_full HSZ SZB base lo st L A nunits f r :
  0 < HSZ -> 2 ^ 32 * HSZ <= 2 ^ SZB ->
  Inv HSZ base lo st L A -> 0 < nunits < 2 ^ 32 ->
  morecore HSZ SZB f st nunits = Some r ->
  (r = (NULL, st) /\ lim st < brk st + grow_units nunits * HSZ) \/
  (exists st' L',
     r = (freep st', st') /\
     brk st + grow_units nunits * HSZ <= lim st /\
     Inv HSZ base lo st' L' A /\
     brk st' = brk st + grow_units nunits * HSZ /\ lim st' = lim st /\
     units L' = units L + grow_units nunits /\
     (exists c, In c L' /\ fst c <= brk st /\
                brk st + grow_units nunits * HSZ <= blk_end HSZ c) /\
     (length L' <= S (length L))%nat /\
     Forall (untouched HSZ (mem st) (mem st')) A).
Proof.
  intros HSZ_pos wide I Hn Hm.
  destruct (grow_units_range 0 nunits Hn) as (Hg1 & Hg2).
  assert (Hw : wrap SZB (grow_units nunits * HSZ) = grow_units nunits * HSZ).
  { apply wrap_small. nia. }
  unfold morecore in Hm. fold (grow_units nunits) in Hm. rewrite Hw in Hm.
  unfold sbrk in Hm.
  destruct (Z.leb_spec (brk st + grow_units nunits * HSZ) (lim st)) as [Hle|Hgt].
  - right. unfold with_mem in Hm. cbn [mem freep brk lim] in Hm.
    pose proof (inv_grow HSZ HSZ_pos base lo st L A (grow_units nunits) I ltac:(lia) Hle) as I2.
    destruct (free_full HSZ base lo _ L [] (brk st) (grow_units nunits) A HSZ_pos I2)
      as (L' & pa & Hfree & I3 & Hc & Hu & Hlen & Hfr).
    cbn [app] in I3, Hfr.
    match type of Hm with
    | match ?e with _ => _ end = _ => destruct e as [st3|] eqn:Ef; [|discriminate]
    end.
    pose proof (free_det _ _ _ _ _ _ _ Ef Hfree) as E3. subst st3.
    injection Hm as <-.
    match type of I3 with
    | Inv _ _ _ ?s3 _ _ => exists s3, L'
    end.
    split; [reflexivity|]. split; [exact Hle|]. split; [exact I3|].
    split; [reflexivity|]. split; [reflexivity|]. split; [exact Hu|].
    split; [exact Hc|]. split; [exact Hlen|].
    cbn [mem] in Hfr.
    eapply untouched_trans; [|exact Hfr].
    destruct I as [I1 I2' I3' I4 I5 I6 Ifp Ich Igp Ifr Ial Isz Iad Ifd].
    rewrite Forall_forall in Ial. rewrite Forall_forall. intros b Hb x Hx.
    destruct (Ial _ Hb) as (_ & _ & _ & B4). unfold blk_end in B4.
    apply set_size_other. lia.
  - left. injection Hm as <-. split; [reflexivity|lia].
Qed.

(** Every successful search of [malloc], whatever the path it took
    (a walk along the list, possibly one or more calls of [morecore]):
    the block handed out is live, the other live blocks were not
    written to, and units are neither lost nor invented. *)
Lemma loop_acct HSZ SZB base lo A n :
  0 < HSZ -> 2 ^ 32 * HSZ <= 2 ^ SZB -> 0 < n < 2 ^ 32 ->
  forall f st L prevp r st',
    Inv HSZ base lo st L A -> In prevp (base :: map fst L) ->
    malloc_loop HSZ SZB f st prevp (h_ptr (mem st prevp)) n = Some (r, st') ->
    r <> NULL ->
    exists L',
      Inv HSZ base lo st' L' ((r - HSZ, n) :: A) /\
      Forall (untouched HSZ (mem st) (mem st')) A /\
      lim st' = lim st /\
      (brk st' = brk st \/ brk st + 4096 * HSZ <= brk st') /\
      (units L' + n) * HSZ - brk st' = units L * HSZ - brk st.
Proof.
  intros HSZ_pos wide Hn.
  induction f as [|f IH]; intros st L prevp r st' I Hin Hl Hr; [discriminate|].
  cbn [malloc_loop] in Hl.
  destruct (n <=? h_size (mem st (h_ptr (mem st prevp)))) eqn:Efit.
  - apply Z.leb_le in Efit.
    pose proof (take_frame HSZ base lo st L A prevp n HSZ_pos I Hin Hn Efit) as Hfr.
    destruct (take_inv HSZ HSZ_pos base lo st L A prevp n I Hin Hn Efit)
      as (K1 & sp & F2 & L' & EL & Esp & Eq & EL' & I').
    destruct (take HSZ (mem st) prevp (h_ptr (mem st prevp)) n) as [m' q] eqn:Et.
    cbn [fst snd] in Hfr, Eq, I'. injection Hl as <- <-.
    exists L'. replace (q + HSZ - HSZ) with q by ring. cbn [mem brk lim].
    split; [exact I'|]. split; [exact Hfr|]. split; [reflexivity|]. split; [now left|].
    rewrite EL', EL, <- (remainder_units K1 F2 (h_ptr (mem st prevp)) sp n). ring.
  - destruct (h_ptr (mem st prevp) =? freep st) eqn:Ep.
    + destruct (morecore HSZ SZB f st n) as [[p' st1]|] eqn:Em; [|discriminate].
      destruct (Z.eqb_spec p' NULL) as [En|En].
      { injection Hl as <- _. contradiction. }
      destruct (morecore_full HSZ SZB base lo st L A n f _ HSZ_pos wide I Hn Em)
        as [(E & _)|(s1 & L1 & E & Hle & I1 & Hb & Hlim & Hu & _ & _ & Hfr)].
      { injection E as E _. contradiction. }
      injection E as -> ->.
      destruct (IH s1 L1 (freep s1) r st' I1 (inv_freep _ _ _ _ _ _ I1) Hl Hr)
        as (L' & I' & Hfr' & Hlim' & Hbrk' & Hu').
      exists L'. split; [exact I'|]. split; [exact (untouched_trans _ _ _ _ _ Hfr Hfr')|].
      split; [congruence|].
      split.
      { right. assert (Hg : 4096 <= grow_units n).
        { unfold grow_units. destruct (Z.ltb_spec n 4096); lia. }
        destruct Hbrk' as [Hbrk'|Hbrk']; nia. }
      rewrite Hu'. rewrite Hu, Hb. ring.
    + apply (IH st L (h_ptr (mem st prevp)) r st' I); try assumption.
      eapply nodes_closed; eassumption.
Qed.

(** A successful [malloc], whatever the fuel. *)
Lemma malloc_acct HSZ SZB base lo st L A nbytes f r st' :
  8 <= HSZ -> 32 <= SZB -> 2 ^ 32 * HSZ <= 2 ^ SZB ->
  Wf HSZ base lo st L A -> uint_range nbytes ->
  malloc HSZ SZB base f st nbytes = Some (r, st') -> r <> NULL ->
  exists L',
    Inv HSZ base lo st' L' ((r - HSZ, nunits_of HSZ SZB nbytes) :: A) /\
    Forall (untouched HSZ (mem st) (mem st')) A /\
    lim st' = lim st /\
    (brk st' = brk st \/ brk st + 4096 * HSZ <= brk st') /\
    (units L' + nunits_of HSZ SZB nbytes) * HSZ - brk st' = units L * HSZ - brk st.
Proof.
  intros HSZ_ge SZB_ge wide W Hnb Hm Hr.
  assert (HSZ_pos : 0 < HSZ) by lia.
  pose proof (wf_init HSZ HSZ_ge base lo st L A W) as I.
  destruct (nunits_wide HSZ HSZ_ge SZB SZB_ge wide nbytes Hnb) as (_ & Hn & _).
  destruct (init_brk_lim base st) as [Eb El].
  unfold malloc in Hm.
  destruct (loop_acct HSZ SZB base lo A _ HSZ_pos wide Hn f (init base st) L
              (freep (init base st)) r st' I (inv_freep _ _ _ _ _ _ I) Hm Hr)
    as (L' & I' & Hfr & Hlim & Hbrk & Hu).
  exists L'. split; [exact I'|]. split; [|split; [congruence|split; [|lia]]].
  2:{ rewrite <- Eb. exact Hbrk. }
  destruct W as [I0|(_ & _ & ->)]; [|constructor].
  now rewrite (inv_init_id HSZ HSZ_ge base lo st L A I0) in Hfr.
Qed.

(** [free] of a live pointer, whatever the fuel. *)
Lemma free_acct HSZ base lo st L A1 b A2 f st' :
  0 < HSZ ->
  Inv HSZ base lo st L (A1 ++ b :: A2) ->
  free HSZ f st (ptr_of HSZ b) = Some st' ->
  exists L',
    Inv HSZ base lo st' L' (A1 ++ A2) /\
    units L' = units L + snd b /\
    (length L' <= S (length L))%nat /\
    Forall (untouched HSZ (mem st) (mem st')) (A1 ++ A2) /\
    brk st' = brk st /\ lim st' = lim st /\
    exists c, In c L' /\ fst c <= fst b /\ blk_end HSZ b <= blk_end HSZ c.
Proof.
  intros HSZ_pos I Hf. destruct b as [bp s].
  destruct (free_full HSZ base lo st L A1 bp s A2 HSZ_pos I)
    as (L' & pa & Hfree & I' & Hc & Hu & Hlen & Hfr).
  unfold ptr_of in Hf. cbn [fst] in Hf.
  rewrite (free_det _ _ _ _ _ _ _ Hf Hfree).
  exists L'. cbn [fst snd]. unfold blk_end at 1. cbn [fst snd].
  repeat (split; [first [assumption|reflexivity]|]). exact Hc.
Qed.

(** * The measures on well-formed states *)

Lemma inv_free_units HSZ base lo st L A :
  0 < HSZ -> Inv HSZ base lo st L A ->
  free_units base (S (length L)) st = Some (units L).
Proof.
  intros HSZ_pos I.
  destruct (inv_full_facts HSZ HSZ_pos base lo st L A I) as (_ & _ & Hab).
  pose proof (inv_chain _ _ _ _ _ _ I) as Hc.
  cbn [lseg fst snd] in Hc. destruct Hc as (_ & _ & Hc).
  unfold free_units. apply chain_units_lseg; [exact Hc|].
  eapply Forall_impl; [|exact Hab]. cbn beta. intros b Hb. lia.
Qed.

Lemma free_units_mono base f d st u :
  free_units base f st = Some u -> free_units base (f + d) st = Some u.
Proof. unfold free_units. apply chain_units_mono. Qed.

Lemma ptr_of_back HSZ (b : block) : ptr_of HSZ b - HSZ = fst b.
Proof. unfold ptr_of. ring. Qed.

Lemma inv_live_units HSZ base lo st L A :
  Inv HSZ base lo st L A -> live_units HSZ st (map (ptr_of HSZ) A) = units A.
Proof.
  intros I. pose proof (inv_asize _ _ _ _ _ _ I) as Hs. clear I.
  induction Hs as [|b A' Hb Hs IH]; [reflexivity|].
  unfold live_units, units in *. cbn [map fold_right].
  rewrite ptr_of_back, Hb, IH. reflexivity.
Qed.

Lemma inv_live_block HSZ base lo st L A b :
  Inv HSZ base lo st L A -> In b A -> live_block HSZ st (ptr_of HSZ b) = b.
Proof.
  intros I Hb. pose proof (inv_asize _ _ _ _ _ _ I) as Hs.
  rewrite Forall_forall in Hs. unfold live_block.
  rewrite ptr_of_back, (Hs _ Hb). now destruct b.
Qed.

Lemma ptr_of_new HSZ r n : ptr_of HSZ (r - HSZ, n) = r.
Proof. unfold ptr_of. cbn [fst]. ring. Qed.

(** * [free] on its own *)

Section FreeAlone.

Variable HSZ : Z.
Hypothesis HSZ_ge : 8 <= HSZ.
Variable base : Z.

(** X1.  [free] gives back exactly the block it is handed: when a client
    frees a live pointer, the units on the free list grow by the size
    recorded in that block's header and the units in the client's hands
    shrink by as much; the end of the region does not move. *)
Theorem free_returns_units lo st L A f ap st' :
  Inv HSZ base lo st L A -> In ap (map (ptr_of HSZ) A) ->
  free HSZ f st ap = Some st' ->
  exists g u,
    free_units base g st = Some u /\
    free_units base g st' = Some (u + h_size (mem st (ap - HSZ))) /\
    live_units HSZ st' (remove_first ap (map (ptr_of HSZ) A))
      = live_units HSZ st (map (ptr_of HSZ) A) - h_size (mem st (ap - HSZ)) /\
    brk st' = brk st.
Proof.
  intros I Hin Hf. assert (HSZ_pos : 0 < HSZ) by lia.
  destruct (remove_first_split HSZ ap A Hin) as (A1 & b & A2 & -> & Eb & Er).
  rewrite <- Eb in Hf.
  destruct (free_acct HSZ base lo st L A1 b A2 f st' HSZ_pos I Hf)
    as (L1 & I1 & Hu & _ & _ & Hb & _).
  assert (Hs : h_size (mem st (ap - HSZ)) = snd b).
  { rewrite <- Eb, ptr_of_back.
    pose proof (inv_asize _ _ _ _ _ _ I) as Hs. rewrite Forall_forall in Hs.
    apply Hs. apply in_or_app. right. now left. }
  exists (S (length L) + S (length L1))%nat, (units L).
  split; [apply free_units_mono; exact (inv_free_units HSZ base lo st L _ HSZ_pos I)|].
  split.
  - rewrite Nat.add_comm. apply free_units_mono.
    rewrite (inv_free_units HSZ base lo st' L1 _ HSZ_pos I1). now rewrite Hu, Hs.
  - split; [|exact Hb].
    rewrite Er, (inv_live_units HSZ base lo st' L1 _ I1),
      (inv_live_units HSZ base lo st L _ I), Hs.
    rewrite !units_app, units_cons. ring.
Qed.

(** X2.  [free] writes two headers only, that of the block it is handed and
    that of the free block before it: every header cell that shares a
    byte with another live block - with its header or with its client
    data - is left as it was. *)
Theorem free_spares_live_blocks lo st L A f ap st' :
  Inv HSZ base lo st L A -> In ap (map (ptr_of HSZ) A) ->
  free HSZ f st ap = Some st' ->
  Forall (fun p => untouched HSZ (mem st) (mem st') (live_block HSZ st p))
         (remove_first ap (map (ptr_of HSZ) A)).
Proof.
  intros I Hin Hf. assert (HSZ_pos : 0 < HSZ) by lia.
  destruct (remove_first_split HSZ ap A Hin) as (A1 & b & A2 & -> & Eb & Er).
  rewrite <- Eb in Hf.
  destruct (free_acct HSZ base lo st L A1 b A2 f st' HSZ_pos I Hf)
    as (L1 & I1 & _ & _ & Hfr & _).
  rewrite Er. apply Forall_map. rewrite Forall_forall in *. intros c Hc.
  rewrite (inv_live_block HSZ base lo st L _ c I); [now apply Hfr|].
  apply in_app_or in Hc. apply in_or_app. destruct Hc; [now left|right; now right].
Qed.

(** X3.  The cursor is only a hint for where to start: wherever on the free
    list it points, [free] links the block at the same place and ends
    in the same state. *)
Theorem free_ignores_cursor lo st L A f g ap x s1 s2 :
  Inv HSZ base lo st L A -> In ap (map (ptr_of HSZ) A) -> on_chain st x ->
  free HSZ f st ap = Some s1 ->
  free HSZ g (mkState (mem st) x (brk st) (lim st)) ap = Some s2 ->
  s2 = s1.
Proof.
  intros I Hin Hx Hf Hg. assert (HSZ_pos : 0 < HSZ) by lia.
  destruct (remove_first_split HSZ ap A Hin) as (A1 & [bp s] & A2 & -> & Eb & _).
  unfold ptr_of in Eb. cbn [fst] in Eb. subst ap.
  destruct (free_inv HSZ HSZ_pos base lo st L A1 bp s A2 I)
    as (L' & pa & Hfree & _ & _ & (Fp & ps & L2 & s1' & L2' & X & E & _ & C & _)).
  rewrite (free_det _ _ _ _ _ _ _ Hf Hfree).
  pose proof (chain_in_nodes HSZ base lo st L _ I x Hx) as Nx.
  change (base :: map fst L) with (map fst ((base, 0) :: L)) in Nx. rewrite E in Nx.
  pose proof (inv_base_lo _ _ _ _ _ _ I) as Hbl.
  assert (Hbase : base < bp) by (pose proof (fc_lo _ _ _ _ _ _ _ _ _ _ _ C); lia).
  pose proof (scan_from_any HSZ HSZ_pos (mem st) bp base Fp L2 pa ps
                (fc_seg _ _ _ _ _ _ _ _ _ _ _ C) (fc_sz _ _ _ _ _ _ _ _ _ _ _ C)
                (fc_gap _ _ _ _ _ _ _ _ _ _ _ C) (fc_pa _ _ _ _ _ _ _ _ _ _ _ C)
                Hbase (fc_L2 _ _ _ _ _ _ _ _ _ _ _ C) x Nx) as Hscan.
  assert (Hg' : free HSZ (length (Fp ++ (pa, ps) :: L2))
                     (mkState (mem st) x (brk st) (lim st)) (bp + HSZ)
                = Some (free_link HSZ st bp pa)).
  { unfold free. cbn [mem freep]. replace (bp + HSZ - HSZ) with bp by ring.
    rewrite Hscan. reflexivity. }
  exact (free_det _ _ _ _ _ _ _ Hg Hg').
Qed.

End FreeAlone.

(** * Accounting along the runs of a client *)

Section Runs.

Variable HSZ : Z.
Hypothesis HSZ_ge : 8 <= HSZ.
Variable SZB : Z.
Hypothesis SZB_ge : 32 <= SZB.
Variable base : Z.
Hypothesis wide : 2 ^ 32 * HSZ <= 2 ^ SZB.

(** Along a run the free and the live units follow the end of the
    managed region, which never moves down. *)
Lemma run_acct lo f : forall ops st L A st' live',
  Inv HSZ base lo st L A ->
  Forall op_ok ops ->
  run HSZ SZB base f st (map (ptr_of HSZ) A) ops = Some (st', live') ->
  exists L' A',
    Inv HSZ base lo st' L' A' /\ live' = map (ptr_of HSZ) A' /\
    (units L' + units A') * HSZ - brk st' = (units L + units A) * HSZ - brk st /\
    (brk st' = brk st \/ brk st + 4096 * HSZ <= brk st') /\ lim st' = lim st.
Proof.
  assert (HSZ_pos : 0 < HSZ) by lia.
  induction ops as [|o ops IH]; intros st L A st' live' I Hok Hrun.
  - cbn [run] in Hrun. injection Hrun as <- <-. exists L, A.
    split; [exact I|]. split; [reflexivity|]. split; [reflexivity|].
    split; [now left|reflexivity].
  - apply Forall_cons_iff in Hok. destruct Hok as [Ho Hok].
    destruct o as [n|ap]; cbn [run] in Hrun.
    + destruct (malloc HSZ SZB base f st n) as [[r st1]|] eqn:Em; [|discriminate].
      destruct (Z.eqb_spec r NULL) as [Er|Er].
      * destruct (malloc_outcome HSZ HSZ_ge SZB SZB_ge base wide lo st L A n f r st1
                    (or_introl I) Ho Em) as [(_ & E1 & _)|(Hr & _)]; [|contradiction].
        rewrite (inv_init_id HSZ HSZ_ge base lo st L A I) in E1. subst st1.
        exact (IH st L A st' live' I Hok Hrun).
      * destruct (malloc_acct HSZ SZB base lo st L A n f r st1 HSZ_ge SZB_ge wide
                    (or_introl I) Ho Em Er) as (L1 & I1 & _ & Hlim & Hbrk & Hu).
        rewrite <- (ptr_of_new HSZ r (nunits_of HSZ SZB n)) in Hrun at 1.
        change (ptr_of HSZ (r - HSZ, nunits_of HSZ SZB n) :: map (ptr_of HSZ) A)
          with (map (ptr_of HSZ) ((r - HSZ, nunits_of HSZ SZB n) :: A)) in Hrun.
        destruct (IH st1 L1 _ st' live' I1 Hok Hrun)
          as (L' & A' & I' & El & Hacc' & Hbrk' & Hlim').
        rewrite units_cons in Hacc'. cbn [snd] in Hacc'.
        exists L', A'. split; [exact I'|]. split; [exact El|]. split; [lia|].
        split; [|congruence].
        destruct Hbrk as [Hb|Hb], Hbrk' as [Hb'|Hb']; [left|right|right|right]; lia.
    + destruct (existsb (Z.eqb ap) (map (ptr_of HSZ) A)) eqn:Ex; [|discriminate].
      apply existsb_exists in Ex. destruct Ex as (x & Hx & Ex).
      apply Z.eqb_eq in Ex. subst x.
      destruct (remove_first_split HSZ ap A Hx) as (A1 & b & A2 & -> & Eb & Er).
      rewrite Er in Hrun.
      destruct (free HSZ f st ap) as [st1|] eqn:Ef; [|discriminate].
      rewrite <- Eb in Ef.
      destruct (free_acct HSZ base lo st L A1 b A2 f st1 HSZ_pos I Ef)
        as (L1 & I1 & Hu & _ & _ & Hb & Hl & _).
      destruct (IH st1 L1 _ st' live' I1 Hok Hrun)
        as (L' & A' & I' & El & Hacc' & Hbrk' & Hlim').
      rewrite units_app in *. rewrite units_cons.
      exists L', A'. rewrite <- Hb, <- Hl.
      split; [exact I'|]. split; [exact El|]. split; [lia|]. split; assumption.
Qed.

(** A run that makes at least one call ends in an initialised state,
    also from a process that had not called the allocator yet. *)
Lemma run_acct_wf lo f ops st L A st' live' :
  Wf HSZ base lo st L A -> Forall op_ok ops -> ops <> [] ->
  run HSZ SZB base f st (map (ptr_of HSZ) A) ops = Some (st', live') ->
  exists L' A',
    Inv HSZ base lo st' L' A' /\ live' = map (ptr_of HSZ) A' /\
    (units L' + units A') * HSZ - brk st' = (units L + units A) * HSZ - brk st /\
    (brk st' = brk st \/ brk st + 4096 * HSZ <= brk st') /\ lim st' = lim st.
Proof.
  intros W Hok Hne Hrun.
  destruct W as [I|(I0 & -> & ->)]; [exact (run_acct lo f ops st L A st' live' I Hok Hrun)|].
  destruct ops as [|o ops]; [contradiction|].
  apply Forall_cons_iff in Hok. destruct Hok as [Ho Hok].
  destruct o as [n|ap]; cbn [run map] in Hrun; [|cbn [existsb] in Hrun; discriminate].
  destruct (malloc HSZ SZB base f st n) as [[r st1]|] eqn:Em; [|discriminate].
  destruct (init_brk_lim base st) as [Eb El].
  assert (W : Wf HSZ base lo st [] []) by (right; auto).
  destruct (Z.eqb_spec r NULL) as [Er|Er].
  - destruct (malloc_outcome HSZ HSZ_ge SZB SZB_ge base wide lo st [] [] n f r st1
                W Ho Em) as [(_ & E1 & _)|(Hr & _)]; [|contradiction].
    subst st1.
    destruct (run_acct lo f ops (init base st) [] [] st' live'
                (inv0_init HSZ base lo st I0) Hok Hrun)
      as (L' & A' & I' & E' & Hacc & Hbrk & Hlim).
    exists L', A'. rewrite Eb in Hbrk, Hacc. rewrite El in Hlim. auto.
  - destruct (malloc_acct HSZ SZB base lo st [] [] n f r st1 HSZ_ge SZB_ge wide
                W Ho Em Er) as (L1 & I1 & _ & Hlim & Hbrk & Hu).
    rewrite <- (ptr_of_new HSZ r (nunits_of HSZ SZB n)) in Hrun at 1.
    change [ptr_of HSZ (r - HSZ, nunits_of HSZ SZB n)]
      with (map (ptr_of HSZ) [(r - HSZ, nunits_of HSZ SZB n)]) in Hrun.
    destruct (run_acct lo f ops st1 L1 _ st' live' I1 Hok Hrun)
      as (L' & A' & I' & E' & Hacc & Hbrk' & Hlim').
    unfold units in Hacc, Hu. cbn [fold_right snd] in Hacc, Hu. fold (units L') in Hacc.
    fold (units A') in Hacc. fold (units L1) in Hacc, Hu.
    exists L', A'. split; [exact I'|]. split; [exact E'|].
    split; [unfold units at 3 4; cbn [fold_right]; lia|].
    split; [|congruence].
    destruct Hbrk as [Hb|Hb], Hbrk' as [Hb'|Hb']; [left|right|right|right]; lia.
Qed.

End Runs.

(** * A list that fills the region *)

Lemma span_bound HSZ : 0 < HSZ -> forall (L : list block) x,
  Forall (fun b => 0 <= snd b) L -> gaps HSZ x L ->
  x + units L * HSZ + Z.of_nat (length L) <= last_end HSZ x L.
Proof.
  intros HSZ_pos. induction L as [|b L IH]; intros x Hs Hg.
  - unfold units. cbn [fold_right length last_end]. lia.
  - apply Forall_cons_iff in Hs. destruct Hs as [Hb Hs].
    cbn [gaps] in Hg. destruct Hg as [Hx Hg].
    specialize (IH _ Hs Hg). rewrite units_cons. cbn [last_end].
    unfold blk_end in *. cbn [length]. rewrite Nat2Z.inj_succ. nia.
Qed.

Lemma last_end_le HSZ hi : forall (L : list block) x,
  Forall (fun b => blk_end HSZ b <= hi) L -> x <= hi -> last_end HSZ x L <= hi.
Proof.
  induction L as [|b L IH]; intros x Hs Hx; [exact Hx|].
  apply Forall_cons_iff in Hs. destruct Hs as [Hb Hs].
  cbn [last_end]. now apply IH.
Qed.

(** When nothing is live and every unit of the region is on the list,
    the list is one block: the whole region. *)
Lemma full_list_single HSZ base lo st L :
  0 < HSZ -> Inv HSZ base lo st L [] -> units L * HSZ = brk st - lo ->
  (L = [] /\ brk st = lo) \/
  (exists s, L = [(lo, s)] /\ s * HSZ = brk st - lo /\ 0 < s).
Proof.
  intros HSZ_pos I Hu.
  pose proof (inv_free _ _ _ _ _ _ I) as Hf.
  pose proof (inv_gaps _ _ _ _ _ _ I) as Hg.
  destruct L as [|[a s] L].
  - left. unfold units in Hu. cbn [fold_right] in Hu. split; [reflexivity|lia].
  - right. apply Forall_cons_iff in Hf. destruct Hf as [(B1 & B2 & _ & B4) Hf].
    cbn [gaps] in Hg. destruct Hg as [_ Hg].
    unfold blk_end in B4, Hg. cbn [fst snd] in B1, B2, B4, Hg.
    pose proof (span_bound HSZ HSZ_pos L _ (in_heap_nonneg HSZ _ _ _ Hf) Hg) as Hsp.
    assert (Hle : last_end HSZ (a + s * HSZ) L <= brk st).
    { apply last_end_le; [|exact B4].
      eapply Forall_impl; [|exact Hf]. intros b (_ & _ & _ & Hb). exact Hb. }
    rewrite units_cons in Hu. cbn [snd] in Hu.
    assert (Hlen : length L = 0%nat) by nia.
    destruct L; [|discriminate].
    unfold units in Hu, Hsp. cbn [fold_right length last_end] in Hu, Hsp, Hle.
    assert (a = lo) by nia. subst a.
    exists s. split; [reflexivity|]. split; lia.
Qed.

(** * Conservation, coalescing and the footprint of the writes *)

Section Conservation.

Variable HSZ : Z.
Hypothesis HSZ_ge : 8 <= HSZ.
Variable SZB : Z.
Hypothesis SZB_ge : 32 <= SZB.
Variable base : Z.
Hypothesis wide : 2 ^ 32 * HSZ <= 2 ^ SZB.

(** X4.  At every point of every run of a client that started on a fresh
    process, the units on the free list and the units in the client's
    hands add up to the region obtained from [sbrk]: no unit is lost
    and none is counted twice. *)
Theorem units_accounted lo st ops f st' live' :
  Inv0 HSZ base lo st -> Forall op_ok ops -> ops <> [] ->
  run HSZ SZB base f st [] ops = Some (st', live') ->
  exists g u,
    free_units base g st' = Some u /\
    (u + live_units HSZ st' live') * HSZ = brk st' - lo.
Proof.
  intros I0 Hok Hne Hrun. assert (HSZ_pos : 0 < HSZ) by lia.
  destruct (run_acct_wf HSZ HSZ_ge SZB SZB_ge base wide lo f ops st [] [] st' live'
              (or_intror (conj I0 (conj eq_refl eq_refl))) Hok Hne Hrun)
    as (L' & A' & I' & -> & Hacc & _).
  exists (S (length L')), (units L').
  split; [exact (inv_free_units HSZ base lo st' L' A' HSZ_pos I')|].
  rewrite (inv_live_units HSZ base lo st' L' A' I').
  rewrite (inv0_brk _ _ _ _ I0) in Hacc. unfold units at 3 4 in Hacc.
  cbn [fold_right] in Hacc. lia.
Qed.

(** X5.  Once a client that started on a fresh process has freed everything
    it allocated, the free list is - besides the sentinel - a single
    block that spans the whole region obtained from [sbrk] (or nothing,
    when the region never grew): [free] has merged every pair of
    neighbours. *)
Theorem free_all_coalesces lo st ops f st' :
  Inv0 HSZ base lo st -> Forall op_ok ops -> ops <> [] ->
  run HSZ SZB base f st [] ops = Some (st', []) ->
  (brk st' = lo /\ h_ptr (mem st' base) = base) \/
  (lo < brk st' /\ h_ptr (mem st' base) = lo /\
   h_size (mem st' lo) * HSZ = brk st' - lo /\ h_ptr (mem st' lo) = base).
Proof.
  intros I0 Hok Hne Hrun. assert (HSZ_pos : 0 < HSZ) by lia.
  destruct (run_acct_wf HSZ HSZ_ge SZB SZB_ge base wide lo f ops st [] [] st' []
              (or_intror (conj I0 (conj eq_refl eq_refl))) Hok Hne Hrun)
    as (L' & A' & I' & EA & Hacc & _).
  destruct A' as [|a A']; [|discriminate]. clear EA.
  rewrite (inv0_brk _ _ _ _ I0) in Hacc. unfold units at 2 3 4 in Hacc.
  cbn [fold_right] in Hacc.
  destruct (full_list_single HSZ base lo st' L' HSZ_pos I' ltac:(lia))
    as [(-> & Eb)|(s & -> & Es & Hs)];
    pose proof (inv_chain _ _ _ _ _ _ I') as Hc; cbn [lseg fst snd] in Hc.
  - left. split; [exact Eb|]. tauto.
  - right. destruct Hc as (_ & _ & E1 & E2 & E3).
    rewrite E1 in E2, E3. rewrite E1, E2, E3.
    split; [nia|]. split; [reflexivity|]. split; [exact Es|reflexivity].
Qed.

End Conservation.

(** * Live blocks are left alone and never overlap *)

Lemma forall_live HSZ base lo st L A (P : block -> Prop) :
  Inv HSZ base lo st L A -> Forall P A ->
  Forall (fun p => P (live_block HSZ st p)) (map (ptr_of HSZ) A).
Proof.
  intros I H. apply Forall_map. rewrite Forall_forall in *. intros b Hb.
  rewrite (inv_live_block HSZ base lo st L A b I Hb). now apply H.
Qed.

Lemma pairwise_live HSZ (lb : Z -> block) : forall A : list block,
  (forall b, In b A -> lb (ptr_of HSZ b) = b) ->
  pairwise_disj HSZ A ->
  pairwise (fun p q => disj HSZ (lb p) (lb q)) (map (ptr_of HSZ) A).
Proof.
  induction A as [|a A IH]; intros Hlb Hd; [exact I|].
  cbn [pairwise_disj] in Hd. destruct Hd as [Ha Hd].
  cbn [map pairwise]. split.
  - apply Forall_map. rewrite Forall_forall in *. intros b Hb.
    rewrite (Hlb a (or_introl eq_refl)), (Hlb b (or_intror Hb)). now apply Ha.
  - apply IH; [|exact Hd]. intros b Hb. apply Hlb. now right.
Qed.

Section Frames.

Variable HSZ : Z.
Hypothesis HSZ_ge : 8 <= HSZ.
Variable SZB : Z.
Hypothesis SZB_ge : 32 <= SZB.
Variable base : Z.
Hypothesis wide : 2 ^ 32 * HSZ <= 2 ^ SZB.

(** X6.  [malloc] writes only to the sentinel, to free blocks and to memory
    it has just obtained from [sbrk]: every header cell that shares a
    byte with a live block is left as it was, and the pointer it
    returns is none of the live pointers. *)
Theorem malloc_spares_live_blocks lo st L A nbytes f r st' :
  Wf HSZ base lo st L A -> uint_range nbytes ->
  malloc HSZ SZB base f st nbytes = Some (r, st') ->
  Forall (fun p => untouched HSZ (mem st) (mem st') (live_block HSZ st p) /\ p <> r)
         (map (ptr_of HSZ) A).
Proof.
  intros W Hnb Hm. assert (HSZ_pos : 0 < HSZ) by lia.
  destruct W as [I|(_ & _ & ->)]; [|constructor].
  pose proof (inv_alloc _ _ _ _ _ _ I) as Hal.
  pose proof (inv_base_pos _ _ _ _ _ _ I) as Hb0.
  pose proof (inv_base_lo _ _ _ _ _ _ I) as Hb1.
  destruct (Z.eq_dec r NULL) as [Er|Er].
  - destruct (malloc_outcome HSZ HSZ_ge SZB SZB_ge base wide lo st L A nbytes f r st'
                (or_introl I) Hnb Hm) as [(_ & E1 & _)|(Hr & _)]; [|contradiction].
    rewrite (inv_init_id HSZ HSZ_ge base lo st L A I) in E1. subst st' r.
    apply Forall_map. rewrite Forall_forall in *. intros b Hb. split.
    + intros x _. reflexivity.
    + destruct (Hal _ Hb) as (B1 & _). unfold ptr_of, NULL. lia.
  - destruct (malloc_acct HSZ SZB base lo st L A nbytes f r st' HSZ_ge SZB_ge wide
                (or_introl I) Hnb Hm Er) as (L1 & I1 & Hfr & _).
    pose proof (inv_adisj _ _ _ _ _ _ I1) as Hd. cbn [pairwise_disj] in Hd.
    destruct Hd as [Hd _].
    pose proof (inv_alloc _ _ _ _ _ _ I1) as Hal1.
    apply Forall_cons_iff in Hal1. destruct Hal1 as [(_ & N2 & _) _]. cbn [snd] in N2.
    apply Forall_map. rewrite Forall_forall in *. intros b Hb.
    rewrite (inv_live_block HSZ base lo st L A b I Hb). split; [now apply Hfr|].
    destruct (Hal _ Hb) as (_ & B2 & _).
    pose proof (disj_neq HSZ HSZ_pos (r - HSZ, nunits_of HSZ SZB nbytes) b N2 B2 (Hd _ Hb)) as Hne. cbn [fst] in Hne.
    unfold ptr_of. lia.
Qed.

(** X7.  At every point of every run of a client, from a fresh process or
    from any well-formed state: the blocks behind the live pointers,
    as their headers record them, lie inside the region, are
    Header-aligned, do not overlap one another and do not overlap any
    block of the free list. *)
Theorem live_blocks_never_overlap lo st L A ops f st' live' :
  Wf HSZ base lo st L A -> Forall op_ok ops ->
  run HSZ SZB base f st (map (ptr_of HSZ) A) ops = Some (st', live') ->
  pairwise (fun p q => disj HSZ (live_block HSZ st' p) (live_block HSZ st' q)) live' /\
  Forall (fun p => in_heap HSZ lo (brk st') (live_block HSZ st' p)) live' /\
  (forall x p, on_chain st' x -> In p live' ->
     disj HSZ (x, h_size (mem st' x)) (live_block HSZ st' p)).
Proof.
  intros W Hok Hrun. assert (HSZ_pos : 0 < HSZ) by lia.
  destruct (run_wf HSZ HSZ_ge SZB SZB_ge base wide lo f ops st L A st' live' W Hok Hrun)
    as (L' & A' & W' & ->).
  destruct W' as [I|(_ & _ & ->)].
  2:{ cbn [map pairwise]. split; [exact Logic.I|]. split; [constructor|]. intros x p _ []. }
  split; [|split].
  - apply pairwise_live; [|exact (inv_adisj _ _ _ _ _ _ I)].
    intros b Hb. exact (inv_live_block HSZ base lo st' L' A' b I Hb).
  - exact (forall_live HSZ base lo st' L' A' _ I (inv_alloc _ _ _ _ _ _ I)).
  - intros x p Hx Hp. apply in_map_iff in Hp. destruct Hp as (b & <- & Hb).
    rewrite (inv_live_block HSZ base lo st' L' A' b I Hb).
    pose proof (chain_in_nodes HSZ base lo st' L' A' I x Hx) as Nx.
    pose proof (inv_alloc _ _ _ _ _ _ I) as Hal. rewrite Forall_forall in Hal.
    destruct (Hal _ Hb) as (B1 & _).
    destruct Nx as [<-|Nx].
    + rewrite (inv_base_size HSZ base lo st' L' A' I). left. unfold blk_end. cbn [fst snd].
      pose proof (inv_base_lo _ _ _ _ _ _ I). lia.
    + apply in_map_iff in Nx. destruct Nx as (c & <- & Hc).
      pose proof (inv_chain _ _ _ _ _ _ I) as Hch.
      rewrite (lseg_sizes _ _ _ _ Hch c (or_intror Hc)).
      pose proof (inv_fdisj _ _ _ _ _ _ I) as Hfd. rewrite Forall_forall in Hfd.
      specialize (Hfd _ Hb). rewrite Forall_forall in Hfd.
      replace (fst c, snd c) with c by now destruct c.
      apply disj_sym. now apply Hfd.
Qed.

End Frames.

(** * The shape of the chain *)

Lemma lseg_end m : forall (L : list block) x y,
  lseg m x L y -> nth_node m (length L) x = y.
Proof.
  induction L as [|b L IH]; intros x y Hl; [exact Hl|].
  cbn [lseg] in Hl. destruct Hl as (_ & _ & Hl).
  cbn [length nth_node]. now apply IH.
Qed.

Lemma gaps_nth_lt HSZ : 0 < HSZ -> forall (L : list block) x i,
  Forall (fun b => 0 <= snd b) L -> gaps HSZ x L ->
  (S i < length L)%nat ->
  fst (nth i L (0, 0)) < fst (nth (S i) L (0, 0)).
Proof.
  intros HSZ_pos. induction L as [|b L IH]; intros x i Hs Hg Hi; [simpl in Hi; lia|].
  apply Forall_cons_iff in Hs. destruct Hs as [Hb Hs].
  cbn [gaps] in Hg. destruct Hg as [_ Hg]. cbn [length] in Hi.
  destruct i as [|i].
  - destruct L as [|c L]; [simpl in Hi; lia|].
    cbn [nth]. cbn [gaps] in Hg. destruct Hg as [Hg _]. unfold blk_end in Hg. nia.
  - change (nth (S i) (b :: L) (0, 0)) with (nth i L (0, 0)).
    change (nth (S (S i)) (b :: L) (0, 0)) with (nth (S i) L (0, 0)).
    apply (IH _ i Hs Hg). lia.
Qed.

Section Shape.

Variable HSZ : Z.
Hypothesis HSZ_ge : 8 <= HSZ.
Variable SZB : Z.
Hypothesis SZB_ge : 32 <= SZB.
Variable base : Z.
Hypothesis wide : 2 ^ 32 * HSZ <= 2 ^ SZB.

(** X8.  After every run of a client that makes at least one call, the
    free list is a ring in address order: starting at the sentinel the
    links lead to strictly higher addresses [k] times and then back to
    the sentinel, the only place where the address drops; the cursor
    is one of these nodes, and every node but the sentinel is a
    non-empty, Header-aligned block inside the region. *)
Theorem free_list_ordered lo st L A ops f st' live' :
  Wf HSZ base lo st L A -> Forall op_ok ops -> ops <> [] ->
  run HSZ SZB base f st (map (ptr_of HSZ) A) ops = Some (st', live') ->
  exists k,
    nth_node (mem st') (S k) base = base /\
    (forall i, (i < k)%nat ->
       nth_node (mem st') i base < nth_node (mem st') (S i) base) /\
    (exists i, (i <= k)%nat /\ nth_node (mem st') i base = freep st') /\
    (forall i, (1 <= i <= k)%nat ->
       in_heap HSZ lo (brk st')
         (nth_node (mem st') i base, h_size (mem st' (nth_node (mem st') i base)))).
Proof.
  intros W Hok Hne Hrun. assert (HSZ_pos : 0 < HSZ) by lia.
  destruct (run_acct_wf HSZ HSZ_ge SZB SZB_ge base wide lo f ops st L A st' live'
              W Hok Hne Hrun) as (L' & A' & I & _).
  destruct (inv_full_facts HSZ HSZ_pos base lo st' L' A' I) as (Hn & Hg & _).
  pose proof (inv_chain _ _ _ _ _ _ I) as Hc.
  set (T := (base, 0) :: L') in *.
  assert (Hnth : forall i, (i < S (length L'))%nat ->
                           nth_node (mem st') i base = fst (nth i T (0, 0))).
  { intros i Hi. apply (lseg_nth _ _ _ _ _ Hc). exact Hi. }
  exists (length L'). split; [|split; [|split]].
  - exact (lseg_end _ _ _ _ Hc).
  - intros i Hi. rewrite !Hnth by lia.
    apply (gaps_nth_lt HSZ HSZ_pos T (base - 1) i Hn Hg). unfold T. cbn [length]. lia.
  - pose proof (inv_freep _ _ _ _ _ _ I) as Hfp.
    change (base :: map fst L') with (map fst T) in Hfp.
    destruct (In_nth _ _ 0 Hfp) as (i & Hi & Ei).
    rewrite length_map in Hi. unfold T in Hi. cbn [length] in Hi.
    exists i. split; [lia|]. rewrite Hnth by lia.
    change 0 with (fst (0, 0)) in Ei. now rewrite map_nth in Ei.
  - intros i Hi. rewrite Hnth by lia.
    destruct i as [|i]; [lia|]. unfold T. cbn [nth].
    assert (Hin : In (nth i L' (0, 0)) L') by (apply nth_In; lia).
    rewrite (lseg_sizes _ _ _ _ Hc _ (or_intror Hin)).
    pose proof (inv_free _ _ _ _ _ _ I) as Hf. rewrite Forall_forall in Hf.
    specialize (Hf _ Hin). now destruct (nth i L' (0, 0)).
Qed.

(** X9.  The region obtained from [sbrk] only ever grows: over any run of a
    client its end stays where it was or moves up by at least 4096
    units, never beyond the limit of the growth primitive, and it
    stays Header-aligned. *)
Theorem region_only_grows lo st L A ops f st' live' :
  Wf HSZ base lo st L A -> Forall op_ok ops ->
  run HSZ SZB base f st (map (ptr_of HSZ) A) ops = Some (st', live') ->
  (brk st' = brk st \/ brk st + 4096 * HSZ <= brk st') /\
  brk st' <= lim st' /\ lim st' = lim st /\ brk st' mod HSZ = 0.
Proof.
  intros W Hok Hrun.
  destruct ops as [|o ops].
  - cbn [run] in Hrun. injection Hrun as <- <-. split; [now left|].
    destruct W as [I|(I0 & _)].
    + split; [exact (inv_brk_lim _ _ _ _ _ _ I)|].
      split; [reflexivity|exact (inv_brk_al _ _ _ _ _ _ I)].
    + split; [exact (inv0_brk_lim _ _ _ _ I0)|].
      split; [reflexivity|exact (inv0_brk_al _ _ _ _ I0)].
  - destruct (run_acct_wf HSZ HSZ_ge SZB SZB_ge base wide lo f (o :: ops) st L A st' live'
                W Hok ltac:(discriminate) Hrun) as (L' & A' & I & _ & _ & Hb & Hl).
    split; [exact Hb|]. split; [exact (inv_brk_lim _ _ _ _ _ _ I)|].
    split; [exact Hl|exact (inv_brk_al _ _ _ _ _ _ I)].
Qed.

End Shape.

(** * Serving a request from the list or by growing *)

Lemma fit_on_chain HSZ base lo st L A n :
  Inv HSZ base lo st L A -> 0 < n ->
  (exists x, on_chain st x /\ n <= h_size (mem st x)) ->
  exists c, In c L /\ n <= snd c.
Proof.
  intros I Hn (x & Hx & Hfit).
  destruct (chain_in_nodes HSZ base lo st L A I x Hx) as [<-|Nx].
  - rewrite (inv_base_size HSZ base lo st L A I) in Hfit. lia.
  - apply in_map_iff in Nx. destruct Nx as (c & <- & Hc).
    exists c. split; [exact Hc|].
    now rewrite <- (lseg_sizes _ _ _ _ (inv_chain _ _ _ _ _ _ I) c (or_intror Hc)).
Qed.

Lemma block_on_chain HSZ base lo st L A c :
  0 < HSZ -> Inv HSZ base lo st L A -> In c L ->
  on_chain st (fst c) /\ h_size (mem st (fst c)) = snd c.
Proof.
  intros HSZ_pos I Hc. split.
  - apply (nodes_on_chain HSZ HSZ_pos base lo st L A I). right. now apply in_map.
  - exact (lseg_sizes _ _ _ _ (inv_chain _ _ _ _ _ _ I) c (or_intror Hc)).
Qed.

Lemma inv_new_ptr HSZ base lo st L q n A :
  0 < HSZ -> Inv HSZ base lo st L ((q, n) :: A) -> q + HSZ <> NULL.
Proof.
  intros HSZ_pos I. pose proof (inv_alloc _ _ _ _ _ _ I) as Ha.
  apply Forall_cons_iff in Ha. destruct Ha as [(Hq & _) _]. cbn [fst] in Hq.
  pose proof (inv_base_pos _ _ _ _ _ _ I). pose proof (inv_base_lo _ _ _ _ _ _ I).
  unfold NULL. lia.
Qed.

Lemma nth_node_add m : forall a b p,
  nth_node m (a + b) p = nth_node m b (nth_node m a p).
Proof.
  induction a as [|a IH]; intros b p; [reflexivity|].
  cbn [Nat.add nth_node]. apply IH.
Qed.

(** Two memories that hold the same ring hold the same chain. *)
Lemma same_ring m m' base (T : list block) :
  T <> [] -> lseg m base T base -> lseg m' base T base ->
  forall i, exists b, In b T /\ nth_node m i base = fst b /\ nth_node m' i base = fst b.
Proof.
  intros HT Hl Hl' i. induction i as [i IH] using lt_wf_ind.
  destruct (Nat.lt_ge_cases i (length T)) as [Hi|Hi].
  - exists (nth i T (0, 0)). split; [now apply nth_In|].
    split; eapply lseg_nth; eassumption.
  - assert (Hlen : (0 < length T)%nat) by (destruct T; [contradiction|simpl; lia]).
    destruct (IH (i - length T)%nat ltac:(lia)) as (b & Hb & E1 & E2).
    exists b. split; [exact Hb|].
    replace i with (length T + (i - length T))%nat by lia.
    rewrite !nth_node_add, (lseg_end _ _ _ _ Hl), (lseg_end _ _ _ _ Hl'). auto.
Qed.

Section Serving.

Variable HSZ : Z.
Hypothesis HSZ_ge : 8 <= HSZ.
Variable SZB : Z.
Hypothesis SZB_ge : 32 <= SZB.
Variable base : Z.
Hypothesis wide : 2 ^ 32 * HSZ <= 2 ^ SZB.

(** X10.  When some block of the free list is large enough, [malloc]
    succeeds without calling [sbrk]: the end of the region stays where
    it is and the units on the free list drop by exactly the unit
    count of the request. *)
Theorem malloc_reuses_free_block lo st L A nbytes :
  Inv HSZ base lo st L A -> uint_range nbytes ->
  (exists x, on_chain st x /\ nunits_of HSZ SZB nbytes <= h_size (mem st x)) ->
  exists N r st',
    (forall f, (N <= f)%nat -> malloc HSZ SZB base f st nbytes = Some (r, st')) /\
    r <> NULL /\ brk st' = brk st /\
    exists g u, free_units base g st = Some u /\
                free_units base g st' = Some (u - nunits_of HSZ SZB nbytes).
Proof.
  intros I Hnb Hx. assert (HSZ_pos : 0 < HSZ) by lia.
  destruct (nunits_wide HSZ HSZ_ge SZB SZB_ge wide nbytes Hnb) as (_ & Hn & _).
  destruct (fit_on_chain HSZ base lo st L A _ I (proj1 Hn) Hx) as (c & Hc1 & Hc2).
  pose proof (inv_init_id HSZ HSZ_ge base lo st L A I) as Ei.
  pose proof I as I0. rewrite <- Ei in I0.
  destruct (malloc_spec HSZ HSZ_ge SZB SZB_ge base wide lo st L A nbytes I0 Hnb)
    as [(_ & q & st' & L' & Hf & I' & Hb & _)|[(Hs & _)|(Hs & _)]].
  2,3: rewrite Forall_forall in Hs; specialize (Hs _ Hc1); lia.
  rewrite Ei in Hb.
  pose proof (inv_new_ptr HSZ base lo st' L' q _ A HSZ_pos I') as Hr.
  destruct (malloc_acct HSZ SZB base lo st L A nbytes _ _ st' HSZ_ge SZB_ge wide
              (or_introl I) Hnb (Hf _ (Nat.le_refl _)) Hr) as (L1 & I1 & _ & _ & _ & Hu).
  exists (S (length L)), (q + HSZ), st'.
  split; [exact Hf|]. split; [exact Hr|]. split; [exact Hb|].
  exists (S (length L) + S (length L1))%nat, (units L).
  split; [apply free_units_mono; exact (inv_free_units HSZ base lo st L A HSZ_pos I)|].
  rewrite Nat.add_comm. apply free_units_mono.
  rewrite (inv_free_units HSZ base lo st' L1 _ HSZ_pos I1). f_equal. nia.
Qed.

(** X11.  When no block of the free list is large enough and the growth
    primitive can deliver, [malloc] succeeds and the region grows by
    exactly [max(nunits, 4096)] units - never by less than the floor
    of 4096; what is left of the new span after the request has been
    carved out of it is on the free list. *)
Theorem malloc_grows_by_floor lo st L A nbytes :
  Wf HSZ base lo st L A -> uint_range nbytes ->
  Forall (fun b => snd b < nunits_of HSZ SZB nbytes) L ->
  brk st + grow_units (nunits_of HSZ SZB nbytes) * HSZ <= lim st ->
  exists N r st',
    (forall f, (N <= f)%nat -> malloc HSZ SZB base f st nbytes = Some (r, st')) /\
    r <> NULL /\
    brk st' = brk st + grow_units (nunits_of HSZ SZB nbytes) * HSZ /\
    brk st + 4096 * HSZ <= brk st' /\
    exists g, free_units base g st'
              = Some (units L + grow_units (nunits_of HSZ SZB nbytes)
                      - nunits_of HSZ SZB nbytes).
Proof.
  intros W Hnb Hsmall Hroom. assert (HSZ_pos : 0 < HSZ) by lia.
  destruct (nunits_wide HSZ HSZ_ge SZB SZB_ge wide nbytes Hnb) as (_ & Hn & _).
  pose proof (wf_init HSZ HSZ_ge base lo st L A W) as I0.
  destruct (init_brk_lim base st) as [Eb El].
  destruct (malloc_spec HSZ HSZ_ge SZB SZB_ge base wide lo st L A nbytes I0 Hnb)
    as [((c & Hc1 & Hc2) & _)|[(_ & _ & q & st' & L' & N & Hf & I' & Hb & _)|(_ & Hlt & _)]].
  { rewrite Forall_forall in Hsmall. specialize (Hsmall _ Hc1). lia. }
  2:{ rewrite Eb, El in Hlt. lia. }
  rewrite Eb in Hb.
  pose proof (inv_new_ptr HSZ base lo st' L' q _ A HSZ_pos I') as Hr.
  destruct (malloc_acct HSZ SZB base lo st L A nbytes _ _ st' HSZ_ge SZB_ge wide
              W Hnb (Hf _ (Nat.le_refl _)) Hr) as (L1 & I1 & _ & _ & _ & Hu).
  exists N, (q + HSZ), st'.
  split; [exact Hf|]. split; [exact Hr|]. split; [exact Hb|].
  split.
  { assert (4096 <= grow_units (nunits_of HSZ SZB nbytes)).
    { unfold grow_units. destruct (Z.ltb_spec (nunits_of HSZ SZB nbytes) 4096); lia. }
    nia. }
  exists (S (length L1)).
  rewrite (inv_free_units HSZ base lo st' L1 _ HSZ_pos I1). f_equal. nia.
Qed.

(** X12.  [morecore] on an initialised allocator, whatever the fuel it is
    run with: either [sbrk] fails and it returns 0 with the state as it
    was, or the region grows by exactly [max(nu, 4096)] units, all of
    which join the free list inside one free block (the new span,
    merged with the block below it when that one reached the old end
    of the region); it then returns the cursor, which is not null, and
    no live block was written to. *)
Theorem morecore_adds_span lo st L A nu f r :
  Inv HSZ base lo st L A -> 0 < nu < 2 ^ 32 ->
  morecore HSZ SZB f st nu = Some r ->
  (r = (NULL, st) /\ lim st < brk st + grow_units nu * HSZ) \/
  (exists st',
     r = (freep st', st') /\ freep st' <> NULL /\
     brk st' = brk st + grow_units nu * HSZ /\ brk st' <= lim st /\
     (exists g u, free_units base g st = Some u /\
                  free_units base g st' = Some (u + grow_units nu)) /\
     (exists x, on_chain st' x /\ x <= brk st /\
                brk st' <= x + h_size (mem st' x) * HSZ) /\
     Forall (fun p => untouched HSZ (mem st) (mem st') (live_block HSZ st p))
            (map (ptr_of HSZ) A)).
Proof.
  intros I Hn Hm. assert (HSZ_pos : 0 < HSZ) by lia.
  destruct (morecore_full HSZ SZB base lo st L A nu f r HSZ_pos wide I Hn Hm)
    as [H|(st' & L' & -> & Hle & I' & Hb & Hl & Hu & (c & Hc1 & Hc2 & Hc3) & _ & Hfr)];
    [left; exact H|right].
  exists st'. split; [reflexivity|].
  split; [pose proof (inv_freep_pos HSZ HSZ_ge base lo st' L' A I'); unfold NULL; lia|].
  split; [exact Hb|]. split; [lia|]. split; [|split].
  - exists (S (length L) + S (length L'))%nat, (units L).
    split; [apply free_units_mono; exact (inv_free_units HSZ base lo st L A HSZ_pos I)|].
    rewrite Nat.add_comm. apply free_units_mono.
    rewrite (inv_free_units HSZ base lo st' L' _ HSZ_pos I'). now rewrite Hu.
  - destruct (block_on_chain HSZ base lo st' L' A c HSZ_pos I' Hc1) as [Hon Hs].
    exists (fst c). split; [exact Hon|]. split; [exact Hc2|].
    rewrite Hs, Hb. exact Hc3.
  - exact (forall_live HSZ base lo st L A _ I Hfr).
Qed.

(** X13.  Allocating from the list and freeing the result at once puts the
    free list back as it was: when a free block is large enough for
    the request, after [p = malloc(nbytes); free(p)] the same blocks,
    with the same sizes, are on the list in the same order and the same
    blocks are live (only the cursor may have moved). *)
Theorem malloc_free_restores_list lo st L A nbytes f r s1 s2 :
  Inv HSZ base lo st L A -> uint_range nbytes ->
  (exists x, on_chain st x /\ nunits_of HSZ SZB nbytes <= h_size (mem st x)) ->
  malloc HSZ SZB base f st nbytes = Some (r, s1) ->
  free HSZ f s1 r = Some s2 ->
  Inv HSZ base lo s2 L A /\
  forall i, nth_node (mem s2) i base = nth_node (mem st) i base /\
            h_size (mem s2 (nth_node (mem s2) i base))
              = h_size (mem st (nth_node (mem st) i base)).
Proof.
  intros I Hnb Hx Hm Hf. assert (HSZ_pos : 0 < HSZ) by lia.
  destruct (nunits_wide HSZ HSZ_ge SZB SZB_ge wide nbytes Hnb) as (_ & Hn & _).
  set (n := nunits_of HSZ SZB nbytes) in *.
  pose proof (fit_on_chain HSZ base lo st L A n I (proj1 Hn) Hx) as Hfit.
  destruct (loop_fit HSZ HSZ_pos SZB base lo st L A n I Hn Hfit)
    as (q & s1' & L' & Hloop & I1 & _ & _ & (K1 & c & sp & F2 & EL & Hsp & Eq & EL')).
  assert (Hm' : malloc HSZ SZB base (S (length L)) st nbytes = Some (q + HSZ, s1')).
  { unfold malloc. rewrite (inv_init_id HSZ HSZ_ge base lo st L A I). exact Hloop. }
  pose proof (malloc_det _ _ _ _ _ _ _ _ _ Hm Hm') as E. injection E as -> ->.
  subst q L'. fold (remainder c sp n) in I1.
  pose proof (inv_gaps _ _ _ _ _ _ I) as G. rewrite EL in G.
  destruct (free_restores HSZ HSZ_pos base lo s1' A K1 c sp F2 n ltac:(lia) I1 G)
    as (pa & Hfree & I2).
  rewrite (free_det _ _ _ _ _ _ _ Hf Hfree). rewrite <- EL in I2.
  split; [exact I2|]. intros i.
  pose proof (inv_chain _ _ _ _ _ _ I) as Hc.
  pose proof (inv_chain _ _ _ _ _ _ I2) as Hc2.
  destruct (same_ring _ _ base ((base, 0) :: L) ltac:(discriminate) Hc2 Hc i)
    as (b & Hb & E1 & E2).
  rewrite E1, E2. split; [reflexivity|].
  rewrite (lseg_sizes _ _ _ _ Hc2 b Hb). symmetry. exact (lseg_sizes _ _ _ _ Hc b Hb).
Qed.

(** X14.  Freed memory is there for the next request: after [free] of a
    live block, every request that needs no more units than that block
    had is served from the free list - [malloc] succeeds and the region
    does not grow. *)
Theorem freed_block_is_reusable lo st L A f ap st1 nbytes :
  Inv HSZ base lo st L A -> In ap (map (ptr_of HSZ) A) ->
  free HSZ f st ap = Some st1 -> uint_range nbytes ->
  nunits_of HSZ SZB nbytes <= h_size (mem st (ap - HSZ)) ->
  exists N r st2,
    (forall g, (N <= g)%nat -> malloc HSZ SZB base g st1 nbytes = Some (r, st2)) /\
    r <> NULL /\ brk st2 = brk st.
Proof.
  intros I Hin Hf Hnb Hle. assert (HSZ_pos : 0 < HSZ) by lia.
  destruct (remove_first_split HSZ ap A Hin) as (A1 & b & A2 & -> & Eb & _).
  rewrite <- Eb in Hf, Hle. rewrite ptr_of_back in Hle.
  pose proof (inv_asize _ _ _ _ _ _ I) as Hs. rewrite Forall_forall in Hs.
  rewrite (Hs b) in Hle by (apply in_or_app; right; now left).
  destruct (free_acct HSZ base lo st L A1 b A2 f st1 HSZ_pos I Hf)
    as (L1 & I1 & _ & _ & _ & Hb & _ & (c & Hc1 & Hc2 & Hc3)).
  pose proof (inv_init_id HSZ HSZ_ge base lo st1 L1 _ I1) as Ei.
  pose proof I1 as I0. rewrite <- Ei in I0.
  destruct (malloc_spec HSZ HSZ_ge SZB SZB_ge base wide lo st1 L1 _ nbytes I0 Hnb)
    as [(_ & q & st2 & L2 & Hm & I2 & Hb2 & _)|[(Hsm & _)|(Hsm & _)]].
  2,3: rewrite Forall_forall in Hsm; specialize (Hsm _ Hc1); unfold blk_end in Hc3; nia.
  exists (S (length L1)), (q + HSZ), st2.
  split; [exact Hm|]. split; [exact (inv_new_ptr HSZ base lo st2 L2 q _ _ HSZ_pos I2)|].
  rewrite Hb2, Ei. exact Hb.
Qed.

End Serving.

(** * Termination of [malloc], the cursor, and blocks held across a run *)

Section Holding.

Variable HSZ : Z.
Hypothesis HSZ_ge : 8 <= HSZ.
Variable SZB : Z.
Hypothesis SZB_ge : 32 <= SZB.
Variable base : Z.
Hypothesis wide : 2 ^ 32 * HSZ <= 2 ^ SZB.

(** X15.  [malloc] always returns.  On a well-formed state whose free list
    has [length L] blocks, fuel [2 * length L + 3] is enough for its
    search loop and for the scan of [free] inside [morecore]: one
    round of the list and, when the region has grown, one more round
    of the grown list; more fuel does not change the result. *)
Theorem malloc_terminates lo st L A nbytes :
  Wf HSZ base lo st L A -> uint_range nbytes ->
  exists r st', forall f, (2 * length L + 3 <= f)%nat ->
    malloc HSZ SZB base f st nbytes = Some (r, st').
Proof.
  intros W Hnb. assert (HSZ_pos : 0 < HSZ) by lia.
  pose proof (wf_init HSZ HSZ_ge base lo st L A W) as I.
  destruct (nunits_wide HSZ HSZ_ge SZB SZB_ge wide nbytes Hnb) as (_ & Hn & _).
  destruct (malloc_spec HSZ HSZ_ge SZB SZB_ge base wide lo st L A nbytes I Hnb)
    as [(_ & q & st' & L' & Hf & _)|[(Hs & Hroom & _)|(_ & _ & Hf)]].
  - exists (q + HSZ), st'. intros f Hle. apply Hf. lia.
  - set (n := nunits_of HSZ SZB nbytes) in *. set (st0 := init base st) in *.
    destruct (morecore_spec HSZ HSZ_pos SZB base wide lo st0 L A n (S (S (length L)))
                I Hn ltac:(lia)) as [[Hlt _]|(_ & st1 & L1' & Hm & I1' & _)].
    { fold (grow_units n) in Hlt. lia. }
    destruct (morecore_full HSZ SZB base lo st0 L A n _ _ HSZ_pos wide I Hn Hm)
      as [(E & _)|(s1 & L1 & E & _ & I1 & _ & _ & _ & (c & Hc1 & Hc2 & Hc3) & Hlen & _)].
    { injection E as E _.
      pose proof (inv_freep_pos HSZ HSZ_ge base lo st1 L1' A I1'). unfold NULL in E. lia. }
    injection E as _ <-.
    assert (Hfit : exists c, In c L1 /\ n <= snd c).
    { exists c. split; [exact Hc1|]. destruct (grow_units_range 0 n Hn) as (Hg & _).
      unfold blk_end in Hc3. nia. }
    destruct (loop_fit HSZ HSZ_pos SZB base lo st1 L1 A n I1 Hn Hfit)
      as (q & st' & L' & Hloop & _).
    exists (q + HSZ), st'. intros f Hle. unfold malloc. fold st0. fold n.
    replace f with (S (length L) + (f - S (length L)))%nat by lia.
    rewrite (loop_nofit HSZ HSZ_pos SZB base lo st0 L A n _ I ltac:(lia) Hs).
    replace (f - S (length L))%nat
      with (S (S (length L)) + (f - S (length L) - S (S (length L))))%nat at 1 by lia.
    rewrite (morecore_fuel_mono HSZ SZB _ _ _ _ _ Hm).
    assert (Hfp : (freep st1 =? NULL) = false).
    { apply Z.eqb_neq. pose proof (inv_freep_pos HSZ HSZ_ge base lo st1 L1 A I1).
      unfold NULL. lia. }
    rewrite Hfp.
    replace (f - S (length L))%nat
      with (S (length L1) + (f - S (length L) - S (length L1)))%nat by lia.
    apply malloc_loop_mono. exact Hloop.
  - exists NULL, (init base st). intros f Hle. apply Hf. lia.
Qed.

Lemma untouched_step (m1 m2 m3 : memory) (b : block) :
  untouched HSZ m1 m2 b -> untouched HSZ m2 m3 b -> untouched HSZ m1 m3 b.
Proof. intros H1 H2 x Hx. rewrite (H2 x Hx). exact (H1 x Hx). Qed.

Lemma run_frame lo f (b : block) : forall ops st L A st' live',
  Inv HSZ base lo st L A -> Forall op_ok ops ->
  In b A -> ~ In (Ofree (ptr_of HSZ b)) ops ->
  run HSZ SZB base f st (map (ptr_of HSZ) A) ops = Some (st', live') ->
  exists L' A',
    Inv HSZ base lo st' L' A' /\ live' = map (ptr_of HSZ) A' /\
    In b A' /\ untouched HSZ (mem st) (mem st') b.
Proof.
  assert (HSZ_pos : 0 < HSZ) by lia.
  induction ops as [|o ops IH]; intros st L A st' live' I Hok Hb Hnf Hrun.
  - cbn [run] in Hrun. injection Hrun as <- <-. exists L, A.
    split; [exact I|]. split; [reflexivity|]. split; [exact Hb|]. intros x _. reflexivity.
  - apply Forall_cons_iff in Hok. destruct Hok as [Ho Hok].
    assert (Hnf' : ~ In (Ofree (ptr_of HSZ b)) ops) by (intros H; apply Hnf; now right).
    destruct o as [n|ap]; cbn [run] in Hrun.
    + destruct (malloc HSZ SZB base f st n) as [[r st1]|] eqn:Em; [|discriminate].
      destruct (Z.eqb_spec r NULL) as [Er|Er].
      * destruct (malloc_outcome HSZ HSZ_ge SZB SZB_ge base wide lo st L A n f r st1
                    (or_introl I) Ho Em) as [(_ & E1 & _)|(Hr & _)]; [|contradiction].
        rewrite (inv_init_id HSZ HSZ_ge base lo st L A I) in E1. subst st1.
        exact (IH st L A st' live' I Hok Hb Hnf' Hrun).
      * destruct (malloc_acct HSZ SZB base lo st L A n f r st1 HSZ_ge SZB_ge wide
                    (or_introl I) Ho Em Er) as (L1 & I1 & Hfr & _).
        rewrite <- (ptr_of_new HSZ r (nunits_of HSZ SZB n)) in Hrun at 1.
        change (ptr_of HSZ (r - HSZ, nunits_of HSZ SZB n) :: map (ptr_of HSZ) A)
          with (map (ptr_of HSZ) ((r - HSZ, nunits_of HSZ SZB n) :: A)) in Hrun.
        destruct (IH st1 L1 _ st' live' I1 Hok (or_intror Hb) Hnf' Hrun)
          as (L' & A' & I' & El & Hb' & Hfr').
        exists L', A'. split; [exact I'|]. split; [exact El|]. split; [exact Hb'|].
        rewrite Forall_forall in Hfr. exact (untouched_step _ _ _ _ (Hfr _ Hb) Hfr').
    + destruct (existsb (Z.eqb ap) (map (ptr_of HSZ) A)) eqn:Ex; [|discriminate].
      apply existsb_exists in Ex. destruct Ex as (x & Hx & Ex).
      apply Z.eqb_eq in Ex. subst x.
      destruct (remove_first_split HSZ ap A Hx) as (A1 & c & A2 & -> & Ec & Er).
      rewrite Er in Hrun.
      destruct (free HSZ f st ap) as [st1|] eqn:Ef; [|discriminate].
      rewrite <- Ec in Ef.
      destruct (free_acct HSZ base lo st L A1 c A2 f st1 HSZ_pos I Ef)
        as (L1 & I1 & _ & _ & Hfr & _).
      assert (Hb1 : In b (A1 ++ A2)).
      { apply in_app_or in Hb. apply in_or_app. destruct Hb as [Hb|[Hb|Hb]]; [now left| |now right].
        exfalso. apply Hnf. left. now rewrite <- Hb, Ec. }
      destruct (IH st1 L1 _ st' live' I1 Hok Hb1 Hnf' Hrun)
        as (L' & A' & I' & El & Hb' & Hfr').
      exists L', A'. split; [exact I'|]. split; [exact El|]. split; [exact Hb'|].
      rewrite Forall_forall in Hfr. exact (untouched_step _ _ _ _ (Hfr _ Hb1) Hfr').
Qed.

(** X16.  A block the client holds is its own for as long as it does not free
    it: over any run of further [malloc] and [free] calls that does not
    free the pointer [p], the pointer stays live, its header still
    records the same size, and every header cell that shares a byte
    with the block - with its header or with its client data - is as
    it was. *)
Theorem live_block_survives_run lo st L A ops f st' live' p :
  Wf HSZ base lo st L A -> Forall op_ok ops ->
  In p (map (ptr_of HSZ) A) -> ~ In (Ofree p) ops ->
  run HSZ SZB base f st (map (ptr_of HSZ) A) ops = Some (st', live') ->
  In p live' /\
  live_block HSZ st' p = live_block HSZ st p /\
  untouched HSZ (mem st) (mem st') (live_block HSZ st p).
Proof.
  intros W Hok Hp Hnf Hrun.
  apply in_map_iff in Hp. destruct Hp as (b & <- & Hb).
  pose proof (wf_live_inv HSZ base lo st L A b W Hb) as I.
  destruct (run_frame lo f b ops st L A st' live' I Hok Hb Hnf Hrun)
    as (L' & A' & I' & -> & Hb' & Hfr).
  rewrite (inv_live_block HSZ base lo st L A b I Hb).
  rewrite (inv_live_block HSZ base lo st' L' A' b I' Hb').
  split; [now apply in_map|]. split; [reflexivity|exact Hfr].
Qed.

End Holding.

(** * The search policy and the cost of a request *)

Section Policy.

Variable HSZ : Z.
Hypothesis HSZ_ge : 8 <= HSZ.
Variable SZB : Z.
Hypothesis SZB_ge : 32 <= SZB.
Variable base : Z.
Hypothesis wide : 2 ^ 32 * HSZ <= 2 ^ SZB.

(** The walk of [malloc] from [prevp] when it ends without growing the
    region: the nodes it passes are too small and it takes the units
    from the tail of the first node that is not. *)
Lemma loop_first lo A n :
  0 < n < 2 ^ 32 ->
  forall f st L prevp r st',
    Inv HSZ base lo st L A -> In prevp (base :: map fst L) ->
    malloc_loop HSZ SZB f st prevp (h_ptr (mem st prevp)) n = Some (r, st') ->
    r <> NULL -> brk st' = brk st ->
    exists k,
      (forall j, (j < k)%nat -> h_size (mem st (nth_node (mem st) (S j) prevp)) < n) /\
      n <= h_size (mem st (nth_node (mem st) (S k) prevp)) /\
      r = nth_node (mem st) (S k) prevp
          + (h_size (mem st (nth_node (mem st) (S k) prevp)) - n) * HSZ + HSZ.
Proof.
  intros Hn. assert (HSZ_pos : 0 < HSZ) by lia.
  induction f as [|f IH]; intros st L prevp r st' I Hin Hl Hr Hb; [discriminate|].
  cbn [malloc_loop] in Hl.
  destruct (n <=? h_size (mem st (h_ptr (mem st prevp)))) eqn:Efit.
  - apply Z.leb_le in Efit.
    destruct (take_inv HSZ HSZ_pos base lo st L A prevp n I Hin Hn Efit)
      as (K1 & sp & F2 & L' & _ & Esp & Eq & _).
    destruct (take HSZ (mem st) prevp (h_ptr (mem st prevp)) n) as [m' q] eqn:Et.
    cbn [snd] in Eq. injection Hl as <- _.
    exists 0%nat. split; [intros j Hj; lia|]. cbn [nth_node].
    split; [exact Efit|]. rewrite Esp, Eq. reflexivity.
  - apply Z.leb_gt in Efit.
    destruct (h_ptr (mem st prevp) =? freep st) eqn:Ep.
    + exfalso.
      destruct (morecore HSZ SZB f st n) as [[p' st1]|] eqn:Em; [|discriminate].
      destruct (Z.eqb_spec p' NULL) as [En|En].
      { injection Hl as <- _. contradiction. }
      destruct (morecore_full HSZ SZB base lo st L A n f _ HSZ_pos wide I Hn Em)
        as [(E & _)|(s1 & L1 & E & _ & I1 & Hb1 & _)].
      { injection E as E _. contradiction. }
      injection E as -> ->.
      destruct (loop_acct HSZ SZB base lo A n HSZ_pos wide Hn f s1 L1 (freep s1) r st'
                  I1 (inv_freep _ _ _ _ _ _ I1) Hl Hr) as (_ & _ & _ & _ & Hbrk & _).
      assert (4096 <= grow_units n).
      { unfold grow_units. destruct (Z.ltb_spec n 4096); lia. }
      destruct Hbrk; nia.
    + destruct (IH st L (h_ptr (mem st prevp)) r st' I
                  (nodes_closed HSZ base lo st L A prevp I Hin) Hl Hr Hb)
        as (k & Hsmall & Hbig & Er).
      exists (S k). split; [|split; [exact Hbig|exact Er]].
      intros j Hj. destruct j as [|j]; [exact Efit|]. apply Hsmall. lia.
Qed.

(** X17.  Next fit: when [malloc] serves a request without growing the
    region, the block it takes the units from is the first one, going
    round the list from the node after the cursor, that is large
    enough; the pointer it returns is the tail of that block. *)
Theorem malloc_next_fit lo st L A nbytes f r st' :
  Inv HSZ base lo st L A -> uint_range nbytes ->
  malloc HSZ SZB base f st nbytes = Some (r, st') ->
  r <> NULL -> brk st' = brk st ->
  exists k,
    (forall j, (j < k)%nat ->
       h_size (mem st (nth_node (mem st) (S j) (freep st))) < nunits_of HSZ SZB nbytes) /\
    nunits_of HSZ SZB nbytes <= h_size (mem st (nth_node (mem st) (S k) (freep st))) /\
    r = nth_node (mem st) (S k) (freep st)
        + (h_size (mem st (nth_node (mem st) (S k) (freep st))) - nunits_of HSZ SZB nbytes)
          * HSZ + HSZ.
Proof.
  intros I Hnb Hm Hr Hb.
  destruct (nunits_wide HSZ HSZ_ge SZB SZB_ge wide nbytes Hnb) as (_ & Hn & _).
  unfold malloc in Hm. rewrite (inv_init_id HSZ HSZ_ge base lo st L A I) in Hm.
  exact (loop_first lo A _ Hn f st L (freep st) r st' I (inv_freep _ _ _ _ _ _ I) Hm Hr Hb).
Qed.

(** X18.  The cost of a request: the usable part of the block that [malloc]
    reserves for [nbytes] bytes (the block without its header unit)
    holds the request and exceeds it by less than one unit, and a
    larger request never gets fewer units. *)
Theorem nunits_overhead nbytes nbytes' :
  uint_range nbytes -> uint_range nbytes' -> nbytes <= nbytes' ->
  nbytes <= (nunits_of HSZ SZB nbytes - 1) * HSZ < nbytes + HSZ /\
  nunits_of HSZ SZB nbytes <= nunits_of HSZ SZB nbytes'.
Proof.
  intros H1 H2 Hle. assert (HSZ_pos : 0 < HSZ) by lia.
  destruct (nunits_wide HSZ HSZ_ge SZB SZB_ge wide nbytes H1) as (E1 & _ & _).
  destruct (nunits_wide HSZ HSZ_ge SZB SZB_ge wide nbytes' H2) as (E2 & _ & _).
  rewrite E1, E2. split.
  - unfold ceil_div.
    pose proof (Z.div_mod nbytes HSZ ltac:(lia)) as Hdm.
    pose proof (Z.mod_pos_bound nbytes HSZ HSZ_pos) as Hmb.
    destruct (Z.eqb_spec (nbytes mod HSZ) 0) as [E|E]; nia.
  - rewrite !ceil_div_spec by lia.
    assert ((nbytes + HSZ - 1) / HSZ <= (nbytes' + HSZ - 1) / HSZ)
      by (apply Z.div_le_mono; lia).
    lia.
Qed.

End Policy.

(** * Where [free] leaves the cursor *)

(** After [free] of a live block the cursor is on the node before the
    block: its link leads to the block, unless the block was merged
    into it. *)
Lemma free_cursor HSZ base lo st L A1 bp s A2 :
  0 < HSZ ->
  Inv HSZ base lo st L (A1 ++ (bp, s) :: A2) ->
  exists L' pa,
    free HSZ (S (length L)) st (bp + HSZ) = Some (free_link HSZ st bp pa) /\
    Inv HSZ base lo (free_link HSZ st bp pa) L' (A1 ++ A2) /\
    (h_ptr (mem (free_link HSZ st bp pa) pa) = bp \/
     exists ps, In (pa, ps) ((base, 0) :: L) /\ pa + ps * HSZ = bp).
Proof.
  intros HSZ_pos I.
  destruct (free_inv HSZ HSZ_pos base lo st L A1 bp s A2 I)
    as (L' & pa & Hfree & I' & _ & (Fp & ps & L2 & s1 & L2' & X & E & E' & _ & _ & R2)).
  exists L', pa. split; [exact Hfree|]. split; [exact I'|].
  destruct R2 as [(-> & _)|(_ & Hadj & _)].
  - left. pose proof (inv_chain _ _ _ _ _ _ I') as Hc. rewrite E' in Hc.
    apply lseg_app in Hc. destruct Hc as (z & _ & Hc).
    cbn [app lseg fst snd] in Hc. destruct Hc as (-> & _ & Hc & _). exact Hc.
  - right. exists ps. split; [|exact Hadj]. rewrite E. apply in_or_app. right. now left.
Qed.

Section ReuseWhole.

Variable HSZ : Z.
Hypothesis HSZ_ge : 8 <= HSZ.
Variable SZB : Z.
Hypothesis SZB_ge : 32 <= SZB.
Variable base : Z.
Hypothesis wide : 2 ^ 32 * HSZ <= 2 ^ SZB.

(** When the search takes a block whole, the block goes back to its
    place on [free] with the cursor just before it, and the next search
    takes it again. *)
Lemma reuse_whole lo st L A nbytes :
  Inv HSZ base lo st L A -> uint_range nbytes ->
  first_fit_exact st (nunits_of HSZ SZB nbytes) ->
  exists N p1 s1 s2 s3,
    p1 <> NULL /\
    forall f, (N <= f)%nat ->
      malloc HSZ SZB base f st nbytes = Some (p1, s1) /\
      free HSZ f s1 p1 = Some s2 /\
      malloc HSZ SZB base f s2 nbytes = Some (p1, s3) /\
      brk s3 = brk s1.
Proof.
  intros I Hnb (k & Hsmall & Hexact). assert (HSZ_pos : 0 < HSZ) by lia.
  destruct (nunits_wide HSZ HSZ_ge SZB SZB_ge wide nbytes Hnb) as (_ & Hn & _).
  set (n := nunits_of HSZ SZB nbytes) in *.
  set (c := nth_node (mem st) (S k) (freep st)) in *.
  assert (Hfit : exists b, In b L /\ n <= snd b).
  { apply (fit_on_chain HSZ base lo st L A n I (proj1 Hn)).
    exists c. split; [exists (S k); reflexivity|lia]. }
  destruct (loop_fit HSZ HSZ_pos SZB base lo st L A n I Hn Hfit)
    as (q & s1 & L' & Hloop & I1 & Hb1 & _ & (K1 & c' & sp & F2 & EL & Hsp & Eq & EL')).
  pose proof (inv_new_ptr HSZ base lo s1 L' q n A HSZ_pos I1) as Hr.
  (* the block taken is the first fit, which is exact *)
  destruct (loop_first HSZ HSZ_ge SZB SZB_ge base wide lo A n Hn (S (length L)) st L (freep st)
              (q + HSZ) s1 I (inv_freep _ _ _ _ _ _ I) Hloop Hr Hb1)
    as (k' & Hsmall' & Hbig' & Er).
  assert (Ek : k' = k).
  { destruct (Nat.lt_trichotomy k' k) as [Hlt|[Heq|Hgt]]; [|exact Heq|].
    - specialize (Hsmall _ Hlt). lia.
    - specialize (Hsmall' _ Hgt). fold c in Hsmall'. lia. }
  subst k'. fold c in Hbig', Er. rewrite Hexact in Er.
  assert (Eqc : q = c) by lia.
  assert (Ecc : c' = c /\ sp = n).
  { pose proof (in_heap_nonneg HSZ _ _ _ (inv_free _ _ _ _ _ _ I)) as Hnn.
    assert (Hc' : In (c', sp) L) by (rewrite EL; apply in_or_app; right; now left).
    assert (Hc : In (c, n) L).
    { destruct (chain_in_nodes HSZ base lo st L A I c (ex_intro _ (S k) eq_refl)) as [Eb|Nc].
      - exfalso. rewrite <- Eb in Hexact.
        rewrite (inv_base_size HSZ base lo st L A I) in Hexact. lia.
      - apply in_map_iff in Nc. destruct Nc as ([a sa] & Ea & Ha). cbn [fst] in Ea. subst a.
        pose proof (lseg_sizes _ _ _ _ (inv_chain _ _ _ _ _ _ I) _ (or_intror Ha)) as Es.
        cbn [fst snd] in Es. rewrite Hexact in Es. now subst sa. }
    destruct (gaps_order HSZ HSZ_pos _ _ Hnn (inv_gaps _ _ _ _ _ _ I) _ _ Hc Hc')
      as [E|[Hlt|Hlt]]; unfold blk_end in *; cbn [fst snd] in *.
    - injection E as <- <-. auto.
    - nia.
    - nia. }
  destruct Ecc as [-> ->]. subst q L'. clear Eqc.
  fold (remainder c n n) in I1.
  pose proof (inv_gaps _ _ _ _ _ _ I) as G. rewrite EL in G.
  destruct (free_restores HSZ HSZ_pos base lo s1 A K1 c n F2 n ltac:(lia) I1 G)
    as (pa & Hfree & I2).
  rewrite <- EL in I2.
  replace (c + (n - n) * HSZ) with c in * by ring.
  set (L1 := K1 ++ remainder c n n ++ F2) in *.
  (* the cursor is just before the block again *)
  destruct (free_cursor HSZ base lo s1 L1 [] c n A HSZ_pos I1)
    as (L2 & pa' & Hfree' & _ & Hcur).
  assert (Epa : pa' = pa).
  { rewrite Hfree in Hfree'. apply (f_equal (option_map freep)) in Hfree'.
    unfold free_link in Hfree'. cbn [option_map freep] in Hfree'. congruence. }
  subst pa'. clear Hfree'.
  set (s2 := free_link HSZ s1 c pa) in *.
  assert (Hnext : h_ptr (mem s2 pa) = c).
  { destruct Hcur as [H|(ps & Hin & Hadj)]; [exact H|exfalso].
    pose proof (inv_free _ _ _ _ _ _ I) as Hheap.
    pose proof (in_heap_nonneg HSZ _ _ _ Hheap) as Hnn.
    rewrite Forall_forall in Hheap.
    assert (Hc : In (c, n) L) by (rewrite EL; apply in_or_app; right; now left).
    destruct (Hheap _ Hc) as (Hlo & _). cbn [fst] in Hlo.
    pose proof (inv_base_lo _ _ _ _ _ _ I) as Hbl.
    destruct Hin as [Hin|Hin]; [injection Hin as <- <-; lia|].
    assert (HinL : In (pa, ps) L).
    { unfold L1, remainder in Hin. rewrite Z.eqb_refl in Hin. cbn [app] in Hin.
      rewrite EL. apply in_app_or in Hin. apply in_or_app.
      destruct Hin; [now left|right; now right]. }
    destruct (Hheap _ HinL) as (_ & Hps & _). cbn [snd] in Hps.
    apply (gaps_no_adj HSZ HSZ_pos L base Hnn (inv_gaps _ _ _ _ _ _ I) (pa, ps) (c, n)
             HinL Hc); cbn [fst snd]; [nia|]. unfold blk_end. cbn [fst snd]. exact Hadj. }
  assert (Hsz : h_size (mem s2 c) = n).
  { assert (Hc : In (c, n) ((base, 0) :: L)).
    { right. rewrite EL. apply in_or_app. right. now left. }
    exact (lseg_sizes _ _ _ _ (inv_chain _ _ _ _ _ _ I2) _ Hc). }
  eexists (S (length L) + S (length L1))%nat, (c + HSZ), s1, s2, _.
  split; [exact Hr|]. intros f Hf.
  split; [|split; [|split]].
  - unfold malloc. rewrite (inv_init_id HSZ HSZ_ge base lo st L A I). fold n.
    replace f with (S (length L) + (f - S (length L)))%nat by lia.
    apply malloc_loop_mono. exact Hloop.
  - replace f with (S (length L1) + (f - S (length L1)))%nat by lia.
    apply free_fuel_mono. exact Hfree.
  - unfold malloc. rewrite (inv_init_id HSZ HSZ_ge base lo s2 L A I2). fold n.
    destruct f as [|f]; [lia|]. cbn [malloc_loop].
    change (freep s2) with pa. rewrite Hnext, Hsz, Z.leb_refl.
    unfold take. rewrite Hsz, Z.eqb_refl. reflexivity.
  - reflexivity.
Qed.

End ReuseWhole.

(** * Merging on [free] and reuse after [free]: main results *)

Section Merging.

Variable HSZ : Z.
Hypothesis HSZ_ge : 8 <= HSZ.
Variable SZB : Z.
Hypothesis SZB_ge : 32 <= SZB.
Variable base : Z.
Hypothesis wide : 2 ^ 32 * HSZ <= 2 ^ SZB.

(** C2.  [free] of a live pointer returns, and afterwards no block on
    the free list ends where another block on it starts, the freed
    block lies inside one block of the list, and the units on the list
    have grown by exactly the size of the freed block: whatever was
    adjacent to it has become one block with it.  The same holds when
    [morecore] hands freshly grown memory to [free]: the whole new span
    lies inside one block of the list, and no two blocks of the list
    are adjacent.  After [malloc], which returns for all large fuel,
    no two blocks are adjacent and every unit of the region that was
    free or has been grown, less the units handed out, is on the
    list. *)
Theorem free_restores_no_adjacent lo st L A :
  Wf HSZ base lo st L A ->
  (forall b, In b A ->
     exists st',
       (forall f, (S (length L) <= f)%nat ->
                  free HSZ f st (ptr_of HSZ b) = Some st') /\
       no_adjacent HSZ st' /\
       (exists x, on_chain st' x /\ x <= fst b /\
                  fst b + snd b * HSZ <= x + h_size (mem st' x) * HSZ) /\
       (exists g u, free_units base g st = Some u /\
                    free_units base g st' = Some (u + snd b))) /\
  (forall n, 0 < n < 2 ^ 32 ->
     exists p st',
       (forall f, (S (length L) <= f)%nat ->
                  morecore HSZ SZB f (init base st) n = Some (p, st')) /\
       no_adjacent HSZ st' /\
       (p = NULL /\ st' = init base st \/
        p <> NULL /\ brk st' = brk st + grow_units n * HSZ /\
        exists x, on_chain st' x /\ x <= brk st /\
                  brk st' <= x + h_size (mem st' x) * HSZ)) /\
  (forall nbytes, uint_range nbytes ->
     exists N r st',
       (forall f, (N <= f)%nat -> malloc HSZ SZB base f st nbytes = Some (r, st')) /\
       (forall f r1 st1, malloc HSZ SZB base f st nbytes = Some (r1, st1) ->
                         r1 = r /\ st1 = st') /\
       no_adjacent HSZ st' /\
       exists g u,
         free_units base g st' = Some u /\
         (r <> NULL ->
          (u + nunits_of HSZ SZB nbytes) * HSZ = units L * HSZ + (brk st' - brk st)) /\
         (r = NULL -> u = units L /\ brk st' = brk st)).
Proof.
  intros W. assert (HSZ_pos : 0 < HSZ) by lia.
  split; [|split].
  - intros b Hb. pose proof (wf_live_inv _ _ _ _ _ _ _ W Hb) as I.
    apply in_split in Hb. destruct Hb as (A1 & A2 & ->). destruct b as [bp s].
    destruct (free_full HSZ base lo st L A1 bp s A2 HSZ_pos I)
      as (L' & pa & Hfree & I' & (c & Hc1 & Hc2 & Hc3) & Hu & _).
    exists (free_link HSZ st bp pa). split; [|split; [|split]].
    + intros f Hf. replace f with (S (length L) + (f - S (length L)))%nat by lia.
      apply free_fuel_mono. exact Hfree.
    + exact (inv_no_adjacent HSZ HSZ_pos base lo _ L' _ I').
    + destruct (block_on_chain HSZ base lo _ L' _ c HSZ_pos I' Hc1) as [Hon Hs].
      exists (fst c). rewrite Hs. cbn [fst snd]. unfold blk_end in Hc3. auto.
    + exists (S (length L) + S (length L'))%nat, (units L). split.
      * apply free_units_mono. exact (inv_free_units HSZ base lo st L _ HSZ_pos I).
      * rewrite Nat.add_comm. apply free_units_mono.
        rewrite (inv_free_units HSZ base lo _ L' _ HSZ_pos I'). cbn [snd]. now rewrite Hu.
  - intros n Hn.
    pose proof (wf_init HSZ HSZ_ge base lo st L A W) as I.
    destruct (init_brk_lim base st) as [Eb _].
    destruct (morecore_spec HSZ HSZ_pos SZB base wide lo (init base st) L A n (S (length L))
                I Hn ltac:(lia)) as [[_ Hm]|(_ & st1 & L1 & Hm & I1 & _)].
    + exists NULL, (init base st). split; [|split].
      * intros f Hf. replace f with (S (length L) + (f - S (length L)))%nat by lia.
        apply morecore_fuel_mono. exact Hm.
      * exact (inv_no_adjacent HSZ HSZ_pos base lo _ L A I).
      * left. auto.
    + exists (freep st1), st1. split; [|split].
      * intros f Hf. replace f with (S (length L) + (f - S (length L)))%nat by lia.
        apply morecore_fuel_mono. exact Hm.
      * exact (inv_no_adjacent HSZ HSZ_pos base lo _ L1 A I1).
      * right.
        split; [pose proof (inv_freep_pos HSZ HSZ_ge base lo st1 L1 A I1); unfold NULL; lia|].
        destruct (morecore_full HSZ SZB base lo (init base st) L A n _ _ HSZ_pos wide I Hn Hm)
          as [(E & _)|(s2 & L2 & E & _ & I2 & Hb & _ & _ & (c & Hc1 & Hc2 & Hc3) & _)].
        { injection E as E _.
          pose proof (inv_freep_pos HSZ HSZ_ge base lo st1 L1 A I1). unfold NULL in E. lia. }
        injection E as _ <-. rewrite Eb in Hb, Hc2, Hc3.
        split; [exact Hb|].
        destruct (block_on_chain HSZ base lo st1 L2 A c HSZ_pos I2 Hc1) as [Hon Hs].
        exists (fst c). rewrite Hs, Hb. unfold blk_end in Hc3. auto.
  - intros nbytes Hnb.
    pose proof (wf_init HSZ HSZ_ge base lo st L A W) as I.
    assert (Hdet : forall N r st',
               (forall f, (N <= f)%nat -> malloc HSZ SZB base f st nbytes = Some (r, st')) ->
               forall f r1 st1, malloc HSZ SZB base f st nbytes = Some (r1, st1) ->
                                r1 = r /\ st1 = st').
    { intros N r st' Hf f r1 st1 Hm.
      pose proof (malloc_det _ _ _ _ _ _ _ _ _ Hm (Hf N (Nat.le_refl _))) as E.
      now injection E. }
    assert (Hok : forall N q st' L',
               (forall f, (N <= f)%nat ->
                          malloc HSZ SZB base f st nbytes = Some (q + HSZ, st')) ->
               Inv HSZ base lo st' L' ((q, nunits_of HSZ SZB nbytes) :: A) ->
               no_adjacent HSZ st' /\
               exists g u,
                 free_units base g st' = Some u /\
                 (q + HSZ <> NULL ->
                  (u + nunits_of HSZ SZB nbytes) * HSZ
                  = units L * HSZ + (brk st' - brk st)) /\
                 (q + HSZ = NULL -> u = units L /\ brk st' = brk st)).
    { intros N q st' L' Hf I'.
      pose proof (inv_new_ptr HSZ base lo st' L' q _ A HSZ_pos I') as Hr.
      destruct (malloc_acct HSZ SZB base lo st L A nbytes N _ st' HSZ_ge SZB_ge wide
                  W Hnb (Hf N (Nat.le_refl _)) Hr) as (L1 & I1 & _ & _ & _ & Hu).
      split; [exact (inv_no_adjacent HSZ HSZ_pos base lo _ L1 _ I1)|].
      exists (S (length L1)), (units L1).
      split; [exact (inv_free_units HSZ base lo st' L1 _ HSZ_pos I1)|].
      split; [intros _; lia|intros E; contradiction]. }
    destruct (malloc_spec HSZ HSZ_ge SZB SZB_ge base wide lo st L A nbytes I Hnb)
      as [(_ & q & st' & L' & Hf & I' & _)|[(_ & _ & q & st' & L' & N & Hf & I' & _)|(_ & _ & Hf)]].
    + exists (S (length L)), (q + HSZ), st'. split; [exact Hf|]. split; [exact (Hdet _ _ _ Hf)|].
      exact (Hok _ _ _ _ Hf I').
    + exists N, (q + HSZ), st'. split; [exact Hf|]. split; [exact (Hdet _ _ _ Hf)|].
      exact (Hok _ _ _ _ Hf I').
    + exists (S (length L)), NULL, (init base st).
      split; [exact Hf|]. split; [exact (Hdet _ _ _ Hf)|].
      split; [exact (inv_no_adjacent HSZ HSZ_pos base lo _ L A I)|].
      exists (S (length L)), (units L).
      split; [exact (inv_free_units HSZ base lo _ L A HSZ_pos I)|].
      split; [intros E; contradiction|intros _].
      split; [reflexivity|exact (proj1 (init_brk_lim base st))].
Qed.

(** C5 (as amended).  On a well-formed state in which the first call
    takes a free block whole (the first block large enough, in the
    order of the search from the cursor, has exactly the unit count of
    the request), or in which at most one free block can hold the
    request and the first call can succeed (a block fits or the region
    can grow), the sequence
    [p1 = malloc(nbytes); free(p1); p2 = malloc(nbytes)] gives
    [p2 = p1], and the second call leaves the end of the managed
    region where it was: nothing was grown. *)
Theorem reuse_after_free lo st L A nbytes :
  Wf HSZ base lo st L A -> uint_range nbytes ->
  (freep st <> NULL /\ first_fit_exact st (nunits_of HSZ SZB nbytes)) \/
  (unique_fit (nunits_of HSZ SZB nbytes) L /\
   ((exists c, In c L /\ nunits_of HSZ SZB nbytes <= snd c) \/
    brk st + grow_units (nunits_of HSZ SZB nbytes) * HSZ <= lim st)) ->
  exists N p1 s1 s2 s3,
    p1 <> NULL /\
    forall f, (N <= f)%nat ->
      malloc HSZ SZB base f st nbytes = Some (p1, s1) /\
      free HSZ f s1 p1 = Some s2 /\
      malloc HSZ SZB base f s2 nbytes = Some (p1, s3) /\
      brk s3 = brk s1.
Proof.
  intros W Hnb [(Hfp & Hex)|(Hu & Hav)]; assert (HSZ_pos : 0 < HSZ) by lia.
  { destruct W as [I|(I0 & _)].
    - exact (reuse_whole HSZ HSZ_ge SZB SZB_ge base wide lo st L A nbytes I Hnb Hex).
    - pose proof (inv0_freep _ _ _ _ I0). contradiction. }
  pose proof (wf_init HSZ HSZ_ge base _ _ _ _ W) as I.
  destruct (nunits_wide HSZ HSZ_ge SZB SZB_ge wide nbytes Hnb) as (_ & Hn & _).
  destruct (malloc_detail HSZ HSZ_ge SZB SZB_ge base wide lo st L A nbytes I Hnb Hu Hav)
    as (N & s1 & K1 & c & sp & F2 & Hm1 & Hsp & G & Hu' & I1).
  set (n := nunits_of HSZ SZB nbytes) in *.
  set (q := c + (sp - n) * HSZ) in *.
  destruct (free_restores HSZ HSZ_pos base lo s1 A K1 c sp F2 n ltac:(lia) I1 G)
    as (pa & Hfree & I2).
  fold q in Hfree, I2.
  set (s2 := free_link HSZ s1 q pa) in *.
  assert (Hfit : exists b, In b (K1 ++ (c, sp) :: F2) /\ n <= snd b).
  { exists (c, sp). split; [apply in_or_app; right; now left|exact Hsp]. }
  destruct (loop_fit HSZ HSZ_pos SZB base lo s2 _ A n I2 Hn Hfit)
    as (q2 & s3 & L3 & Hloop & I3 & Hb3 & _ & (K1' & c' & sp' & F2' & EL & Hsp' & Eq2 & _)).
  assert (Ec : (c', sp') = (c, sp)).
  { apply Hu'.
    - rewrite EL. apply in_or_app. right. now left.
    - apply in_or_app. right. now left.
    - exact Hsp'.
    - exact Hsp. }
  injection Ec as -> ->. fold q in Eq2. subst q2.
  exists (N + S (length (K1 ++ remainder c sp n ++ F2)) + S (length (K1 ++ (c, sp) :: F2)))%nat,
         (q + HSZ), s1, s2, s3.
  split.
  { pose proof (inv_alloc _ _ _ _ _ _ I1) as Ha.
    apply Forall_cons_iff in Ha. destruct Ha as [(Hq & _) _]. cbn [fst] in Hq.
    pose proof (inv_base_pos _ _ _ _ _ _ I1). pose proof (inv_base_lo _ _ _ _ _ _ I1).
    unfold NULL. lia. }
  intros f Hf. split; [apply Hm1; lia|]. split; [|split].
  - replace f with (S (length (K1 ++ remainder c sp n ++ F2))
                    + (f - S (length (K1 ++ remainder c sp n ++ F2))))%nat by lia.
    apply free_fuel_mono. exact Hfree.
  - unfold malloc. rewrite (inv_init_id HSZ HSZ_ge base _ _ _ _ I2). fold n.
    replace f with (S (length (K1 ++ (c, sp) :: F2))
                    + (f - S (length (K1 ++ (c, sp) :: F2))))%nat by lia.
    apply malloc_loop_mono. exact Hloop.
  - rewrite Hb3. reflexivity.
Qed.

End Merging.

(** * Concrete instances *)

Lemma lp64_wide : 2 ^ 32 * 16 <= 2 ^ 64.
Proof. vm_compute. discriminate. Qed.

Lemma fresh_wf (lim0 : Z) :
  4096 <= lim0 -> lim0 - 4096 < 2 ^ 32 * 16 ->
  Wf 16 1000 4096 (fresh 4096 lim0) [] [].
Proof.
  intros H1 H2. right. split; [|auto].
  constructor; cbn [fresh freep brk lim]; try lia; reflexivity.
Qed.

Lemma ex_state_inv : Inv 16 1000 4096 ex_state [(4096, 4091)] [(69552, 5)].
Proof.
  constructor; cbn [ex_state mem freep brk lim map fst]; try lia; try reflexivity.
  - now left.
  - cbn [lseg fst snd]. repeat split.
  - cbn [gaps fst]. split; [lia|exact I].
  - constructor; [|constructor]. unfold in_heap, blk_end. cbn [fst snd].
    split; [lia|split; [lia|split; [reflexivity|lia]]].
  - constructor; [|constructor]. unfold in_heap, blk_end. cbn [fst snd].
    split; [lia|split; [lia|split; [reflexivity|lia]]].
  - constructor; [reflexivity|constructor].
  - cbn [pairwise_disj]. auto.
  - constructor; [|constructor]. constructor; [|constructor].
    right. unfold blk_end. cbn [fst snd]. lia.
Qed.

Lemma ex_state2_inv :
  Inv 16 1000 4096 ex_state2 [(4096, 4090)] [(69536, 1); (69552, 5)].
Proof.
  constructor; cbn [ex_state2 mem freep brk lim map fst]; try lia; try reflexivity.
  - now left.
  - cbn [lseg fst snd]. repeat split.
  - cbn [gaps fst]. split; [lia|exact I].
  - constructor; [|constructor]. unfold in_heap, blk_end. cbn [fst snd].
    split; [lia|split; [lia|split; [reflexivity|lia]]].
  - constructor; [|constructor; [|constructor]]; unfold in_heap, blk_end; cbn [fst snd];
      (split; [lia|split; [lia|split; [reflexivity|lia]]]).
  - constructor; [reflexivity|constructor; [reflexivity|constructor]].
  - cbn [pairwise_disj]. split; [|split; [constructor|exact I]].
    constructor; [|constructor]. left. unfold blk_end. cbn [fst snd]. lia.
  - constructor; [|constructor; [|constructor]];
      (constructor; [|constructor]); right; unfold blk_end; cbn [fst snd]; lia.
Qed.

Lemma ex_state3_inv :
  Inv 16 1000 4096 ex_state3 [(4096, 4089); (69552, 5)] [(69520, 2)].
Proof.
  constructor; cbn [ex_state3 mem freep brk lim map fst]; try lia; try reflexivity.
  - right. now left.
  - cbn [lseg fst snd]. repeat split.
  - cbn [gaps fst]. unfold blk_end. cbn [fst snd]. split; [lia|split; [lia|exact I]].
  - constructor; [|constructor; [|constructor]]; unfold in_heap, blk_end; cbn [fst snd];
      (split; [lia|split; [lia|split; [reflexivity|lia]]]).
  - constructor; [|constructor]. unfold in_heap, blk_end. cbn [fst snd].
    split; [lia|split; [lia|split; [reflexivity|lia]]].
  - constructor; [reflexivity|constructor].
  - cbn [pairwise_disj]. split; [constructor|exact I].
  - constructor; [|constructor]. constructor; [|constructor; [|constructor]].
    + right. unfold blk_end. cbn [fst snd]. lia.
    + left. unfold blk_end. cbn [fst snd]. lia.
Qed.

Lemma fresh_inv0 (lim0 : Z) :
  4096 <= lim0 -> lim0 - 4096 < 2 ^ 32 * 16 -> Inv0 16 1000 4096 (fresh 4096 lim0).
Proof.
  intros H1 H2. constructor; cbn [fresh freep brk lim]; try lia; reflexivity.
Qed.

(** ** Instances of the theorems *)

Lemma free_scan_terminates_witness :
  exists k, (k < 3)%nat /\
    free_scan 3 (mem ring_state) 250 (freep ring_state)
      = Some (nth_node (mem ring_state) k (freep ring_state)).
Proof.
  destruct (free_scan_terminates ring_state 250 3) as (k & Hk & Hs & _).
  - lia.
  - reflexivity.
  - intros i Hi. destruct i as [|[|[|i]]]; simpl; lia.
  - exists k. split; assumption.
Defined.

Lemma free_restores_no_adjacent_witness :
  exists st',
    free 16 2 ex_state (ptr_of 16 (69552, 5)) = Some st' /\ no_adjacent 16 st' /\
    exists x, on_chain st' x /\ x <= 69552 /\
              69552 + 5 * 16 <= x + h_size (mem st' x) * 16.
Proof.
  destruct (free_restores_no_adjacent 16 ltac:(lia) 64 ltac:(lia) 1000 lp64_wide
              4096 ex_state [(4096, 4091)] [(69552, 5)] (or_introl ex_state_inv))
    as (H & _).
  destruct (H (69552, 5) (or_introl eq_refl)) as (st' & Hf & Hn & Hx & _).
  exists st'. split; [apply Hf; simpl; lia|]. split; [exact Hn|exact Hx].
Defined.

Lemma malloc_zero_witness :
  exists N r st' L',
    (forall f, (N <= f)%nat -> malloc 16 64 1000 f (fresh 4096 1052672) 0 = Some (r, st')) /\
    r <> NULL /\ h_size (mem st' (r - 16)) = 1 /\
    Inv 16 1000 4096 st' L' [(r - 16, 1)].
Proof.
  destruct (malloc_zero 16 ltac:(lia) 64 ltac:(lia) 1000 lp64_wide
              4096 (fresh 4096 1052672) [] [])
    as (N & r & st' & L' & H1 & H2 & _ & H4 & H5).
  - apply fresh_wf; [lia|reflexivity].
  - right. simpl. lia.
  - exists N, r, st', L'. auto.
Defined.

Lemma malloc_pointer_ok_witness :
  exists st' hdr,
    malloc 16 64 1000 20 (fresh 4096 1052672) 64 = Some (69568, st') /\
    69568 = hdr + 16 /\ h_size (mem st' hdr) = ceil_div 64 16 + 1 /\
    64 <= (h_size (mem st' hdr) - 1) * 16 /\ 69568 mod 16 = 0.
Proof.
  assert (E : exists st', malloc 16 64 1000 20 (fresh 4096 1052672) 64 = Some (69568, st')).
  { vm_compute. eexists. reflexivity. }
  destruct E as (st' & E).
  destruct (malloc_pointer_ok 16 ltac:(lia) 64 ltac:(lia) 1000 lp64_wide
              4096 (fresh 4096 1052672) [] [] 64 20%nat 69568 st')
    as (hdr & H1 & H2 & H3 & H4 & _).
  - apply fresh_wf; [lia|reflexivity].
  - unfold uint_range. change (2 ^ 32) with 4294967296. lia.
  - exact E.
  - unfold NULL. lia.
  - exists st', hdr. auto.
Defined.

Lemma malloc_oom_unchanged_witness :
  malloc 16 64 1000 2 ex_state 2000000 = Some (NULL, ex_state).
Proof.
  destruct (malloc_oom_unchanged 16 ltac:(lia) 64 ltac:(lia) 1000 lp64_wide
              4096 ex_state [(4096, 4091)] [(69552, 5)] 2000000
              (or_introl ex_state_inv)) as (H & _).
  - unfold uint_range. change (2 ^ 32) with 4294967296. lia.
  - apply (H : _ -> _ -> forall f, _ -> _ = Some (NULL, ex_state)).
    + constructor; [vm_compute; reflexivity|constructor].
    + vm_compute. reflexivity.
    + simpl. lia.
Defined.

Lemma malloc_seq_disjoint_witness :
  exists ps st',
    malloc_seq 16 64 1000 30 (fresh 4096 1052672) [64; 0; 100] = Some (ps, st') /\
    pairwise_disj 16 (blocks_of 16 64 ps [64; 0; 100]) /\
    pairwise (usable_disj 16) (blocks_of 16 64 ps [64; 0; 100]).
Proof.
  assert (E : exists st', malloc_seq 16 64 1000 30 (fresh 4096 1052672) [64; 0; 100]
                          = Some ([69568; 69552; 69424], st')).
  { vm_compute. eexists. reflexivity. }
  destruct E as (st' & E).
  destruct (malloc_seq_disjoint 16 ltac:(lia) 64 ltac:(lia) 1000 lp64_wide
              4096 (fresh 4096 1052672) [] [] [64; 0; 100] 30%nat [69568; 69552; 69424] st')
    as (_ & _ & H3 & H4).
  - apply fresh_wf; [lia|reflexivity].
  - unfold uint_range. change (2 ^ 32) with 4294967296. repeat constructor; lia.
  - exact E.
  - unfold NULL. repeat constructor; lia.
  - eexists _, st'. split; [exact E|]. split; assumption.
Defined.

Lemma reuse_after_free_witness :
  (exists N p1 s1 s2 s3,
     p1 <> NULL /\
     forall f, (N <= f)%nat ->
       malloc 16 64 1000 f ex_state3 64 = Some (p1, s1) /\
       free 16 f s1 p1 = Some s2 /\
       malloc 16 64 1000 f s2 64 = Some (p1, s3) /\
       brk s3 = brk s1) /\
  (exists N p1 s1 s2 s3,
     p1 <> NULL /\
     forall f, (N <= f)%nat ->
       malloc 16 64 1000 f (fresh 4096 1052672) 64 = Some (p1, s1) /\
       free 16 f s1 p1 = Some s2 /\
       malloc 16 64 1000 f s2 64 = Some (p1, s3) /\
       brk s3 = brk s1).
Proof.
  split.
  - apply (reuse_after_free 16 ltac:(lia) 64 ltac:(lia) 1000 lp64_wide
             4096 ex_state3 [(4096, 4089); (69552, 5)] [(69520, 2)] 64
             (or_introl ex_state3_inv)).
    + unfold uint_range. change (2 ^ 32) with 4294967296. lia.
    + left. split; [discriminate|].
      exists 0%nat. split; [intros j Hj; lia|reflexivity].
  - apply (reuse_after_free 16 ltac:(lia) 64 ltac:(lia) 1000 lp64_wide
             4096 (fresh 4096 1052672) [] [] 64).
    + apply fresh_wf; [lia|reflexivity].
    + unfold uint_range. change (2 ^ 32) with 4294967296. lia.
    + right. split; [intros b1 b2 []|]. right. vm_compute. discriminate.
Defined.

Lemma sentinel_preserved_witness :
  exists st' live',
    run 16 64 1000 20 ex_state (map (ptr_of 16) [(69552, 5)])
        [Omalloc 10; Ofree 69568; Omalloc 0] = Some (st', live') /\
    h_size (mem st' 1000) = 0 /\ on_chain st' 1000 /\ freep st' <> NULL.
Proof.
  assert (E : exists r, run 16 64 1000 20 ex_state (map (ptr_of 16) [(69552, 5)])
                            [Omalloc 10; Ofree 69568; Omalloc 0] = Some r).
  { vm_compute. eexists. reflexivity. }
  destruct E as ([st' live'] & E).
  destruct (sentinel_preserved 16 ltac:(lia) 64 ltac:(lia) 1000 lp64_wide
              4096 ex_state [(4096, 4091)] [(69552, 5)]
              [Omalloc 10; Ofree 69568; Omalloc 0] 20%nat st' live' ex_state_inv)
    as (H1 & H2 & H3 & _).
  - unfold op_ok, uint_range. change (2 ^ 32) with 4294967296. repeat constructor; lia.
  - exact E.
  - exists st', live'. auto.
Defined.

(** Why the width assumption on [size_t] matters: with a 32-bit
    [size_t] and [sizeof(Header) = 8], a request of [2^32 - 1] bytes is
    served by a block of a single unit. *)
Remark malloc_block_too_small_32 :
  exists r st',
    malloc 8 32 1000 20 (fresh 4096 1052672) (2 ^ 32 - 1) = Some (r, st') /\
    r <> NULL /\
    h_size (mem st' (r - 8)) = 1 /\
    ~ (2 ^ 32 - 1 <= (h_size (mem st' (r - 8)) - 1) * 8).
Proof.
  eexists _, _. split; [vm_compute; reflexivity|].
  split; [unfold NULL; lia|]. split; [reflexivity|].
  vm_compute. intros H. apply H. reflexivity.
Qed.

(** C3 fails as stated on the very first call: when the growth
    primitive fails there, [malloc] returns 0 but has set the cursor and
    the sentinel's next link to [&base]. *)
Lemma malloc_oom_first_call_initialises :
  exists st',
    malloc 16 64 1000 5 (fresh 4096 4096) 8 = Some (NULL, st') /\
    freep (fresh 4096 4096) = 0 /\ freep st' = 1000 /\
    h_ptr (mem (fresh 4096 4096) 1000) = 0 /\ h_ptr (mem st' 1000) = 1000.
Proof.
  eexists. split; [vm_compute; reflexivity|]. repeat split.
Qed.

(** C5 fails as stated when two free blocks can hold the request.  A
    client allocates 1000, 16, 1000 and 16 bytes and frees the two large
    blocks; then [malloc(64)] carves 68512 from the lower hole, [free]
    merges it back and leaves the cursor on that hole, and the next
    [malloc(64)] is served from the hole after it: 69568. *)
Lemma reuse_fails_with_two_fitting_blocks :
  exists st0 st1 st2 s1 s2 s3,
    malloc_seq 16 64 1000 50 (fresh 4096 1052672) [1000; 16; 1000; 16]
      = Some ([68624; 68592; 67568; 67536], st0) /\
    free 16 50 st0 68624 = Some st1 /\
    free 16 50 st1 67568 = Some st2 /\
    malloc 16 64 1000 50 st2 64 = Some (68512, s1) /\
    free 16 50 s1 68512 = Some s2 /\
    malloc 16 64 1000 50 s2 64 = Some (69568, s3) /\
    69568 <> 68512 /\ brk s3 = brk s1.
Proof.
  eexists _, _, _, _, _, _.
  split; [vm_compute; reflexivity|].
  split; [vm_compute; reflexivity|].
  split; [vm_compute; reflexivity|].
  split; [vm_compute; reflexivity|].
  split; [vm_compute; reflexivity|].
  split; [vm_compute; reflexivity|].
  split; [lia|reflexivity].
Qed.

(** ** Instances of the results on conservation, frames and policy *)

Lemma free_returns_units_witness :
  exists st' g u,
    free 16 3 ex_state2 69552 = Some st' /\
    free_units 1000 g ex_state2 = Some u /\
    free_units 1000 g st' = Some (u + 1).
Proof.
  assert (E : exists st', free 16 3 ex_state2 69552 = Some st').
  { vm_compute. eexists. reflexivity. }
  destruct E as (st' & E).
  destruct (free_returns_units 16 ltac:(lia) 1000 4096 ex_state2 _ _ 3%nat 69552 st'
              ex_state2_inv (or_introl eq_refl) E) as (g & u & H1 & H2 & _).
  exists st', g, u. split; [exact E|]. split; [exact H1|exact H2].
Defined.

Lemma units_accounted_witness :
  exists st' live' g u,
    run 16 64 1000 20 (fresh 4096 1052672) [] [Omalloc 64; Omalloc 0; Ofree 69568]
      = Some (st', live') /\
    free_units 1000 g st' = Some u /\
    (u + live_units 16 st' live') * 16 = brk st' - 4096.
Proof.
  assert (E : exists r, run 16 64 1000 20 (fresh 4096 1052672) []
                            [Omalloc 64; Omalloc 0; Ofree 69568] = Some r).
  { vm_compute. eexists. reflexivity. }
  destruct E as ([st' live'] & E).
  destruct (units_accounted 16 ltac:(lia) 64 ltac:(lia) 1000 lp64_wide 4096
              (fresh 4096 1052672) [Omalloc 64; Omalloc 0; Ofree 69568] 20%nat st' live')
    as (g & u & H1 & H2).
  - apply fresh_inv0; [lia|reflexivity].
  - unfold op_ok, uint_range. change (2 ^ 32) with 4294967296. repeat constructor; lia.
  - discriminate.
  - exact E.
  - exists st', live', g, u. auto.
Defined.

Lemma free_all_coalesces_witness :
  exists st',
    run 16 64 1000 20 (fresh 4096 1052672) []
        [Omalloc 64; Omalloc 0; Ofree 69568; Ofree 69552] = Some (st', []) /\
    h_ptr (mem st' 1000) = 4096 /\ h_size (mem st' 4096) * 16 = brk st' - 4096 /\
    h_ptr (mem st' 4096) = 1000.
Proof.
  assert (E : exists st', run 16 64 1000 20 (fresh 4096 1052672) []
                [Omalloc 64; Omalloc 0; Ofree 69568; Ofree 69552] = Some (st', [])
              /\ brk st' <> 4096).
  { vm_compute. eexists. split; [reflexivity|discriminate]. }
  destruct E as (st' & E & Hb).
  destruct (free_all_coalesces 16 ltac:(lia) 64 ltac:(lia) 1000 lp64_wide 4096
              (fresh 4096 1052672) [Omalloc 64; Omalloc 0; Ofree 69568; Ofree 69552]
              20%nat st') as [(H & _)|(_ & H)].
  - apply fresh_inv0; [lia|reflexivity].
  - unfold op_ok, uint_range. change (2 ^ 32) with 4294967296. repeat constructor; lia.
  - discriminate.
  - exact E.
  - contradiction.
  - exists st'. split; [exact E|exact H].
Defined.

Lemma free_spares_live_blocks_witness :
  exists st',
    free 16 3 ex_state2 69552 = Some st' /\
    untouched 16 (mem ex_state2) (mem st') (69552, 5).
Proof.
  assert (E : exists st', free 16 3 ex_state2 69552 = Some st').
  { vm_compute. eexists. reflexivity. }
  destruct E as (st' & E).
  pose proof (free_spares_live_blocks 16 ltac:(lia) 1000 4096 ex_state2 _ _ 3%nat 69552 st'
                ex_state2_inv (or_introl eq_refl) E) as H.
  exists st'. split; [exact E|].
  apply Forall_inv in H. exact H.
Defined.

Lemma malloc_spares_live_blocks_witness :
  exists r st',
    malloc 16 64 1000 5 ex_state2 100 = Some (r, st') /\
    untouched 16 (mem ex_state2) (mem st') (69536, 1) /\ 69552 <> r.
Proof.
  assert (E : exists r st', malloc 16 64 1000 5 ex_state2 100 = Some (r, st')).
  { vm_compute. eexists. eexists. reflexivity. }
  destruct E as (r & st' & E).
  pose proof (malloc_spares_live_blocks 16 ltac:(lia) 64 ltac:(lia) 1000 lp64_wide 4096
                ex_state2 _ _ 100 5%nat r st' (or_introl ex_state2_inv)) as H.
  exists r, st'. split; [exact E|].
  assert (Hu : uint_range 100) by (unfold uint_range; change (2 ^ 32) with 4294967296; lia).
  specialize (H Hu E). apply Forall_inv in H. exact H.
Defined.

Lemma live_blocks_never_overlap_witness :
  exists st' live',
    run 16 64 1000 20 ex_state2 (map (ptr_of 16) [(69536, 1); (69552, 5)])
        [Omalloc 64; Ofree 69552; Omalloc 100] = Some (st', live') /\
    pairwise (fun p q => disj 16 (live_block 16 st' p) (live_block 16 st' q)) live' /\
    Forall (fun p => in_heap 16 4096 (brk st') (live_block 16 st' p)) live'.
Proof.
  assert (E : exists r, run 16 64 1000 20 ex_state2 (map (ptr_of 16) [(69536, 1); (69552, 5)])
                            [Omalloc 64; Ofree 69552; Omalloc 100] = Some r).
  { vm_compute. eexists. reflexivity. }
  destruct E as ([st' live'] & E).
  destruct (live_blocks_never_overlap 16 ltac:(lia) 64 ltac:(lia) 1000 lp64_wide 4096
              ex_state2 _ _ [Omalloc 64; Ofree 69552; Omalloc 100] 20%nat st' live'
              (or_introl ex_state2_inv)) as (H1 & H2 & _).
  - unfold op_ok, uint_range. change (2 ^ 32) with 4294967296. repeat constructor; lia.
  - exact E.
  - exists st', live'. auto.
Defined.

Lemma free_list_ordered_witness :
  exists st' live' k,
    run 16 64 1000 20 (fresh 4096 1052672) (map (ptr_of 16) [])
        [Omalloc 64; Omalloc 0; Ofree 69568] = Some (st', live') /\
    nth_node (mem st') (S k) 1000 = 1000 /\
    (forall i, (i < k)%nat -> nth_node (mem st') i 1000 < nth_node (mem st') (S i) 1000).
Proof.
  assert (E : exists r, run 16 64 1000 20 (fresh 4096 1052672) (map (ptr_of 16) [])
                            [Omalloc 64; Omalloc 0; Ofree 69568] = Some r).
  { vm_compute. eexists. reflexivity. }
  destruct E as ([st' live'] & E).
  destruct (free_list_ordered 16 ltac:(lia) 64 ltac:(lia) 1000 lp64_wide 4096
              (fresh 4096 1052672) [] [] [Omalloc 64; Omalloc 0; Ofree 69568] 20%nat st' live')
    as (k & H1 & H2 & _).
  - apply fresh_wf; [lia|reflexivity].
  - unfold op_ok, uint_range. change (2 ^ 32) with 4294967296. repeat constructor; lia.
  - discriminate.
  - exact E.
  - exists st', live', k. auto.
Defined.

Lemma region_only_grows_witness :
  exists st' live',
    run 16 64 1000 20 (fresh 4096 1052672) (map (ptr_of 16) [])
        [Omalloc 64; Omalloc 70000; Ofree 69568] = Some (st', live') /\
    (brk st' = 4096 \/ 4096 + 4096 * 16 <= brk st') /\ brk st' <= lim st'.
Proof.
  assert (E : exists r, run 16 64 1000 20 (fresh 4096 1052672) (map (ptr_of 16) [])
                            [Omalloc 64; Omalloc 70000; Ofree 69568] = Some r).
  { vm_compute. eexists. reflexivity. }
  destruct E as ([st' live'] & E).
  destruct (region_only_grows 16 ltac:(lia) 64 ltac:(lia) 1000 lp64_wide 4096
              (fresh 4096 1052672) [] [] [Omalloc 64; Omalloc 70000; Ofree 69568]
              20%nat st' live') as (H1 & H2 & _).
  - apply fresh_wf; [lia|reflexivity].
  - unfold op_ok, uint_range. change (2 ^ 32) with 4294967296. repeat constructor; lia.
  - exact E.
  - exists st', live'. auto.
Defined.

Lemma malloc_reuses_free_block_witness :
  exists N r st',
    (forall f, (N <= f)%nat -> malloc 16 64 1000 f ex_state 64 = Some (r, st')) /\
    r <> NULL /\ brk st' = brk ex_state.
Proof.
  destruct (malloc_reuses_free_block 16 ltac:(lia) 64 ltac:(lia) 1000 lp64_wide 4096
              ex_state _ _ 64 ex_state_inv) as (N & r & st' & H1 & H2 & H3 & _).
  - unfold uint_range. change (2 ^ 32) with 4294967296. lia.
  - exists 4096. split; [exists 1%nat; reflexivity|]. vm_compute. discriminate.
  - exists N, r, st'. auto.
Defined.

Lemma malloc_grows_by_floor_witness :
  exists N r st',
    (forall f, (N <= f)%nat ->
       malloc 16 64 1000 f (fresh 4096 1052672) 8 = Some (r, st')) /\
    r <> NULL /\ brk st' = 4096 + 4096 * 16.
Proof.
  destruct (malloc_grows_by_floor 16 ltac:(lia) 64 ltac:(lia) 1000 lp64_wide 4096
              (fresh 4096 1052672) [] [] 8) as (N & r & st' & H1 & H2 & H3 & _).
  - apply fresh_wf; [lia|reflexivity].
  - unfold uint_range. change (2 ^ 32) with 4294967296. lia.
  - constructor.
  - vm_compute. discriminate.
  - exists N, r, st'. split; [exact H1|]. split; [exact H2|exact H3].
Defined.

Lemma morecore_adds_span_witness :
  exists st',
    morecore 16 64 3 ex_state 5000 = Some (freep st', st') /\
    freep st' <> NULL /\ brk st' = brk ex_state + 5000 * 16.
Proof.
  assert (E : exists r, morecore 16 64 3 ex_state 5000 = Some r /\ fst r <> NULL).
  { vm_compute. eexists. split; [reflexivity|discriminate]. }
  destruct E as (r & E & Hr).
  destruct (morecore_adds_span 16 ltac:(lia) 64 ltac:(lia) 1000 lp64_wide 4096
              ex_state _ _ 5000 3%nat r ex_state_inv)
    as [(H & _)|(st' & H1 & H2 & H3 & _)].
  - change (2 ^ 32) with 4294967296. lia.
  - exact E.
  - rewrite H in Hr. contradiction.
  - exists st'. rewrite <- H1. split; [exact E|]. split; [exact H2|exact H3].
Defined.

Lemma malloc_free_restores_list_witness :
  exists r s1 s2,
    malloc 16 64 1000 5 ex_state 64 = Some (r, s1) /\
    free 16 5 s1 r = Some s2 /\
    Inv 16 1000 4096 s2 [(4096, 4091)] [(69552, 5)].
Proof.
  assert (E : exists r s1 s2, malloc 16 64 1000 5 ex_state 64 = Some (r, s1) /\
                              free 16 5 s1 r = Some s2).
  { eexists. eexists. eexists. split; [vm_compute; reflexivity|vm_compute; reflexivity]. }
  destruct E as (r & s1 & s2 & E1 & E2).
  destruct (malloc_free_restores_list 16 ltac:(lia) 64 ltac:(lia) 1000 lp64_wide 4096
              ex_state _ _ 64 5%nat r s1 s2 ex_state_inv) as (H & _).
  - unfold uint_range. change (2 ^ 32) with 4294967296. lia.
  - exists 4096. split; [exists 1%nat; reflexivity|]. vm_compute. discriminate.
  - exact E1.
  - exact E2.
  - exists r, s1, s2. auto.
Defined.

Lemma freed_block_is_reusable_witness :
  exists st1 N r st2,
    free 16 3 ex_state2 69568 = Some st1 /\
    (forall g, (N <= g)%nat -> malloc 16 64 1000 g st1 64 = Some (r, st2)) /\
    r <> NULL /\ brk st2 = brk ex_state2.
Proof.
  assert (E : exists st1, free 16 3 ex_state2 69568 = Some st1).
  { vm_compute. eexists. reflexivity. }
  destruct E as (st1 & E).
  destruct (freed_block_is_reusable 16 ltac:(lia) 64 ltac:(lia) 1000 lp64_wide 4096
              ex_state2 _ _ 3%nat 69568 st1 64 ex_state2_inv) as (N & r & st2 & H).
  - right. now left.
  - exact E.
  - unfold uint_range. change (2 ^ 32) with 4294967296. lia.
  - vm_compute. discriminate.
  - exists st1, N, r, st2. split; [exact E|exact H].
Defined.

Lemma malloc_terminates_witness :
  exists r st', forall f, (3 <= f)%nat ->
    malloc 16 64 1000 f (fresh 4096 1052672) 64 = Some (r, st').
Proof.
  apply (malloc_terminates 16 ltac:(lia) 64 ltac:(lia) 1000 lp64_wide 4096
           (fresh 4096 1052672) [] [] 64).
  - apply fresh_wf; [lia|reflexivity].
  - unfold uint_range. change (2 ^ 32) with 4294967296. lia.
Defined.

Lemma free_ignores_cursor_witness :
  exists s1,
    free 16 3 ex_state 69568 = Some s1 /\
    free 16 3 (mkState (mem ex_state) 4096 (brk ex_state) (lim ex_state)) 69568 = Some s1.
Proof.
  assert (E : exists s1 s2, free 16 3 ex_state 69568 = Some s1 /\
              free 16 3 (mkState (mem ex_state) 4096 (brk ex_state) (lim ex_state)) 69568
                = Some s2).
  { vm_compute. eexists. eexists. split; reflexivity. }
  destruct E as (s1 & s2 & E1 & E2).
  pose proof (free_ignores_cursor 16 ltac:(lia) 1000 4096 ex_state _ _ 3%nat 3%nat 69568 4096
                s1 s2 ex_state_inv (or_introl eq_refl)
                (ex_intro _ 1%nat eq_refl) E1 E2) as H.
  exists s1. split; [exact E1|]. rewrite <- H. exact E2.
Defined.

Lemma live_block_survives_run_witness :
  exists st' live',
    run 16 64 1000 20 ex_state (map (ptr_of 16) [(69552, 5)])
        [Omalloc 10; Omalloc 70000; Ofree 69536] = Some (st', live') /\
    In 69568 live' /\ untouched 16 (mem ex_state) (mem st') (69552, 5).
Proof.
  assert (E : exists r, run 16 64 1000 20 ex_state (map (ptr_of 16) [(69552, 5)])
                            [Omalloc 10; Omalloc 70000; Ofree 69536] = Some r).
  { vm_compute. eexists. reflexivity. }
  destruct E as ([st' live'] & E).
  destruct (live_block_survives_run 16 ltac:(lia) 64 ltac:(lia) 1000 lp64_wide 4096
              ex_state _ _ [Omalloc 10; Omalloc 70000; Ofree 69536] 20%nat st' live' 69568
              (or_introl ex_state_inv)) as (H1 & _ & H3).
  - unfold op_ok, uint_range. change (2 ^ 32) with 4294967296. repeat constructor; lia.
  - now left.
  - intros [H|[H|[H|[]]]]; discriminate.
  - exact E.
  - exists st', live'. split; [exact E|]. split; [exact H1|exact H3].
Defined.

Lemma malloc_next_fit_witness :
  exists r st' k,
    malloc 16 64 1000 5 ex_state 64 = Some (r, st') /\
    r = nth_node (mem ex_state) (S k) 1000
        + (h_size (mem ex_state (nth_node (mem ex_state) (S k) 1000)) - 5) * 16 + 16.
Proof.
  assert (E : exists r st', malloc 16 64 1000 5 ex_state 64 = Some (r, st') /\
                            r <> NULL /\ brk st' = brk ex_state).
  { vm_compute. eexists. eexists. split; [reflexivity|]. split; [discriminate|reflexivity]. }
  destruct E as (r & st' & E & Hr & Hb).
  destruct (malloc_next_fit 16 ltac:(lia) 64 ltac:(lia) 1000 lp64_wide 4096
              ex_state _ _ 64 5%nat r st' ex_state_inv) as (k & _ & _ & H).
  - unfold uint_range. change (2 ^ 32) with 4294967296. lia.
  - exact E.
  - exact Hr.
  - exact Hb.
  - exists r, st', k. split; [exact E|exact H].
Defined.

Lemma nunits_overhead_witness :
  100 <= (nunits_of 16 64 100 - 1) * 16 < 100 + 16 /\
  nunits_of 16 64 100 <= nunits_of 16 64 200.
Proof.
  apply (nunits_overhead 16 ltac:(lia) 64 ltac:(lia) lp64_wide 100 200);
    unfold uint_range; change (2 ^ 32) with 4294967296; lia.
Defined.
